(** * Moose Jaw transit guide: the itinerary search engine of [App.tsx]

    A shallow embedding of the trip planner of
    [mj_transit_guide_front/src/App.tsx]: the CSV reader ([parseCsv]), the
    time conversion ([timeToMinutes], [formatTime], [minutesBetween]), the
    service area ([serviceBounds], [isWithinBounds]), the nearest-stop
    search ([findNearestStop], [pickNearestStop]), the indexes
    ([stopTimesByTrip], [stopById]), the reachability filter
    ([buildEligibleStopIds]) and the planner ([planResult]).

    Conventions of the model.
    - A JavaScript string is a [string] of 8-bit code units.
    - A JavaScript number is a [number]: [NaN], the two infinities, or a
      finite binary64 value, held as the rational it denotes.  Every
      operation rounds its exact result to the nearest binary64 value, ties
      to even, subnormals included, and overflows to an infinity; [Number]
      rounds the decimal it reads in the same way.  The two zeros are one
      value: the program never divides by a zero it computed and prints no
      zero with its sign.
    - [Array.prototype.sort] is the stable insertion sort [js_sort]; this is
      the result ECMAScript prescribes whenever the comparator is
      consistent.
    - [Map] is stdpp's [gmap]; [Set] is [gset]; [undefined] and [null] are
      [None].  A row object of [parseCsv] is the [gmap] of its own
      properties.
    - [haversineDistanceKm] is a parameter of the planner: its sines,
      cosines and square root are outside the model of numbers, and nothing
      proved here depends on its values. *)

From Stdlib Require Import ZArith QArith Qreduction Qcanon Qround Qabs Qpower.
From Stdlib Require Import String Ascii List Bool Lia Lqa.
From Stdlib Require Import Permutation Sorted.
From stdpp Require Import base option list gmap strings.

Local Open Scope string_scope.
Local Open Scope list_scope.

(** ** Binary64 values *)

Module Binary64.
Local Open Scope Q_scope.

Definition pow2 (e : Z) : Q := Qpower 2 e.

(** The floor of the binary logarithm of a positive rational. *)
Definition ilog2 (q : Q) : Z :=
  let k := (Z.log2 (Qnum q) - Z.log2 (Zpos (Qden q)))%Z in
  if Qle_bool (pow2 k) q then k else (k - 1)%Z.

(** Rounding to the nearest integer, ties to even. *)
Definition rne (x : Q) : Z :=
  let f := Qfloor x in
  match ((x - inject_Z f)%Q ?= (1 # 2)%Q)%Q with
  | Lt => f
  | Gt => (f + 1)%Z
  | Eq => if Z.even f then f else (f + 1)%Z
  end.

(** The exponent of the least subnormal, [2^-1074]. *)
Definition emin : Z := (-1074)%Z.

(** The exponent of the unit in the last place of a positive rational:
    53 significant bits, and never below the subnormal grid. *)
Definition ulp_exponent (q : Q) : Z := Z.max emin (ilog2 q - 52).

Definition rnd_pos (q : Q) : Q :=
  inject_Z (rne (q / pow2 (ulp_exponent q))) * pow2 (ulp_exponent q).

(** roundTiesToEven to 53 significant bits with subnormals and an unbounded
    exponent, in lowest terms. *)
Definition rnd (q : Q) : Q :=
  match (q ?= 0)%Q with
  | Eq => 0
  | Gt => Qred (rnd_pos q)
  | Lt => Qred (- rnd_pos (- q))
  end.

Definition Q_same (p q : Q) : bool :=
  (Qnum p =? Qnum q)%Z && (Qden p =? Qden q)%positive.

(** The finite binary64 values: the rationals in lowest terms that rounding
    leaves unchanged and that are below [2^1024] in magnitude. *)
Definition is_double (q : Q) : bool :=
  Q_same (rnd q) q && negb (Qle_bool (pow2 1024) (Qabs q)).

Record double : Type := mkDouble {
  dval :> Q;
  dok : is_double dval = true }.

Definition double_of (v : Q) : option double :=
  match is_double v as b return is_double v = b -> option double with
  | true => fun e => Some (mkDouble v e)
  | false => fun _ => None
  end eq_refl.

Definition double_of_Z (z : Z) : option double := double_of (inject_Z z).
Definition Z_of_double (d : double) : option Z :=
  if (Qden (dval d) =? 1)%positive then Some (Qnum (dval d)) else None.

End Binary64.
Export Binary64.

Declare Scope double_scope.
Delimit Scope double_scope with double.
Bind Scope double_scope with double.
Number Notation double double_of_Z Z_of_double : double_scope.

(** ** Numbers *)

Module JsNumber.

Inductive number : Type :=
  | NaN
  | NegInfinity
  | Fin (d : double)
  | Infinity.

(** The number a real result is rounded to: the nearest binary64 value,
    ties to even, or the infinity of its sign when that value is out of
    range. *)
Definition fin (q : Q) : number :=
  match double_of (rnd q) with
  | Some d => Fin d
  | None => if Qle_bool 0 q then Infinity else NegInfinity
  end.

Definition zero : number := Fin 0.

Definition num_neg (a : number) : number :=
  match a with
  | NaN => NaN
  | NegInfinity => Infinity
  | Fin q => fin (- q)%Q
  | Infinity => NegInfinity
  end.

Definition num_add (a b : number) : number :=
  match a, b with
  | NaN, _ | _, NaN => NaN
  | Infinity, NegInfinity | NegInfinity, Infinity => NaN
  | Infinity, _ | _, Infinity => Infinity
  | NegInfinity, _ | _, NegInfinity => NegInfinity
  | Fin p, Fin q => fin (p + q)%Q
  end.

Definition num_sub (a b : number) : number :=
  match a, b with
  | NaN, _ | _, NaN => NaN
  | Infinity, Infinity | NegInfinity, NegInfinity => NaN
  | Infinity, _ | _, NegInfinity => Infinity
  | NegInfinity, _ | _, Infinity => NegInfinity
  | Fin p, Fin q => fin (p - q)%Q
  end.

(** The sign of a finite value: [Lt] negative, [Eq] zero, [Gt] positive. *)
Definition sign (q : Q) : comparison := (Qnum q ?= 0)%Z.

Definition signed_infinity (s : comparison) : number :=
  match s with Lt => NegInfinity | Eq => NaN | Gt => Infinity end.

Definition sign_of (a : number) : comparison :=
  match a with
  | NaN => Eq
  | NegInfinity => Lt
  | Fin q => sign q
  | Infinity => Gt
  end.

Definition sign_mul (s t : comparison) : comparison :=
  match s, t with
  | Eq, _ | _, Eq => Eq
  | Lt, Lt | Gt, Gt => Gt
  | Lt, Gt | Gt, Lt => Lt
  end.

Definition num_mul (a b : number) : number :=
  match a, b with
  | NaN, _ | _, NaN => NaN
  | Fin p, Fin q => fin (p * q)%Q
  | _, _ => signed_infinity (sign_mul (sign_of a) (sign_of b))
  end.

(** Division; a zero divisor is taken as [+0]. *)
Definition num_div (a b : number) : number :=
  match a, b with
  | NaN, _ | _, NaN => NaN
  | Fin p, Fin q =>
      match sign q with
      | Eq => signed_infinity (sign p)
      | _ => fin (p / q)%Q
      end
  | Fin _, _ => zero
  | _, Fin q =>
      signed_infinity (sign_mul (sign_of a) (match sign q with Lt => Lt | _ => Gt end))
  | _, _ => NaN
  end.

(** Truncation toward zero. *)
Definition Qtrunc (q : Q) : Z :=
  if Qle_bool 0 q then Qfloor q else Qceiling q.

(** The remainder operator [%]: the result takes the sign of the dividend. *)
Definition num_rem (a b : number) : number :=
  match a, b with
  | Fin p, Fin q =>
      match sign q with
      | Eq => NaN
      | _ => fin (p - q * inject_Z (Qtrunc (p / q)))%Q
      end
  | Fin p, (Infinity | NegInfinity) => a
  | _, _ => NaN
  end.

Definition num_ltb (a b : number) : bool :=
  match a, b with
  | NaN, _ | _, NaN => false
  | _, NegInfinity => false
  | NegInfinity, _ => true
  | Infinity, _ => false
  | _, Infinity => true
  | Fin p, Fin q => match (p ?= q)%Q with Lt => true | _ => false end
  end.

Definition num_leb (a b : number) : bool :=
  match a, b with
  | NaN, _ | _, NaN => false
  | NegInfinity, _ => true
  | _, NegInfinity => false
  | _, Infinity => true
  | Infinity, _ => false
  | Fin p, Fin q => match (p ?= q)%Q with Gt => false | _ => true end
  end.

Definition num_gtb (a b : number) : bool := num_ltb b a.
Definition num_geb (a b : number) : bool := num_leb b a.

(** Strict equality [===] on numbers. *)
Definition num_eqb (a b : number) : bool :=
  match a, b with
  | NegInfinity, NegInfinity | Infinity, Infinity => true
  | Fin p, Fin q => Qeq_bool p q
  | _, _ => false
  end.

(** [ToBoolean]: [NaN] and zero are falsy. *)
Definition truthy (a : number) : bool :=
  match a with
  | NaN => false
  | Fin q => negb (Qeq_bool q 0%Q)
  | _ => true
  end.

(** [Number.isFinite]. *)
Definition isFinite (a : number) : bool :=
  match a with Fin _ => true | _ => false end.

Definition isNaN (a : number) : bool :=
  match a with NaN => true | _ => false end.

(** [ToNumber] of a possibly [undefined] number: [undefined] is [NaN]. *)
Definition to_number (v : option number) : number :=
  match v with Some n => n | None => NaN end.

End JsNumber.
Export JsNumber.

(** ** [Number(string)]: the StringNumericLiteral grammar *)

Module StringToNumber.

Definition code (c : ascii) : nat := nat_of_ascii c.

(** The WhiteSpace and LineTerminator code units below 256: TAB, LF, VT, FF,
    CR, SP, NBSP. *)
Definition is_white_space (c : ascii) : bool :=
  existsb (Nat.eqb (code c)) [9; 10; 11; 12; 13; 32; 160]%nat.

Definition is_digit (c : ascii) : bool :=
  (48 <=? code c)%nat && (code c <=? 57)%nat.

(** The value of a digit in a radix up to 16, when it is one. *)
Definition digit_value (radix : nat) (c : ascii) : option nat :=
  let n := code c in
  let v :=
    if (48 <=? n)%nat && (n <=? 57)%nat then Some (n - 48)%nat
    else if (97 <=? n)%nat && (n <=? 102)%nat then Some (n - 87)%nat
    else if (65 <=? n)%nat && (n <=? 70)%nat then Some (n - 55)%nat
    else None in
  match v with
  | Some d => if (d <? radix)%nat then Some d else None
  | None => None
  end.

Fixpoint digits_from (radix : nat) (acc : Z) (l : list ascii) : option Z :=
  match l with
  | [] => Some acc
  | c :: l' =>
      match digit_value radix c with
      | Some d => digits_from radix (acc * Z.of_nat radix + Z.of_nat d) l'
      | None => None
      end
  end.

(** The value of a non-empty run of digits; [None] on the empty run and on
    any other character. *)
Definition digits (radix : nat) (l : list ascii) : option Z :=
  match l with
  | [] => None
  | _ => digits_from radix 0 l
  end.

(** The longest prefix of decimal digits, and what follows it. *)
Fixpoint span_digits (l : list ascii) : list ascii * list ascii :=
  match l with
  | c :: l' =>
      if is_digit c then let (ds, r) := span_digits l' in (c :: ds, r)
      else ([], l)
  | [] => ([], [])
  end.

Fixpoint drop_white_space (l : list ascii) : list ascii :=
  match l with
  | c :: l' => if is_white_space c then drop_white_space l' else l
  | [] => []
  end.

Definition trim (l : list ascii) : list ascii :=
  rev (drop_white_space (rev (drop_white_space l))).

(** ExponentPart, optional: the power of ten it denotes. *)
Definition ExponentPart (l : list ascii) : option Z :=
  match l with
  | [] => Some 0%Z
  | c :: r =>
      if Ascii.eqb c "e" || Ascii.eqb c "E" then
        match r with
        | "+"%char :: ds => digits 10 ds
        | "-"%char :: ds => Z.opp <$> digits 10 ds
        | _ => digits 10 r
        end
      else None
  end.

Definition StrUnsignedDecimalLiteral (l : list ascii) : option number :=
  if String.eqb (string_of_list_ascii l) "Infinity" then Some Infinity
  else
    let (int_part, r1) := span_digits l in
    let (frac_part, r2) :=
      match r1 with
      | "."%char :: r => span_digits r
      | _ => ([], r1)
      end in
    match digits 10 (int_part ++ frac_part), ExponentPart r2 with
    | Some m, Some e =>
        Some (fin (inject_Z m * Qpower 10 (e - Z.of_nat (length frac_part)))%Q)
    | _, _ => None
    end.

Definition StrDecimalLiteral (l : list ascii) : option number :=
  match l with
  | "+"%char :: r => StrUnsignedDecimalLiteral r
  | "-"%char :: r => num_neg <$> StrUnsignedDecimalLiteral r
  | _ => StrUnsignedDecimalLiteral l
  end.

Definition NonDecimalIntegerLiteral (l : list ascii) : option number :=
  match l with
  | "0"%char :: c :: ds =>
      let radix :=
        if Ascii.eqb c "x" || Ascii.eqb c "X" then Some 16%nat
        else if Ascii.eqb c "o" || Ascii.eqb c "O" then Some 8%nat
        else if Ascii.eqb c "b" || Ascii.eqb c "B" then Some 2%nat
        else None in
      match radix with
      | Some r => (fun v => fin (inject_Z v)) <$> digits r ds
      | None => None
      end
  | _ => None
  end.

(** [Number(value)] for a string [value]. *)
Definition Number (value : string) : number :=
  match trim (list_ascii_of_string value) with
  | [] => zero
  | l =>
      match NonDecimalIntegerLiteral l with
      | Some n => n
      | None =>
          match StrDecimalLiteral l with
          | Some n => n
          | None => NaN
          end
      end
  end.

(** [Number(v)] for [v] a string or [undefined]. *)
Definition Number_opt (v : option string) : number :=
  match v with Some s => Number s | None => NaN end.

(** [value.split(sep)] for a one-character separator. *)
Fixpoint split (sep : ascii) (value : string) : list string :=
  match value with
  | EmptyString => [EmptyString]
  | String c rest =>
      if Ascii.eqb c sep then EmptyString :: split sep rest
      else
        match split sep rest with
        | part :: parts => String c part :: parts
        | [] => [String c EmptyString]
        end
  end.

End StringToNumber.
Export StringToNumber.

(** ** Time arithmetic *)

(** [const [hours, minutes, seconds] = value.split(':').map((part) =>
    Number(part) || 0)]: a component the string does not have is
    [undefined]. *)
Definition timeToMinutes (value : string) : number :=
  let parts :=
    map (fun part => let n := Number part in if truthy n then n else zero)
        (split ":" value) in
  let hours := to_number (parts !! 0%nat) in
  let minutes := to_number (parts !! 1%nat) in
  let seconds := to_number (parts !! 2%nat) in
  num_add (num_add (num_mul hours (Fin 60)) minutes) (num_div seconds (Fin 60)).

Definition minutesBetween (start end_ : string) : number :=
  num_sub (timeToMinutes end_) (timeToMinutes start).

(** What [formatTime] returns: [value] itself, or the template
    [`${hours12}:${String(minutes).padStart(2, '0')} ${period}`], kept as its
    three holes. *)
Inductive display : Type :=
  | Verbatim (value : string)
  | Clock (hours12 minutes : number) (period : string).

Definition formatTime (value : string) : display :=
  let parts := split ":" value in
  let hoursTotal := Number_opt (parts !! 0%nat) in
  let minutes := Number_opt (parts !! 1%nat) in
  if negb (isFinite hoursTotal) || negb (isFinite minutes) then Verbatim value
  else
    let hours24 :=
      num_rem (num_add (num_rem hoursTotal (Fin 24)) (Fin 24)) (Fin 24) in
    let period := if num_geb hours24 (Fin 12) then "PM" else "AM" in
    let hours12 :=
      let r := num_rem hours24 (Fin 12) in
      if truthy r then r else Fin 12 in
    Clock hours12 minutes period.

(** ** Well-formed clock fields *)

Fixpoint all_digits (s : string) : bool :=
  match s with
  | EmptyString => true
  | String c rest => is_digit c && all_digits rest
  end.

(** A non-empty run of decimal digits. *)
Definition isDecimal (s : string) : bool :=
  match s with
  | EmptyString => false
  | _ => all_digits s
  end.

Fixpoint decimal_from (acc : Z) (s : string) : Z :=
  match s with
  | EmptyString => acc
  | String c rest => decimal_from (acc * 10 + Z.of_nat (code c - 48)) rest
  end.

(** The number a run of decimal digits writes. *)
Definition decimalValue (s : string) : Z := decimal_from 0 s.

(** The clock hour [formatTime] shows for a whole number of hours, and its
    period. *)
Definition hours12Of (h : Z) : Z :=
  let h24 := (h mod 24)%Z in
  if (h24 mod 12 =? 0)%Z then 12%Z else (h24 mod 12)%Z.

Definition periodOf (h : Z) : string :=
  if (12 <=? h mod 24)%Z then "PM" else "AM".

(** ** The GTFS tables *)

Record Stop : Type := mkStop {
  stop_id : string;
  stop_code : string;
  stop_name : string;
  stop_lat : number;
  stop_lon : number }.

(** [StopTime.trip_id] and [StopTime.stop_id] are [st_trip_id] and
    [st_stop_id] here, [Route.route_id] is [r_route_id]. *)
Record StopTime : Type := mkStopTime {
  st_trip_id : string;
  arrival_time : string;
  departure_time : string;
  st_stop_id : string;
  stop_sequence : number }.

Record Trip : Type := mkTrip {
  trip_id : string;
  route_id : string;
  trip_headsign : string;
  trip_short_name : string }.

Record Route : Type := mkRoute {
  r_route_id : string;
  route_short_name : string;
  route_long_name : string }.

Record CandidateTrip : Type := mkCandidateTrip {
  trip : Trip;
  route : option Route;
  boardStop : Stop;
  alightStop : Stop;
  boardTime : string;
  alightTime : string;
  boardSequence : number;
  alightSequence : number }.

Record TransferPlan : Type := mkTransferPlan {
  firstLeg : CandidateTrip;
  secondLeg : CandidateTrip;
  transferStop : Stop;
  layoverMinutes : number;
  totalMinutes : number }.

(** [AddressResult.location]. *)
Record LatLng : Type := mkLatLng { lat : number; lng : number }.

(** The three shapes [planResult] returns. *)
Inductive PlanResult : Type :=
  | PlanError (error : string)
  | PlanDirect (nextTrip : CandidateTrip) (alternatives : list CandidateTrip)
      (serviceNote : option string)
  | PlanTransfer (nextTransfer : TransferPlan) (alternatives : list TransferPlan)
      (serviceNote : option string).

(** ** Arrays *)

Section Arrays.
Context {A : Type}.

(** [l.findIndex((x, index) => p x index)]: [None] stands for [-1]. *)
Fixpoint findIndex_from (p : A -> nat -> bool) (i : nat) (l : list A) : option nat :=
  match l with
  | [] => None
  | x :: l' => if p x i then Some i else findIndex_from p (S i) l'
  end.

Definition findIndex (p : A -> nat -> bool) (l : list A) : option nat :=
  findIndex_from p 0 l.

(** One step of the insertion: [x] goes before the first element it does
    not compare greater than.  A comparator result of [NaN] counts as
    [+0]. *)
Fixpoint js_insert (cmp : A -> A -> number) (x : A) (l : list A) : list A :=
  match l with
  | [] => [x]
  | y :: l' =>
      if num_gtb (cmp x y) zero then y :: js_insert cmp x l'
      else x :: y :: l'
  end.

(** [[...l].sort(cmp)]. *)
Fixpoint js_sort (cmp : A -> A -> number) (l : list A) : list A :=
  match l with
  | [] => []
  | x :: l' => js_insert cmp x (js_sort cmp l')
  end.
End Arrays.

(** ** The reachability filter *)

Definition is_stop (s : Stop) : StopTime -> nat -> bool :=
  fun time _ => String.eqb (st_stop_id time) (stop_id s).

Definition add_stop_ids (acc : gset string) (stopTimes : list StopTime) : gset string :=
  foldl (fun acc time => acc ∪ {[ st_stop_id time ]}) acc stopTimes.

Definition directReachable (destination : Stop) (trips : list Trip)
    (stopTimesByTrip : gmap string (list StopTime)) : gset string :=
  foldl (fun acc trip =>
    match stopTimesByTrip !! trip_id trip with
    | None => acc
    | Some stopTimes =>
        match findIndex (is_stop destination) stopTimes with
        | None | Some O => acc
        | Some destIndex => add_stop_ids acc (take destIndex stopTimes)
        end
    end) ∅ trips.

Definition transferReachable (directReachable : gset string) (trips : list Trip)
    (stopTimesByTrip : gmap string (list StopTime)) : gset string :=
  if (0 <? size directReachable)%nat then
    foldl (fun acc trip =>
      match stopTimesByTrip !! trip_id trip with
      | None => acc
      | Some stopTimes =>
          foldl (fun acc i =>
            match stopTimes !! i with
            | Some time =>
                if bool_decide (st_stop_id time ∈ directReachable)
                then add_stop_ids acc (take i stopTimes)
                else acc
            | None => acc
            end) acc (seq 0 (length stopTimes))
      end) ∅ trips
  else ∅.

Definition buildEligibleStopIds (destination : Stop) (trips : list Trip)
    (stopTimesByTrip : gmap string (list StopTime)) : gset string :=
  let direct := directReachable destination trips stopTimesByTrip in
  direct ∪ transferReachable direct trips stopTimesByTrip.

(** ** The planner *)

Definition same_stop_error : string := "Pick two different stops to build a route.".
Definition no_trips_error : string := "No trips found between those stops.".
Definition no_more_departures : string :=
  "No more departures today. Showing the next available trip.".

(** The [closest] record of [pickClosestStopAfterBoard]. *)
Record Closest : Type := mkClosest {
  closest_stopTime : StopTime;
  closest_stop : Stop;
  distanceKm : number }.

Section Planner.
(** The great-circle distance of a stop to a coordinate: sines, cosines and
    a square root on binary64, taken as given. *)
Variable haversineDistanceKm : Stop -> number -> number -> number.

Variable trips : list Trip.
Variable stopTimesByTrip : gmap string (list StopTime).
Variable stopById : gmap string Stop.
Variable routeById : gmap string Route.
Variables origin destination : Stop.
(** [destinationResult?.location ?? null]. *)
Variable destinationLocation : option LatLng.
Variable nowMinutes : number.

Definition pickClosestStopAfterBoard (stopTimes : list StopTime)
    (boardIndex : nat) (boardMinutes : number) : option Closest :=
  match destinationLocation with
  | None => None
  | Some location =>
      foldl (fun closest stopTime =>
        if num_leb (timeToMinutes (arrival_time stopTime)) boardMinutes then closest
        else
          match stopById !! st_stop_id stopTime with
          | None => closest
          | Some stop =>
              let d := haversineDistanceKm stop (lat location) (lng location) in
              match closest with
              | Some c =>
                  if num_ltb d (distanceKm c)
                  then Some (mkClosest stopTime stop d) else closest
              | None => Some (mkClosest stopTime stop d)
              end
          end) None (drop (S boardIndex) stopTimes)
  end.

(** [stopTimes.findIndex((time, index) => index > boardIndex &&
    time.stop_id === destination.stop_id)]. *)
Definition destinationIndex (stopTimes : list StopTime) (boardIndex : nat) : option nat :=
  findIndex (fun time index =>
    (boardIndex <? index)%nat && String.eqb (st_stop_id time) (stop_id destination))
    stopTimes.

(** The variables [alightTime] and [alightStop] after the exact match. *)
Definition exactAlight (stopTimes : list StopTime) (boardIndex : nat)
    (boardTime : StopTime) : option StopTime * option Stop :=
  match destinationIndex stopTimes boardIndex with
  | Some i =>
      match stopTimes !! i with
      | Some candidate =>
          if num_gtb (timeToMinutes (arrival_time candidate))
                     (timeToMinutes (departure_time boardTime))
          then (Some candidate, stopById !! st_stop_id candidate)
          else (None, None)
      | None => (None, None)
      end
  | None => (None, None)
  end.

(** The same variables after the fallback. *)
Definition chooseAlight (stopTimes : list StopTime) (boardIndex : nat)
    (boardTime : StopTime) : option StopTime * option Stop :=
  match exactAlight stopTimes boardIndex boardTime with
  | (Some alightTime, Some alightStop) => (Some alightTime, Some alightStop)
  | exact =>
      match pickClosestStopAfterBoard stopTimes boardIndex
              (timeToMinutes (departure_time boardTime)) with
      | Some closest => (Some (closest_stopTime closest), Some (closest_stop closest))
      | None => exact
      end
  end.

(** The body of the first [trips.forEach]: the candidate a trip pushes. *)
Definition directCandidate (trip : Trip) : option CandidateTrip :=
  match stopTimesByTrip !! trip_id trip with
  | None => None
  | Some stopTimes =>
      match findIndex (is_stop origin) stopTimes with
      | None => None
      | Some boardIndex =>
          match stopTimes !! boardIndex with
          | None => None
          | Some boardTime =>
              match chooseAlight stopTimes boardIndex boardTime with
              | (Some alightTime, Some alightStop) =>
                  if num_geb (stop_sequence boardTime) (stop_sequence alightTime)
                  then None
                  else
                    match stopById !! st_stop_id boardTime with
                    | None => None
                    | Some boardStop =>
                        Some {| trip := trip;
                                route := routeById !! route_id trip;
                                boardStop := boardStop;
                                alightStop := alightStop;
                                boardTime := departure_time boardTime;
                                alightTime := arrival_time alightTime;
                                boardSequence := stop_sequence boardTime;
                                alightSequence := stop_sequence alightTime |}
                    end
              | _ => None
              end
          end
      end
  end.

Definition candidates : list CandidateTrip :=
  flat_map (fun trip => option_list (directCandidate trip)) trips.

Definition createLeg (trip : Trip) (boardTime alightTime : StopTime)
    : option CandidateTrip :=
  match stopById !! st_stop_id boardTime, stopById !! st_stop_id alightTime with
  | Some boardStop, Some alightStop =>
      Some {| trip := trip;
              route := routeById !! route_id trip;
              boardStop := boardStop;
              alightStop := alightStop;
              boardTime := departure_time boardTime;
              alightTime := arrival_time alightTime;
              boardSequence := stop_sequence boardTime;
              alightSequence := stop_sequence alightTime |}
  | _, _ => None
  end.

(** [list = leg2ByStop.get(id) ?? []; list.push(leg2);
    leg2ByStop.set(id, list)]. *)
Definition push_leg2 (m : gmap string (list CandidateTrip)) (id : string)
    (leg2 : CandidateTrip) : gmap string (list CandidateTrip) :=
  <[ id := default [] (m !! id) ++ [leg2] ]> m.

Definition add_leg2s (trip : Trip) (alightTime : StopTime)
    (m : gmap string (list CandidateTrip)) (boardTimes : list StopTime)
    : gmap string (list CandidateTrip) :=
  foldl (fun m boardTime =>
    match createLeg trip boardTime alightTime with
    | None => m
    | Some leg2 => push_leg2 m (st_stop_id boardTime) leg2
    end) m boardTimes.

Definition leg2ByStop : gmap string (list CandidateTrip) :=
  foldl (fun m trip =>
    match stopTimesByTrip !! trip_id trip with
    | None => m
    | Some stopTimes =>
        match findIndex (is_stop destination) stopTimes with
        | None | Some O => m
        | Some destIndex =>
            match stopTimes !! destIndex with
            | None => m
            | Some alightTime => add_leg2s trip alightTime m (take destIndex stopTimes)
            end
        end
    end) ∅ trips.

(** The plans one first leg pushes: the inner [for (const leg2 of
    leg2Options)]. *)
Definition joinLegs (leg1 : CandidateTrip) (leg2Options : list CandidateTrip)
    : list TransferPlan :=
  flat_map (fun leg2 =>
    let layover := minutesBetween (alightTime leg1) (boardTime leg2) in
    if num_ltb layover zero then []
    else
      let totalMinutes := minutesBetween (boardTime leg1) (alightTime leg2) in
      if num_ltb totalMinutes zero then []
      else [ {| firstLeg := leg1;
                secondLeg := leg2;
                transferStop := alightStop leg1;
                layoverMinutes := layover;
                totalMinutes := totalMinutes |} ]) leg2Options.

(** The body of the last [trips.forEach]. *)
Definition transferPlansOfTrip (trip : Trip) : list TransferPlan :=
  match stopTimesByTrip !! trip_id trip with
  | None => []
  | Some stopTimes =>
      match findIndex (is_stop origin) stopTimes with
      | None => []
      | Some originIndex =>
          if (length stopTimes - 1 <=? originIndex)%nat then []
          else
            match stopTimes !! originIndex with
            | None => []
            | Some boardTime =>
                flat_map (fun alightTime =>
                  match createLeg trip boardTime alightTime with
                  | None => []
                  | Some leg1 =>
                      match leg2ByStop !! st_stop_id alightTime with
                      | None => []
                      | Some leg2Options => joinLegs leg1 leg2Options
                      end
                  end) (drop (S originIndex) stopTimes)
            end
      end
  end.

Definition transferPlans : list TransferPlan :=
  flat_map transferPlansOfTrip trips.

Definition byBoardTime (a b : CandidateTrip) : number :=
  num_sub (timeToMinutes (boardTime a)) (timeToMinutes (boardTime b)).

Definition byBoardTimeThenTotal (a b : TransferPlan) : number :=
  let timeDiff :=
    num_sub (timeToMinutes (boardTime (firstLeg a)))
            (timeToMinutes (boardTime (firstLeg b))) in
  if negb (num_eqb timeDiff zero) then timeDiff
  else num_sub (totalMinutes a) (totalMinutes b).

Definition isUpcoming (candidate : CandidateTrip) : bool :=
  num_geb (timeToMinutes (boardTime candidate)) nowMinutes.

(** [planResult] once [origin] and [destination] are set. *)
Definition plan : PlanResult :=
  if String.eqb (stop_id origin) (stop_id destination)
  then PlanError same_stop_error
  else
    match js_sort byBoardTime candidates with
    | first :: rest =>
        match List.filter isUpcoming (first :: rest) with
        | [] => PlanDirect first rest (Some no_more_departures)
        | nextTrip :: alternatives => PlanDirect nextTrip alternatives None
        end
    | [] =>
        match js_sort byBoardTimeThenTotal transferPlans with
        | [] => PlanError no_trips_error
        | first :: rest =>
            match List.filter (fun candidate => isUpcoming (firstLeg candidate))
                    (first :: rest) with
            | [] => PlanTransfer first rest (Some no_more_departures)
            | nextTransfer :: alternatives =>
                PlanTransfer nextTransfer alternatives None
            end
        end
    end.
End Planner.

(** [planResult]: [null] until both stops are chosen. *)
Definition planResult (haversineDistanceKm : Stop -> number -> number -> number)
    (trips : list Trip) (stopTimesByTrip : gmap string (list StopTime))
    (stopById : gmap string Stop) (routeById : gmap string Route)
    (origin destination : option Stop) (destinationLocation : option LatLng)
    (nowMinutes : number) : option PlanResult :=
  match origin, destination with
  | Some origin, Some destination =>
      Some (plan haversineDistanceKm trips stopTimesByTrip stopById routeById
              origin destination destinationLocation nowMinutes)
  | _, _ => None
  end.

(** The itineraries a result shows, the next one first. *)
Definition directsOf (r : PlanResult) : list CandidateTrip :=
  match r with
  | PlanDirect nextTrip alternatives _ => nextTrip :: alternatives
  | _ => []
  end.

Definition transfersOf (r : PlanResult) : list TransferPlan :=
  match r with
  | PlanTransfer nextTransfer alternatives _ => nextTransfer :: alternatives
  | _ => []
  end.

(** ** Orders and feed conditions used in the statements *)

Definition stopTimesOf (stopTimesByTrip : gmap string (list StopTime))
    (t : Trip) : list StopTime :=
  default [] (stopTimesByTrip !! trip_id t).

(** Every arrival and departure time of the trips converts to a finite
    number of minutes. *)
Definition finiteTimes (trips : list Trip)
    (stopTimesByTrip : gmap string (list StopTime)) : bool :=
  forallb (fun t =>
    forallb (fun time =>
      isFinite (timeToMinutes (arrival_time time)) &&
      isFinite (timeToMinutes (departure_time time)))
      (stopTimesOf stopTimesByTrip t)) trips.

(** Ascending by boarding time. *)
Definition boardsNoLater (a b : CandidateTrip) : Prop :=
  num_leb (timeToMinutes (boardTime a)) (timeToMinutes (boardTime b)) = true.

(** The lexicographic order on pairs of numbers, and the comparator that
    sorts by it. *)
Definition lex_le (a1 a2 b1 b2 : number) : Prop :=
  num_ltb a1 b1 = true \/ (num_eqb a1 b1 = true /\ num_leb a2 b2 = true).

Definition lex_cmp (a1 a2 b1 b2 : number) : number :=
  let d := num_sub a1 b1 in
  if negb (num_eqb d zero) then d else num_sub a2 b2.

(** Ascending by first-leg boarding time, then by total minutes. *)
Definition transferNoLater (a b : TransferPlan) : Prop :=
  lex_le (timeToMinutes (boardTime (firstLeg a))) (totalMinutes a)
         (timeToMinutes (boardTime (firstLeg b))) (totalMinutes b).

(** The entries the second [trips.forEach] pushes into [leg2ByStop], in the
    order it pushes them: the key of the bucket and the leg. *)
Definition leg2EntriesOfTrip (stopTimesByTrip : gmap string (list StopTime))
    (stopById : gmap string Stop) (routeById : gmap string Route)
    (destination : Stop) (t : Trip) : list (string * CandidateTrip) :=
  match stopTimesByTrip !! trip_id t with
  | None => []
  | Some stopTimes =>
      match findIndex (is_stop destination) stopTimes with
      | None | Some O => []
      | Some destIndex =>
          match stopTimes !! destIndex with
          | None => []
          | Some alightTime =>
              flat_map (fun boardTime =>
                match createLeg stopById routeById t boardTime alightTime with
                | None => []
                | Some leg2 => [(st_stop_id boardTime, leg2)]
                end) (take destIndex stopTimes)
          end
      end
  end.

Definition leg2Entries (trips : list Trip)
    (stopTimesByTrip : gmap string (list StopTime))
    (stopById : gmap string Stop) (routeById : gmap string Route)
    (destination : Stop) : list (string * CandidateTrip) :=
  flat_map (leg2EntriesOfTrip stopTimesByTrip stopById routeById destination) trips.

(** The legs pushed under one key. *)
Definition bucket (id : string) (entries : list (string * CandidateTrip))
    : list CandidateTrip :=
  map snd (List.filter (fun e => String.eqb (fst e) id) entries).

Definition push_all (m : gmap string (list CandidateTrip))
    (entries : list (string * CandidateTrip)) : gmap string (list CandidateTrip) :=
  foldl (fun m e => push_leg2 m (fst e) (snd e)) m entries.

(** The two keys a pairing is sorted by can be compared: the boarding time
    is finite and the total is not [NaN]. *)
Definition comparableKeys (p : TransferPlan) : Prop :=
  isFinite (timeToMinutes (boardTime (firstLeg p))) = true /\
  isNaN (totalMinutes p) = false.

(** ** Reachability, in words *)

(** On trip [t], the stop [x] is called at before the first call at the
    destination. *)
Definition tripPrecedesFirstCall (destination : Stop)
    (stopTimesByTrip : gmap string (list StopTime)) (t : Trip) (x : string) : Prop :=
  exists stopTimes destIndex j time,
    stopTimesByTrip !! trip_id t = Some stopTimes /\
    findIndex (is_stop destination) stopTimes = Some destIndex /\
    (j < destIndex)%nat /\
    stopTimes !! j = Some time /\ st_stop_id time = x.

Definition precedesFirstCall (destination : Stop) (trips : list Trip)
    (stopTimesByTrip : gmap string (list StopTime)) (x : string) : Prop :=
  exists t, In t trips /\ tripPrecedesFirstCall destination stopTimesByTrip t x.

(** On trip [t], the stop [x] is called at before a call at a stop of [P]. *)
Definition tripPrecedesOneOf (P : string -> Prop)
    (stopTimesByTrip : gmap string (list StopTime)) (t : Trip) (x : string) : Prop :=
  exists stopTimes i j time_i time_j,
    stopTimesByTrip !! trip_id t = Some stopTimes /\
    stopTimes !! i = Some time_i /\ P (st_stop_id time_i) /\
    (j < i)%nat /\
    stopTimes !! j = Some time_j /\ st_stop_id time_j = x.

Definition precedesOneOf (P : string -> Prop) (trips : list Trip)
    (stopTimesByTrip : gmap string (list StopTime)) (x : string) : Prop :=
  exists t, In t trips /\ tripPrecedesOneOf P stopTimesByTrip t x.

(** The direct set as the claim words it: the stop [x] is called at
    strictly before an occurrence of the destination at an index above 0, on
    some trip. *)
Definition precedesAnOccurrence (destination : Stop) (trips : list Trip)
    (stopTimesByTrip : gmap string (list StopTime)) (x : string) : Prop :=
  exists t stopTimes k j time_k time_j,
    In t trips /\
    stopTimesByTrip !! trip_id t = Some stopTimes /\
    (0 < k)%nat /\
    stopTimes !! k = Some time_k /\ st_stop_id time_k = stop_id destination /\
    (j < k)%nat /\
    stopTimes !! j = Some time_j /\ st_stop_id time_j = x.

(** ** Nearest stops *)

(** What [findNearestStop] returns. *)
Record Nearest : Type := mkNearest {
  nearest_stop : Stop;
  nearest_distanceKm : number }.

Section NearestStop.
Variable haversineDistanceKm : Stop -> number -> number -> number.

(** [findNearestStop]. On an empty array [stops[0]] is [undefined] and
    reading its latitude throws: that is [None]. The loop visits every stop,
    the first one again. *)
Definition findNearestStop (stops : list Stop) (lat lon : number) : option Nearest :=
  match stops with
  | [] => None
  | first :: _ =>
      Some (foldl (fun acc stop =>
              let distance := haversineDistanceKm stop lat lon in
              if num_ltb distance (nearest_distanceKm acc)
              then mkNearest stop distance else acc)
              (mkNearest first (haversineDistanceKm first lat lon)) stops)
  end.

(** [pickNearestStop]; [None] is [null]. *)
Definition pickNearestStop (primary fallback : list Stop) (lat lon : number)
    : option Nearest :=
  match primary, fallback with
  | _ :: _, _ => findNearestStop primary lat lon
  | [], _ :: _ => findNearestStop fallback lat lon
  | [], [] => None
  end.

(** The memo [eligibleStopsForDestination]. *)
Definition eligibleStopsForDestination (stops : list Stop)
    (destination : option Stop) (trips : list Trip)
    (stopTimesByTrip : gmap string (list StopTime)) : list Stop :=
  match destination with
  | None => stops
  | Some destination =>
      let eligibleStopIds := buildEligibleStopIds destination trips stopTimesByTrip in
      if (size eligibleStopIds =? 0)%nat then []
      else List.filter (fun stop => bool_decide (stop_id stop ∈ eligibleStopIds)) stops
  end.

(** The origin the effect on [addressResult] sets once a destination is
    chosen: the stop of [pickNearestStop(eligibleStopsForDestination, stops,
    lat, lng)], or [null]. *)
Definition originForAddress (stops : list Stop) (destination : Stop)
    (trips : list Trip) (stopTimesByTrip : gmap string (list StopTime))
    (location : LatLng) : option Stop :=
  nearest_stop <$>
    pickNearestStop
      (eligibleStopsForDestination stops (Some destination) trips stopTimesByTrip)
      stops (lat location) (lng location).
End NearestStop.

(** ** The service area *)

Record Bounds : Type := mkBounds {
  minLat : number;
  maxLat : number;
  minLon : number;
  maxLon : number }.

(** [serviceAreaPadding = 0.05]. *)
Definition serviceAreaPadding : number := fin (1 # 20).

(** The memo [serviceBounds]. *)
Definition serviceBounds (stops : list Stop) : option Bounds :=
  match stops with
  | [] => None
  | _ =>
      let b :=
        foldl (fun b stop =>
          {| minLat := if num_ltb (stop_lat stop) (minLat b)
                       then stop_lat stop else minLat b;
             maxLat := if num_gtb (stop_lat stop) (maxLat b)
                       then stop_lat stop else maxLat b;
             minLon := if num_ltb (stop_lon stop) (minLon b)
                       then stop_lon stop else minLon b;
             maxLon := if num_gtb (stop_lon stop) (maxLon b)
                       then stop_lon stop else maxLon b |})
          {| minLat := Infinity; maxLat := NegInfinity;
             minLon := Infinity; maxLon := NegInfinity |} stops in
      Some {| minLat := num_sub (minLat b) serviceAreaPadding;
              maxLat := num_add (maxLat b) serviceAreaPadding;
              minLon := num_sub (minLon b) serviceAreaPadding;
              maxLon := num_add (maxLon b) serviceAreaPadding |}
  end.

Definition isWithinBounds (lat lon : number) (bounds : option Bounds) : bool :=
  match bounds with
  | None => true
  | Some bounds =>
      num_geb lat (minLat bounds) && num_leb lat (maxLat bounds) &&
      num_geb lon (minLon bounds) && num_leb lon (maxLon bounds)
  end.

(** ** The schedule index *)

(** [grouped] after the [stopTimes.forEach]: the rows of each trip, in feed
    order. *)
Definition groupStopTimes (stopTimes : list StopTime) : gmap string (list StopTime) :=
  foldl (fun grouped stopTime =>
    <[ st_trip_id stopTime :=
         default [] (grouped !! st_trip_id stopTime) ++ [stopTime] ]> grouped)
    ∅ stopTimes.

Definition bySequence (a b : StopTime) : number :=
  num_sub (stop_sequence a) (stop_sequence b).

(** The memo [stopTimesByTrip], from the typed rows: each list of [grouped]
    sorted by stop sequence. *)
Definition buildStopTimesByTrip (stopTimes : list StopTime)
    : gmap string (list StopTime) :=
  js_sort bySequence <$> groupStopTimes stopTimes.

(** [new Map(stops.map((stop) => [stop.stop_id, stop]))]: a later entry
    replaces an earlier one with the same key. *)
Definition buildStopById (stops : list Stop) : gmap string Stop :=
  foldl (fun m stop => <[ stop_id stop := stop ]> m) ∅ stops.

Definition buildRouteById (routes : list Route) : gmap string Route :=
  foldl (fun m route => <[ r_route_id route := route ]> m) ∅ routes.

(** ** The CSV reader *)

(** [value.trim()]. *)
Definition trimString (value : string) : string :=
  string_of_list_ascii (trim (list_ascii_of_string value)).

(** [value.split(/\r?\n/)], a non-empty array, as its first element and
    the others: a line ends at a line feed, or at a carriage return that a
    line feed follows. *)
Fixpoint splitLines (value : string) : string * list string :=
  match value with
  | EmptyString => (EmptyString, [])
  | String c rest =>
      if Ascii.eqb c "010" then
        let (line, lines) := splitLines rest in (EmptyString, line :: lines)
      else
        match rest with
        | String c' rest' =>
            if Ascii.eqb c "013" && Ascii.eqb c' "010" then
              let (line, lines) := splitLines rest' in (EmptyString, line :: lines)
            else
              let (line, lines) := splitLines rest in (String c line, lines)
        | EmptyString => (String c EmptyString, [])
        end
  end.

(** [acc[header] = value] on an object created by [{}], as its own
    properties: the setter of [__proto__] ignores a string. *)
Definition setProperty (acc : gmap string string) (header value : string)
    : gmap string string :=
  if String.eqb header "__proto__" then acc else <[ header := value ]> acc.

(** [headers.reduce((acc, header, index) => { acc[header] = values[index] ??
    ''; return acc }, acc)], from [index] on. *)
Fixpoint reduceHeaders (values : list string) (index : nat)
    (acc : gmap string string) (headers : list string) : gmap string string :=
  match headers with
  | [] => acc
  | header :: headers' =>
      reduceHeaders values (S index)
        (setProperty acc header (default EmptyString (values !! index))) headers'
  end.

(** The constant [headers] of [parseCsv]. *)
Definition csvHeaders (raw : string) : list string :=
  split "," (fst (splitLines (trimString raw))).

(** [lines.filter((line) => line.trim().length > 0)]. *)
Definition csvDataLines (raw : string) : list string :=
  List.filter (fun line => (0 <? String.length (trimString line))%nat)
    (snd (splitLines (trimString raw))).

Definition parseCsv (raw : string) : list (gmap string string) :=
  map (fun line => reduceHeaders (split "," line) 0 ∅ (csvHeaders raw))
      (csvDataLines raw).

(** The rows of one trip, in feed order. *)
Definition rowsOfTrip (id : string) (stopTimes : list StopTime) : list StopTime :=
  List.filter (fun stopTime => String.eqb (st_trip_id stopTime) id) stopTimes.

(** The last stop listed under an id. *)
Definition lastListed (id : string) (stops : list Stop) : option Stop :=
  List.find (fun stop => String.eqb (stop_id stop) id) (rev stops).

Definition sequenceNoLater (a b : StopTime) : Prop :=
  num_leb (stop_sequence a) (stop_sequence b) = true.

(** A leg made of two rows of the feed that belong to its trip, between two
    listed stops. *)
Definition legFromFeed (stopTimes : list StopTime) (stops : list Stop)
    (c : CandidateTrip) : Prop :=
  In (boardStop c) stops /\ In (alightStop c) stops /\
  exists board alight,
    In board stopTimes /\ In alight stopTimes /\
    st_trip_id board = trip_id (trip c) /\
    st_trip_id alight = trip_id (trip c) /\
    st_stop_id board = stop_id (boardStop c) /\
    st_stop_id alight = stop_id (alightStop c) /\
    boardTime c = departure_time board /\
    alightTime c = arrival_time alight /\
    boardSequence c = stop_sequence board /\
    alightSequence c = stop_sequence alight.

(** A stop-time the proximity scan can pick: it does not arrive at or
    before the boarding minute and its stop is known. *)
Definition scannable (stopById : gmap string Stop) (boardMinutes : number)
    (stopTime : StopTime) (stop : Stop) : Prop :=
  num_leb (timeToMinutes (arrival_time stopTime)) boardMinutes = false /\
  stopById !! st_stop_id stopTime = Some stop.

(** ** The shape of an itinerary *)


(** The two legs of a pairing meet at the transfer stop, the first leg
    boards at the stop known under the origin's id and the second leg alights
    at the stop known under the destination's id. *)
Definition legsMeet (stopById : gmap string Stop) (origin destination : Stop)
    (p : TransferPlan) : Prop :=
  alightStop (firstLeg p) = transferStop p /\
  boardStop (secondLeg p) = transferStop p /\
  stopById !! stop_id origin = Some (boardStop (firstLeg p)) /\
  stopById !! stop_id destination = Some (alightStop (secondLeg p)).

(** ** Sample feeds *)

Module Sample.

Definition stopNamed (id : string) : Stop :=
  {| stop_id := id; stop_code := id; stop_name := id;
     stop_lat := zero; stop_lon := zero |}.

Definition stopAt (id : string) (lat lon : Q) : Stop :=
  {| stop_id := id; stop_code := id; stop_name := id;
     stop_lat := fin lat; stop_lon := fin lon |}.

Definition tripNamed (id : string) : Trip :=
  {| trip_id := id; route_id := "route"; trip_headsign := ""; trip_short_name := "" |}.

(** A stop-time row whose arrival and departure coincide. *)
Definition call (trip stop time : string) (sequence : Q) : StopTime :=
  {| st_trip_id := trip; arrival_time := time; departure_time := time;
     st_stop_id := stop; stop_sequence := fin sequence |}.

(** A stop table of three columns whose only line has two values. *)
Definition stopsCsv : string :=
  "stop_id,stop_name,stop_lat" ++ String "010" ("A,Main" ++ String "010" "").

Definition stopA : Stop := stopNamed "A".
Definition stopB : Stop := stopNamed "B".
Definition stopT : Stop := stopNamed "T".
Definition stopById : gmap string Stop :=
  list_to_map [("A", stopA); ("B", stopB); ("T", stopT)].
Definition routeById : gmap string Route := ∅.

(** A stand-in for the great-circle distance where a sample needs one: the
    squared planar distance. *)
Definition flatDistance (a : Stop) (lat lon : number) : number :=
  let dLat := num_sub lat (stop_lat a) in
  let dLon := num_sub lon (stop_lon a) in
  num_add (num_mul dLat dLat) (num_mul dLon dLon).

(** Two trips that meet at T: A 08:00 -> T 08:20, then T 08:30 -> B 08:45. *)
Definition trip1 : Trip := tripNamed "trip1".
Definition trip2 : Trip := tripNamed "trip2".
Definition transferFeed : gmap string (list StopTime) :=
  list_to_map
    [("trip1", [call "trip1" "A" "08:00:00" 1; call "trip1" "T" "08:20:00" 2]);
     ("trip2", [call "trip2" "T" "08:30:00" 1; call "trip2" "B" "08:45:00" 2])].

Definition transferLeg1 : CandidateTrip :=
  {| trip := trip1; route := None; boardStop := stopA; alightStop := stopT;
     boardTime := "08:00:00"; alightTime := "08:20:00";
     boardSequence := Fin 1; alightSequence := Fin 2 |}.
Definition transferLeg2 : CandidateTrip :=
  {| trip := trip2; route := None; boardStop := stopT; alightStop := stopB;
     boardTime := "08:30:00"; alightTime := "08:45:00";
     boardSequence := Fin 1; alightSequence := Fin 2 |}.

(** Two trips that share no stop. *)
Definition disjointFeed : gmap string (list StopTime) :=
  list_to_map
    [("trip1", [call "trip1" "A" "08:00:00" 1; call "trip1" "T" "08:20:00" 2]);
     ("trip2", [call "trip2" "C" "08:30:00" 1; call "trip2" "B" "08:45:00" 2])].

(** One trip whose three calls fall in the same minute. *)
Definition sameMinuteFeed : gmap string (list StopTime) :=
  list_to_map
    [("trip1", [call "trip1" "A" "08:00:00" 1; call "trip1" "T" "08:00:00" 2;
                call "trip1" "B" "08:00:00" 3])].

(** A trip past midnight whose feed wraps the clock instead of counting on
    from 24:00:00: A 23:55, C 23:58, B 00:05, with the stops on a line and the
    destination address at B. *)
Definition lineA : Stop := stopAt "A" 0 0.
Definition lineC : Stop := stopAt "C" 1 0.
Definition lineB : Stop := stopAt "B" 2 0.
Definition lineStops : gmap string Stop :=
  list_to_map [("A", lineA); ("C", lineC); ("B", lineB)].
Definition nearB : LatLng := {| lat := Fin 2; lng := Fin 0 |}.
Definition overnightCalls : list StopTime :=
  [call "trip1" "A" "23:55:00" 1; call "trip1" "C" "23:58:00" 2;
   call "trip1" "B" "00:05:00" 3].
Definition overnightFeed : gmap string (list StopTime) :=
  list_to_map [("trip1", overnightCalls)].

(** Two direct trips from A to B, at 08:00 and at 09:00. *)
Definition directFeed : gmap string (list StopTime) :=
  list_to_map
    [("trip1", [call "trip1" "A" "08:00:00" 1; call "trip1" "B" "08:10:00" 2]);
     ("trip2", [call "trip2" "A" "09:00:00" 1; call "trip2" "B" "09:10:00" 2])].

Definition stopD : Stop := stopNamed "D".

(** A loop and a line: trip1 leaves D, calls at A and comes back to D;
    trip2 runs from E to D. The three stops lie on one line, A then E then
    D, and the address is at A. *)
Definition loopA : Stop := stopAt "A" 0 0.
Definition loopE : Stop := stopAt "E" 5 0.
Definition loopD : Stop := stopAt "D" 9 0.
Definition loopStops : list Stop := [loopA; loopE; loopD].
Definition loopRows : list StopTime :=
  [call "trip1" "D" "08:00:00" 1; call "trip1" "A" "08:10:00" 2;
   call "trip1" "D" "08:20:00" 3;
   call "trip2" "E" "08:00:00" 1; call "trip2" "D" "08:30:00" 2].
Definition atA : LatLng := {| lat := Fin 0; lng := Fin 0 |}.

(** X then Y on one trip, Y then D on another. *)
Definition chainFeed : gmap string (list StopTime) :=
  list_to_map
    [("trip1", [call "trip1" "X" "08:00:00" 1; call "trip1" "Y" "08:10:00" 2]);
     ("trip2", [call "trip2" "Y" "08:20:00" 1; call "trip2" "D" "08:30:00" 2])].

(** One first leg A 08:00 -> T 08:20 and two second legs from T: trip3
    leaves at 08:25 and reaches B at 08:55, trip2 leaves at 08:30 and reaches
    B at 08:45. *)
Definition trip3 : Trip := tripNamed "trip3".
Definition tieFeed : gmap string (list StopTime) :=
  list_to_map
    [("trip1", [call "trip1" "A" "08:00:00" 1; call "trip1" "T" "08:20:00" 2]);
     ("trip3", [call "trip3" "T" "08:25:00" 1; call "trip3" "B" "08:55:00" 2]);
     ("trip2", [call "trip2" "T" "08:30:00" 1; call "trip2" "B" "08:45:00" 2])].

End Sample.

(** * Properties *)

(** ** Rounding to binary64 *)

Section Binary64Facts.
Local Open Scope Q_scope.

Lemma pow2_pos (e : Z) : 0 < pow2 e.
Proof. apply Qpower_0_lt. reflexivity. Qed.

Lemma pow2_add (a b : Z) : pow2 (a + b) == pow2 a * pow2 b.
Proof. apply Qpower_plus. discriminate. Qed.

Lemma pow2_le (a b : Z) : (a <= b)%Z -> pow2 a <= pow2 b.
Proof. intros H. apply Qpower_le_compat_l; [exact H|discriminate]. Qed.

Lemma pow2_lt (a b : Z) : (a < b)%Z -> pow2 a < pow2 b.
Proof. intros H. apply Qpower_lt_compat_l; [exact H|reflexivity]. Qed.

Lemma pow2_lt_inv (a b : Z) : pow2 a < pow2 b -> (a < b)%Z.
Proof. intros H. apply (Qpower_lt_compat_l_inv 2); [exact H|reflexivity]. Qed.

Lemma pow2_Z (n : Z) : (0 <= n)%Z -> pow2 n == inject_Z (2 ^ n).
Proof. intros H. unfold pow2. now rewrite Zpower_Qpower. Qed.

Lemma pow2_succ (e : Z) : pow2 (e + 1) == 2 * pow2 e.
Proof. rewrite pow2_add. change (pow2 1) with 2. ring. Qed.

Lemma pow2_div (a b : Z) : pow2 a / pow2 b == pow2 (a - b).
Proof.
  unfold Z.sub. rewrite pow2_add. unfold pow2 at 4. rewrite Qpower_opp.
  reflexivity.
Qed.

Lemma Qmake_mult_den (n : Z) (d : positive) : (n # d) * inject_Z (Zpos d) == inject_Z n.
Proof. rewrite (Qmake_Qdiv n d). field. discriminate. Qed.

Lemma ilog2_bracket (n : Z) (d : positive) :
  (0 < n)%Z ->
  let k := (Z.log2 n - Z.log2 (Zpos d))%Z in
  pow2 (k - 1) <= n # d /\ n # d < pow2 (k + 1).
Proof.
  intros Hn.
  set (a := Z.log2 n). set (b := Z.log2 (Zpos d)). cbv zeta.
  destruct (Z.log2_spec n Hn) as [Ha1 Ha2].
  destruct (Z.log2_spec (Zpos d) eq_refl) as [Hb1 Hb2].
  fold a in Ha1, Ha2. fold b in Hb1, Hb2.
  assert (0 <= a)%Z as Ha0 by apply Z.log2_nonneg.
  assert (0 <= b)%Z as Hb0 by apply Z.log2_nonneg.
  rewrite Z.pow_succ_r in Ha2, Hb2 by assumption.
  rewrite Zle_Qle in Ha1, Hb1. rewrite Zlt_Qlt in Ha2, Hb2.
  rewrite inject_Z_mult in Ha2, Hb2.
  rewrite <- pow2_Z in Ha1, Ha2, Hb1, Hb2 by assumption.
  change (inject_Z 2) with 2 in Ha2, Hb2.
  pose proof (Qmake_mult_den n d) as Hq'.
  pose proof (pow2_add (a - b) b) as Hk.
  replace (a - b + b)%Z with a in Hk by ring.
  pose proof (pow2_succ (a - b)) as Hk1.
  pose proof (pow2_succ (a - b - 1)) as Hk2.
  replace (a - b - 1 + 1)%Z with (a - b)%Z in Hk2 by ring.
  pose proof (pow2_pos (a - b)) as Hp. pose proof (pow2_pos b) as Hpb.
  pose proof (pow2_pos (a - b - 1)) as Hp'.
  set (q := n # d) in *.
  remember (pow2 (a - b + 1)) as pk1 eqn:E1. remember (pow2 (a - b - 1)) as pk' eqn:E2.
  remember (pow2 (a - b)) as pk eqn:E3. remember (pow2 a) as pa eqn:E4.
  remember (pow2 b) as pb eqn:E5. remember (inject_Z n) as qn eqn:E6.
  remember (inject_Z (Zpos d)) as qd eqn:E7.
  clear E1 E2 E3 E4 E5 E6 E7.
  assert (0 < qd) as Hqd by lra.
  split.
  - apply (proj1 (Qmult_le_r pk' q qd Hqd)). rewrite Hq'. nra.
  - apply (Qmult_lt_r _ _ qd Hqd). rewrite Hq'. nra.
Qed.

(** [ilog2] is the floor of the binary logarithm. *)
Lemma ilog2_spec (q : Q) : 0 < q -> pow2 (ilog2 q) <= q /\ q < pow2 (ilog2 q + 1).
Proof.
  intros Hq. destruct q as [n d].
  assert (0 < n)%Z as Hn by (unfold Qlt in Hq; simpl in Hq; lia).
  destruct (ilog2_bracket n d Hn) as [Hlow Hup].
  unfold ilog2. cbv zeta. cbn [Qnum Qden].
  destruct (Qle_bool _ _) eqn:E.
  - apply Qle_bool_iff in E. split; [exact E|exact Hup].
  - split; [exact Hlow|].
    replace (Z.log2 n - Z.log2 (Zpos d) - 1 + 1)%Z
      with (Z.log2 n - Z.log2 (Zpos d))%Z by ring.
    apply Qnot_le_lt. intros H. apply Qle_bool_iff in H. congruence.
Qed.

Lemma ilog2_unique (q : Q) (k : Z) :
  pow2 k <= q -> q < pow2 (k + 1) -> ilog2 q = k.
Proof.
  intros H1 H2.
  assert (0 < q) as Hq by (pose proof (pow2_pos k); lra).
  destruct (ilog2_spec q Hq) as [H3 H4].
  assert (ilog2 q < k + 1)%Z by (apply pow2_lt_inv; lra).
  assert (k < ilog2 q + 1)%Z by (apply pow2_lt_inv; lra).
  lia.
Qed.

Lemma ilog2_comp (x y : Q) : 0 < x -> x == y -> ilog2 x = ilog2 y.
Proof.
  intros Hx Hxy. destruct (ilog2_spec x Hx) as [H1 H2].
  symmetry. apply ilog2_unique; lra.
Qed.

Lemma ilog2_mono (x y : Q) : 0 < x -> x <= y -> (ilog2 x <= ilog2 y)%Z.
Proof.
  intros Hx Hxy.
  destruct (ilog2_spec x Hx) as [H1 _].
  destruct (ilog2_spec y) as [_ H2]; [lra|].
  assert (ilog2 x < ilog2 y + 1)%Z by (apply pow2_lt_inv; lra).
  lia.
Qed.

(** ** Rounding to an integer, ties to even *)

Lemma rne_comp (x y : Q) : x == y -> rne x = rne y.
Proof.
  intros H. unfold rne. rewrite (Qfloor_comp x y H).
  assert ((x - inject_Z (Qfloor y) ?= 1 # 2) = (y - inject_Z (Qfloor y) ?= 1 # 2)) as ->.
  { apply Qcompare_comp; [now rewrite H|reflexivity]. }
  reflexivity.
Qed.

Lemma rne_Z (z : Z) : rne (inject_Z z) = z.
Proof.
  unfold rne. rewrite Qfloor_Z.
  assert (inject_Z z - inject_Z z == 0) as E by ring.
  now rewrite E.
Qed.

Lemma rne_floor (x : Q) : (Qfloor x <= rne x <= Qfloor x + 1)%Z.
Proof.
  unfold rne. destruct (_ ?= _); [destruct (Z.even _)| |]; lia.
Qed.

Lemma rne_mono (x y : Q) : x <= y -> (rne x <= rne y)%Z.
Proof.
  intros H. pose proof (Qfloor_resp_le x y H) as Hf.
  pose proof (rne_floor x) as Hx. pose proof (rne_floor y) as Hy.
  destruct (Z.eq_dec (Qfloor x) (Qfloor y)) as [E|E]; [|lia].
  unfold rne in *. rewrite E in *.
  destruct (Qcompare_spec (x - inject_Z (Qfloor y)) (1 # 2)),
           (Qcompare_spec (y - inject_Z (Qfloor y)) (1 # 2));
    try lia; try (exfalso; lra); destruct (Z.even (Qfloor y)); lia.
Qed.

Lemma rne_nonneg (x : Q) : 0 <= x -> (0 <= rne x)%Z.
Proof. intros H. rewrite <- (rne_Z 0). now apply rne_mono. Qed.

(** ** Rounding a positive rational *)

Lemma ulp_exponent_comp (x y : Q) : 0 < x -> x == y -> ulp_exponent x = ulp_exponent y.
Proof. intros Hx H. unfold ulp_exponent. now rewrite (ilog2_comp x y Hx H). Qed.

Lemma ulp_exponent_mono (x y : Q) : 0 < x -> x <= y -> (ulp_exponent x <= ulp_exponent y)%Z.
Proof.
  intros Hx H. unfold ulp_exponent. pose proof (ilog2_mono x y Hx H). lia.
Qed.

Lemma ulp_exponent_min (x : Q) : (emin <= ulp_exponent x)%Z.
Proof. unfold ulp_exponent. lia. Qed.

(** Below the next binade: the scaled value is below [2^53]. *)
Lemma scaled_lt (x : Q) : 0 < x -> x / pow2 (ulp_exponent x) < pow2 53.
Proof.
  intros Hx. destruct (ilog2_spec x Hx) as [_ H].
  apply Qlt_shift_div_r; [apply pow2_pos|].
  rewrite <- pow2_add.
  eapply Qlt_le_trans; [exact H|]. apply pow2_le.
  unfold ulp_exponent. lia.
Qed.

(** Above the subnormal range the scaled value is at least [2^52]. *)
Lemma scaled_ge (x : Q) :
  0 < x -> (emin < ulp_exponent x)%Z -> pow2 52 <= x / pow2 (ulp_exponent x).
Proof.
  intros Hx He. destruct (ilog2_spec x Hx) as [H _].
  apply Qle_shift_div_l; [apply pow2_pos|].
  rewrite <- pow2_add.
  eapply Qle_trans; [|exact H]. apply pow2_le.
  unfold ulp_exponent in *. lia.
Qed.

Lemma rnd_pos_comp (x y : Q) : 0 < x -> x == y -> rnd_pos x == rnd_pos y.
Proof.
  intros Hx H. unfold rnd_pos. rewrite (ulp_exponent_comp x y Hx H).
  rewrite (rne_comp (x / pow2 (ulp_exponent y)) (y / pow2 (ulp_exponent y))).
  - reflexivity.
  - now rewrite H.
Qed.

Lemma rnd_pos_nonneg (x : Q) : 0 < x -> 0 <= rnd_pos x.
Proof.
  intros Hx. unfold rnd_pos. apply Qmult_le_0_compat.
  - change 0 with (inject_Z 0). rewrite <- Zle_Qle. apply rne_nonneg.
    apply Qle_shift_div_l; [apply pow2_pos|]. lra.
  - apply Qlt_le_weak, pow2_pos.
Qed.

Lemma rnd_pos_mono (x y : Q) : 0 < x -> x <= y -> rnd_pos x <= rnd_pos y.
Proof.
  intros Hx H. assert (0 < y) as Hy by lra.
  pose proof (ulp_exponent_mono x y Hx H) as He.
  unfold rnd_pos.
  set (ex := ulp_exponent x) in *. set (ey := ulp_exponent y) in *.
  pose proof (pow2_pos ex) as Hpx. pose proof (pow2_pos ey) as Hpy.
  destruct (Z.eq_dec ex ey) as [E|E].
  - rewrite <- E. apply Qmult_le_compat_r; [|lra].
    rewrite <- Zle_Qle. apply rne_mono.
    apply Qmult_le_compat_r; [exact H|]. apply Qlt_le_weak, Qinv_lt_0_compat, Hpx.
  - assert (ex < ey)%Z as Hlt by lia.
    assert (inject_Z (rne (x / pow2 ex)) <= pow2 53) as H1.
    { rewrite (pow2_Z 53) by lia. rewrite <- Zle_Qle.
      rewrite <- (rne_Z (2 ^ 53)%Z). apply rne_mono.
      rewrite <- (pow2_Z 53) by lia. apply Qlt_le_weak, scaled_lt, Hx. }
    assert (pow2 52 <= inject_Z (rne (y / pow2 ey))) as H2.
    { rewrite (pow2_Z 52) by lia. rewrite <- Zle_Qle.
      rewrite <- (rne_Z (2 ^ 52)%Z). apply rne_mono.
      rewrite <- (pow2_Z 52) by lia. apply scaled_ge; [exact Hy|].
      pose proof (ulp_exponent_min x). fold ex in H0. fold ey. lia. }
    assert (pow2 53 * pow2 ex <= pow2 52 * pow2 ey) as H3.
    { rewrite <- !pow2_add. apply pow2_le. lia. }
    apply Qle_trans with (pow2 53 * pow2 ex).
    + apply Qmult_le_compat_r; [exact H1|lra].
    + apply Qle_trans with (pow2 52 * pow2 ey); [exact H3|].
      apply Qmult_le_compat_r; [exact H2|lra].
Qed.

Lemma pow2_shift (m : Z) (e e' : Z) :
  (e' <= e)%Z ->
  inject_Z m * pow2 e / pow2 e' == inject_Z (m * 2 ^ (e - e')).
Proof.
  intros H. rewrite inject_Z_mult, <- pow2_Z by lia.
  rewrite <- pow2_div. field.
  pose proof (pow2_pos e'). lra.
Qed.

(** A value with at most 53 significant bits, not below the subnormal
    grid, is rounded to itself. *)
Lemma rnd_pos_exact (m e : Z) :
  (0 < m <= 2 ^ 53)%Z -> (emin <= e)%Z ->
  rnd_pos (inject_Z m * pow2 e) == inject_Z m * pow2 e.
Proof.
  intros [Hm0 Hm] He.
  set (v := inject_Z m * pow2 e).
  assert (0 < v) as Hv.
  { apply Qmult_lt_0_compat; [|apply pow2_pos].
    change 0 with (inject_Z 0). now rewrite <- Zlt_Qlt. }
  assert (exists z, v / pow2 (ulp_exponent v) == inject_Z z) as [z Hz].
  { destruct (Z.eq_dec m (2 ^ 53)%Z) as [->|Hne].
    - assert (v == pow2 (53 + e)) as Hv'.
      { unfold v. rewrite <- pow2_Z by lia. now rewrite pow2_add. }
      assert (ilog2 v = (53 + e)%Z) as Hi.
      { apply ilog2_unique; rewrite Hv'; [lra|]. apply pow2_lt. lia. }
      assert (ulp_exponent v = (e + 1)%Z) as ->.
      { unfold ulp_exponent. rewrite Hi. lia. }
      exists (2 ^ 52)%Z. rewrite Hv', pow2_div, <- pow2_Z by lia.
      now replace (53 + e - (e + 1))%Z with 52%Z by ring.
    - assert (ulp_exponent v <= e)%Z as Hle.
      { destruct (ilog2_spec v Hv) as [H1 _].
        assert (v < pow2 (53 + e)) as H2.
        { unfold v. rewrite pow2_add. apply Qmult_lt_compat_r; [apply pow2_pos|].
          rewrite pow2_Z by lia. rewrite <- Zlt_Qlt. lia. }
        assert (ilog2 v < 53 + e)%Z by (apply pow2_lt_inv; lra).
        unfold ulp_exponent. lia. }
      exists (m * 2 ^ (e - ulp_exponent v))%Z. now apply pow2_shift. }
  unfold rnd_pos. fold v. rewrite (rne_comp _ _ Hz), rne_Z, <- Hz.
  field. pose proof (pow2_pos (ulp_exponent v)). lra.
Qed.

(** What rounding returns: at most 53 significant bits on the grid of its
    binade. *)
Lemma rnd_pos_form (x : Q) :
  0 < x ->
  exists m e, rnd_pos x = inject_Z m * pow2 e /\ (0 <= m <= 2 ^ 53)%Z /\ (emin <= e)%Z.
Proof.
  intros Hx. exists (rne (x / pow2 (ulp_exponent x))), (ulp_exponent x).
  split; [reflexivity|]. split; [|apply ulp_exponent_min]. split.
  - apply rne_nonneg. apply Qle_shift_div_l; [apply pow2_pos|]. lra.
  - rewrite <- (rne_Z (2 ^ 53)%Z). apply rne_mono.
    rewrite <- (pow2_Z 53) by lia. apply Qlt_le_weak, scaled_lt, Hx.
Qed.

(** ** Rounding *)

Lemma rnd_0 : rnd 0 = 0.
Proof. reflexivity. Qed.

Lemma rnd_pos_eq (x : Q) : 0 < x -> rnd x = Qred (rnd_pos x).
Proof.
  intros H. unfold rnd.
  destruct (Qcompare_spec x 0); [exfalso; lra|exfalso; lra|reflexivity].
Qed.

Lemma rnd_neg_eq (x : Q) : x < 0 -> rnd x = Qred (- rnd_pos (- x)).
Proof.
  intros H. unfold rnd.
  destruct (Qcompare_spec x 0); [exfalso; lra|reflexivity|exfalso; lra].
Qed.

Lemma rnd_zero_eq (x : Q) : x == 0 -> rnd x = 0.
Proof.
  intros H. unfold rnd.
  destruct (Qcompare_spec x 0); [reflexivity|exfalso; lra|exfalso; lra].
Qed.

Lemma rnd_comp (x y : Q) : x == y -> rnd x = rnd y.
Proof.
  intros H. destruct (Q_dec x 0) as [[Hx|Hx]|Hx].
  - rewrite (rnd_neg_eq x Hx), (rnd_neg_eq y) by lra.
    apply Qred_complete. apply Qopp_comp. apply rnd_pos_comp; [lra|].
    now rewrite H.
  - rewrite (rnd_pos_eq x Hx), (rnd_pos_eq y) by lra.
    apply Qred_complete. now apply rnd_pos_comp.
  - rewrite (rnd_zero_eq x Hx), (rnd_zero_eq y); [reflexivity|]. now rewrite <- H.
Qed.

Lemma rnd_canonical (x : Q) : Qred (rnd x) = rnd x.
Proof.
  unfold rnd. destruct (x ?= 0); [reflexivity| |]; apply Qred_complete, Qred_correct.
Qed.

Lemma rnd_eq_of_Qeq (x y : Q) : rnd x == rnd y -> rnd x = rnd y.
Proof.
  intros H. rewrite <- (rnd_canonical x), <- (rnd_canonical y).
  now apply Qred_complete.
Qed.

Lemma rnd_nonneg (x : Q) : 0 <= x -> 0 <= rnd x.
Proof.
  intros H. destruct (Qle_lt_or_eq _ _ H) as [Hx|Hx].
  - rewrite (rnd_pos_eq x Hx), Qred_correct. now apply rnd_pos_nonneg.
  - rewrite (rnd_zero_eq x); [lra|]. now symmetry.
Qed.

Lemma rnd_nonpos (x : Q) : x <= 0 -> rnd x <= 0.
Proof.
  intros H. destruct (Qle_lt_or_eq _ _ H) as [Hx|Hx].
  - rewrite (rnd_neg_eq x Hx), Qred_correct.
    pose proof (rnd_pos_nonneg (- x)). lra.
  - rewrite (rnd_zero_eq x Hx). lra.
Qed.

Lemma rnd_opp (x : Q) : rnd (- x) == - rnd x.
Proof.
  destruct (Q_dec x 0) as [[Hx|Hx]|Hx].
  - rewrite (rnd_neg_eq x Hx), (rnd_pos_eq (- x)) by lra.
    rewrite !Qred_correct. ring.
  - rewrite (rnd_pos_eq x Hx), (rnd_neg_eq (- x)) by lra.
    rewrite !Qred_correct.
    rewrite (rnd_pos_comp (- - x) x); [reflexivity|lra|ring].
  - rewrite (rnd_zero_eq x Hx), (rnd_zero_eq (- x)); [reflexivity|lra].
Qed.

Lemma rnd_mono (x y : Q) : x <= y -> rnd x <= rnd y.
Proof.
  intros H. destruct (Qlt_le_dec 0 x) as [Hx|Hx].
  - rewrite (rnd_pos_eq x Hx), (rnd_pos_eq y) by lra.
    rewrite !Qred_correct. now apply rnd_pos_mono.
  - destruct (Qlt_le_dec y 0) as [Hy|Hy].
    + rewrite (rnd_neg_eq y Hy), (rnd_neg_eq x) by lra.
      rewrite !Qred_correct.
      pose proof (rnd_pos_mono (- y) (- x)). lra.
    + pose proof (rnd_nonpos x Hx). pose proof (rnd_nonneg y Hy). lra.
Qed.

Lemma rnd_exact (m e : Z) :
  (Z.abs m <= 2 ^ 53)%Z -> (emin <= e)%Z ->
  rnd (inject_Z m * pow2 e) == inject_Z m * pow2 e.
Proof.
  intros Hm He. pose proof (pow2_pos e) as Hp.
  destruct (Z.lt_trichotomy m 0) as [Hneg|[->|Hpos]].
  - assert (inject_Z m * pow2 e == - (inject_Z (- m) * pow2 e)) as E
      by (rewrite inject_Z_opp; ring).
    rewrite (rnd_comp _ _ E), rnd_opp.
    assert (0 < inject_Z (- m) * pow2 e) as Hv.
    { apply Qmult_lt_0_compat; [|exact Hp].
      change 0 with (inject_Z 0). rewrite <- Zlt_Qlt. lia. }
    rewrite (rnd_pos_eq _ Hv), Qred_correct, rnd_pos_exact by lia.
    rewrite inject_Z_opp. ring.
  - rewrite (rnd_zero_eq (inject_Z 0 * pow2 e)); ring.
  - assert (0 < inject_Z m * pow2 e) as Hv.
    { apply Qmult_lt_0_compat; [|exact Hp].
      change 0 with (inject_Z 0). now rewrite <- Zlt_Qlt. }
    rewrite (rnd_pos_eq _ Hv), Qred_correct. apply rnd_pos_exact; lia.
Qed.

Lemma rnd_form (x : Q) :
  exists m e, rnd x == inject_Z m * pow2 e /\ (Z.abs m <= 2 ^ 53)%Z /\ (emin <= e)%Z.
Proof.
  destruct (Q_dec x 0) as [[Hx|Hx]|Hx].
  - destruct (rnd_pos_form (- x)) as (m & e & E & Hm & He); [lra|].
    exists (- m)%Z, e. rewrite (rnd_neg_eq x Hx), Qred_correct, E, inject_Z_opp.
    split; [ring|]. split; [lia|exact He].
  - destruct (rnd_pos_form x Hx) as (m & e & E & Hm & He).
    exists m, e. rewrite (rnd_pos_eq x Hx), Qred_correct, E.
    split; [reflexivity|]. split; [lia|exact He].
  - exists 0%Z, emin. rewrite (rnd_zero_eq x Hx).
    split; [ring|]. split; [simpl; lia|lia].
Qed.

Lemma rnd_idem (x : Q) : rnd (rnd x) = rnd x.
Proof.
  destruct (rnd_form x) as (m & e & E & Hm & He).
  rewrite (rnd_comp _ _ E). apply eq_trans with (Qred (inject_Z m * pow2 e)).
  - rewrite <- (rnd_canonical (inject_Z m * pow2 e)). apply Qred_complete.
    now apply rnd_exact.
  - rewrite <- (rnd_canonical x). apply Qred_complete. now symmetry.
Qed.

(** Every rounded value is a multiple of the least subnormal. *)
Lemma rnd_grid (x : Q) : exists z, rnd x == inject_Z z * pow2 emin.
Proof.
  destruct (rnd_form x) as (m & e & E & _ & He).
  exists (m * 2 ^ (e - emin))%Z. rewrite E, inject_Z_mult, <- pow2_Z by lia.
  rewrite <- Qmult_assoc, <- pow2_add. now replace (e - emin + emin)%Z with e by ring.
Qed.

(** ** Binary64 values *)

Lemma Q_same_eq (p q : Q) : Q_same p q = true <-> p = q.
Proof.
  unfold Q_same. rewrite andb_true_iff, Z.eqb_eq, Pos.eqb_eq.
  destruct p, q; simpl. split; [intros [-> ->]; reflexivity|].
  intros H. now injection H.
Qed.

Lemma is_double_spec (q : Q) :
  is_double q = true <-> rnd q = q /\ Qabs q < pow2 1024.
Proof.
  unfold is_double. rewrite andb_true_iff, Q_same_eq, negb_true_iff.
  split; intros [H1 H2]; (split; [exact H1|]).
  - apply Qnot_le_lt. intros H. apply Qle_bool_iff in H. congruence.
  - apply not_true_iff_false. intros H. apply Qle_bool_iff in H. lra.
Qed.

Lemma double_rnd (d : double) : rnd d = d.
Proof. now destruct (proj1 (is_double_spec d) (dok d)). Qed.

Lemma double_range (d : double) : Qabs d < pow2 1024.
Proof. now destruct (proj1 (is_double_spec d) (dok d)). Qed.

(** Two binary64 values with the same rational are the same value. *)
Lemma double_eq (a b : double) : dval a = dval b -> a = b.
Proof.
  destruct a as [p Hp], b as [q Hq]. simpl. intros ->.
  f_equal. apply Eqdep_dec.UIP_dec. apply Bool.bool_dec.
Qed.

Lemma double_Qeq (a b : double) : a == b -> a = b.
Proof.
  intros H. apply double_eq.
  rewrite <- (double_rnd a), <- (double_rnd b). now apply rnd_comp.
Qed.

Lemma double_if_Some (v : Q) (b : bool) (e : is_double v = b) (d : double) :
  match b as b return is_double v = b -> option double with
  | true => fun e => Some (mkDouble v e)
  | false => fun _ => None
  end e = Some d -> dval d = v.
Proof. destruct b; [|discriminate]. now intros [= <-]. Qed.

Lemma double_if_true (v : Q) (b : bool) (e : is_double v = b) :
  b = true ->
  exists d,
    match b as b return is_double v = b -> option double with
    | true => fun e => Some (mkDouble v e)
    | false => fun _ => None
    end e = Some d /\ dval d = v.
Proof. intros ->. eexists. split; reflexivity. Qed.

Lemma double_if_false (v : Q) (b : bool) (e : is_double v = b) :
  b = false ->
  match b as b return is_double v = b -> option double with
  | true => fun e => Some (mkDouble v e)
  | false => fun _ => None
  end e = None.
Proof. now intros ->. Qed.

Lemma double_of_Some (v : Q) (d : double) : double_of v = Some d -> dval d = v.
Proof. apply double_if_Some. Qed.

Lemma double_of_dval (d : double) : double_of d = Some d.
Proof.
  destruct (double_if_true d (is_double d) eq_refl (dok d)) as (d' & E & Hd).
  unfold double_of. rewrite E. f_equal. now apply double_eq.
Qed.

(** Rounding gives a binary64 value unless it is out of range. *)
Lemma double_of_rnd (q : Q) :
  (exists d, double_of (rnd q) = Some d /\ dval d = rnd q) \/
  (double_of (rnd q) = None /\ pow2 1024 <= Qabs (rnd q)).
Proof.
  destruct (is_double (rnd q)) eqn:E.
  - left. exact (double_if_true (rnd q) (is_double (rnd q)) eq_refl E).
  - right. split; [exact (double_if_false (rnd q) (is_double (rnd q)) eq_refl E)|].
    apply Qnot_lt_le. intros H. apply not_true_iff_false in E. apply E.
    apply is_double_spec. split; [apply rnd_idem|exact H].
Qed.

Lemma double_grid (d : double) : exists z, d == inject_Z z * pow2 emin.
Proof. rewrite <- (double_rnd d). apply rnd_grid. Qed.

(** The difference of two different binary64 values does not round to
    zero. *)
Lemma double_sub_pos (p q : double) : q < p -> 0 < rnd (p - q).
Proof.
  intros H. destruct (double_grid p) as [zp Hp], (double_grid q) as [zq Hq].
  pose proof (pow2_pos emin) as He.
  assert (pow2 emin <= p - q) as Hge.
  { rewrite Hp, Hq in H |- *.
    assert (zq < zp)%Z as Hz.
    { apply Z.nle_gt. intros Hle. rewrite Zle_Qle in Hle.
      assert (inject_Z zp * pow2 emin <= inject_Z zq * pow2 emin)
        by (apply Qmult_le_compat_r; lra).
      lra. }
    assert (1 <= inject_Z zp - inject_Z zq) as Hone.
    { unfold Qminus. rewrite <- inject_Z_opp, <- inject_Z_plus.
      change 1 with (inject_Z 1). rewrite <- Zle_Qle. lia. }
    apply Qle_trans with (1 * pow2 emin); [lra|].
    apply Qle_trans with ((inject_Z zp - inject_Z zq) * pow2 emin).
    - apply Qmult_le_compat_r; lra.
    - ring_simplify. lra. }
  apply rnd_mono in Hge.
  assert (rnd (pow2 emin) == pow2 emin) as E.
  { rewrite (rnd_comp (pow2 emin) (inject_Z 1 * pow2 emin)) by ring.
    rewrite rnd_exact; [ring|simpl; lia|lia]. }
  lra.
Qed.

Lemma double_sub_sign (p q : double) :
  (0 < rnd (p - q) <-> q < p) /\ (rnd (p - q) < 0 <-> p < q) /\
  (rnd (p - q) == 0 <-> p == q).
Proof.
  pose proof (double_sub_pos p q) as H1. pose proof (double_sub_pos q p) as H2.
  assert (rnd (p - q) == - rnd (q - p)) as E.
  { rewrite <- rnd_opp. rewrite (rnd_comp (- (q - p)) (p - q)); [reflexivity|ring]. }
  destruct (Q_dec p q) as [[H|H]|H].
  - specialize (H2 H). repeat split; intros; try lra.
  - specialize (H1 H). repeat split; intros; try lra.
  - assert (rnd (p - q) == 0) as Z by (rewrite (rnd_zero_eq (p - q)); lra).
    repeat split; intros; try lra.
Qed.

(** ** Rounded results *)

Lemma fin_spec (q : Q) :
  (exists d, fin q = Fin d /\ dval d = rnd q) \/
  (fin q = Infinity /\ 0 < q /\ pow2 1024 <= rnd q) \/
  (fin q = NegInfinity /\ q < 0 /\ rnd q <= - pow2 1024).
Proof.
  unfold fin. destruct (double_of_rnd q) as [(d & -> & Hd)|[-> Hbig]].
  - left. now exists d.
  - right. pose proof (pow2_pos 1024) as Hp.
    destruct (Qle_bool 0 q) eqn:E.
    + apply Qle_bool_iff in E. pose proof (rnd_nonneg q E) as Hr.
      rewrite Qabs_pos in Hbig by exact Hr. left.
      split; [reflexivity|]. split; [|exact Hbig].
      destruct (Qle_lt_or_eq _ _ E) as [H|H]; [exact H|].
      rewrite (rnd_zero_eq q) in Hbig; [lra|now symmetry].
    + assert (q < 0) as E'.
      { apply Qnot_le_lt. intros H. apply Qle_bool_iff in H. congruence. }
      pose proof (rnd_nonpos q (Qlt_le_weak _ _ E')) as Hr.
      rewrite Qabs_neg in Hbig by exact Hr. right.
      split; [reflexivity|]. split; [exact E'|lra].
Qed.

(** A binary64 value is rounded to itself. *)
Lemma fin_double (d : double) : fin d = Fin d.
Proof. unfold fin. now rewrite double_rnd, double_of_dval. Qed.

Lemma fin_comp (x y : Q) : x == y -> fin x = fin y.
Proof.
  intros H. unfold fin. rewrite (rnd_comp x y H).
  destruct (double_of (rnd y)); [reflexivity|].
  destruct (Qle_bool 0 x) eqn:E1, (Qle_bool 0 y) eqn:E2; try reflexivity.
  - apply Qle_bool_iff in E1. rewrite H in E1. apply Qle_bool_iff in E1. congruence.
  - apply Qle_bool_iff in E2. rewrite <- H in E2. apply Qle_bool_iff in E2. congruence.
Qed.

End Binary64Facts.

(** ** Order on numbers *)

Section NumberFacts.
Local Open Scope Q_scope.

Lemma num_ltb_Fin (p q : double) : num_ltb (Fin p) (Fin q) = true <-> p < q.
Proof.
  unfold num_ltb. destruct (Qcompare_spec p q) as [Hc|Hc|Hc]; split; intros Hlt;
    try reflexivity; try discriminate; try assumption; exfalso; lra.
Qed.

Lemma num_leb_Fin (p q : double) : num_leb (Fin p) (Fin q) = true <-> p <= q.
Proof.
  unfold num_leb. destruct (Qcompare_spec p q) as [Hc|Hc|Hc]; split; intros Hle;
    try reflexivity; try discriminate; try lra.
Qed.

Lemma num_eqb_Fin (p q : double) : num_eqb (Fin p) (Fin q) = true <-> p == q.
Proof. apply Qeq_bool_iff. Qed.

Lemma num_gtb_Fin (p q : double) : num_gtb (Fin p) (Fin q) = true <-> q < p.
Proof. apply num_ltb_Fin. Qed.

Lemma num_gtb_Fin_false (p q : double) : num_gtb (Fin p) (Fin q) = false <-> p <= q.
Proof.
  rewrite <- not_true_iff_false, num_gtb_Fin. split; intros H; lra.
Qed.

(** The sign of a rounded result. *)
Lemma num_gtb_fin_zero (x : Q) : num_gtb (fin x) zero = true <-> 0 < rnd x.
Proof.
  pose proof (pow2_pos 1024) as Hp.
  destruct (fin_spec x) as [(d & -> & Hd)|[(-> & Hx & Hr)|(-> & Hx & Hr)]].
  - unfold zero. rewrite num_gtb_Fin, Hd. reflexivity.
  - split; [intros _; lra|reflexivity].
  - split; [discriminate|intros H; lra].
Qed.

Lemma num_ltb_fin_zero (x : Q) : num_ltb (fin x) zero = true <-> rnd x < 0.
Proof.
  pose proof (pow2_pos 1024) as Hp.
  destruct (fin_spec x) as [(d & -> & Hd)|[(-> & Hx & Hr)|(-> & Hx & Hr)]].
  - unfold zero. rewrite num_ltb_Fin, Hd. reflexivity.
  - split; [discriminate|intros H; lra].
  - split; [intros _; lra|reflexivity].
Qed.

Lemma num_eqb_fin_zero (x : Q) : num_eqb (fin x) zero = true <-> rnd x == 0.
Proof.
  pose proof (pow2_pos 1024) as Hp.
  destruct (fin_spec x) as [(d & -> & Hd)|[(-> & Hx & Hr)|(-> & Hx & Hr)]].
  - unfold zero. rewrite num_eqb_Fin, Hd. reflexivity.
  - split; [discriminate|intros H; lra].
  - split; [discriminate|intros H; lra].
Qed.

(** [a - b > 0] exactly when [b < a]: two different binary64 values differ
    by at least the least subnormal, which rounding keeps. *)
Lemma num_gtb_sub (a b : number) : num_gtb (num_sub a b) zero = num_ltb b a.
Proof.
  destruct a as [| |p|], b as [| |q|]; try reflexivity.
  apply eq_true_iff_eq. unfold num_sub.
  rewrite num_gtb_fin_zero, num_ltb_Fin. apply double_sub_sign.
Qed.

(** [a - b < 0] exactly when [a < b]. *)
Lemma num_ltb_sub (a b : number) : num_ltb (num_sub a b) zero = num_ltb a b.
Proof.
  destruct a as [| |p|], b as [| |q|]; try reflexivity.
  apply eq_true_iff_eq. unfold num_sub.
  rewrite num_ltb_fin_zero, num_ltb_Fin. apply double_sub_sign.
Qed.

Lemma num_leb_refl (a : number) : isNaN a = false -> num_leb a a = true.
Proof.
  destruct a as [| |p|]; try easy. intros _. simpl.
  now destruct (Qcompare_spec p p); try reflexivity; exfalso; lra.
Qed.

Lemma num_leb_trans (a b c : number) :
  num_leb a b = true -> num_leb b c = true -> num_leb a c = true.
Proof.
  destruct a as [| |p|], b as [| |q|], c as [| |r|]; try easy. simpl.
  destruct (Qcompare_spec p q), (Qcompare_spec q r), (Qcompare_spec p r);
    try easy; intros _ _; exfalso; lra.
Qed.

Lemma num_ltb_leb (a b : number) : num_ltb a b = true -> num_leb a b = true.
Proof.
  destruct a as [| |p|], b as [| |q|]; try easy. simpl.
  now destruct (p ?= q).
Qed.

(** On numbers other than [NaN], [<=] is the negation of [>]. *)
Lemma num_leb_not_ltb (a b : number) :
  isNaN a = false -> isNaN b = false -> num_leb a b = negb (num_ltb b a).
Proof.
  destruct a as [| |p|], b as [| |q|]; try easy. intros _ _. simpl.
  destruct (Qcompare_spec p q), (Qcompare_spec q p);
    try reflexivity; exfalso; lra.
Qed.

Lemma num_ltb_leb_trans (a b c : number) :
  num_ltb a b = true -> num_leb b c = true -> num_ltb a c = true.
Proof.
  destruct a as [| |p|], b as [| |q|], c as [| |r|]; try easy. simpl.
  destruct (Qcompare_spec p q), (Qcompare_spec q r), (Qcompare_spec p r);
    try easy; intros _ _; exfalso; lra.
Qed.

Lemma num_leb_ltb_trans (a b c : number) :
  num_leb a b = true -> num_ltb b c = true -> num_ltb a c = true.
Proof.
  destruct a as [| |p|], b as [| |q|], c as [| |r|]; try easy. simpl.
  destruct (Qcompare_spec p q), (Qcompare_spec q r), (Qcompare_spec p r);
    try easy; intros _ _; exfalso; lra.
Qed.

Lemma num_sub_not_NaN (a b : number) :
  isFinite a = true -> isFinite b = true -> isNaN (num_sub a b) = false.
Proof.
  destruct a as [| |p|], b as [| |q|]; try easy. intros _ _. unfold num_sub.
  now destruct (fin_spec (p - q)) as [(d & -> & _)|[(-> & _)|(-> & _)]].
Qed.

(** A difference of finite numbers is zero exactly when neither is below
    the other. *)
Lemma num_eqb_sub (a b : number) :
  isFinite a = true -> isFinite b = true ->
  num_eqb (num_sub a b) zero = negb (num_ltb a b) && negb (num_ltb b a).
Proof.
  destruct a as [| |p|], b as [| |q|]; try easy. intros _ _.
  apply eq_true_iff_eq. unfold num_sub.
  rewrite num_eqb_fin_zero, andb_true_iff, !negb_true_iff.
  rewrite <- !not_true_iff_false, !num_ltb_Fin.
  destruct (double_sub_sign p q) as (_ & _ & ->).
  split; [intros E; split; lra|intros [H1 H2]; lra].
Qed.
End NumberFacts.

Arguments num_ltb : simpl never.
Arguments num_leb : simpl never.
Arguments num_gtb : simpl never.
Arguments num_geb : simpl never.
Arguments num_eqb : simpl never.
Arguments num_add : simpl never.
Arguments num_sub : simpl never.
Arguments timeToMinutes : simpl never.
Arguments minutesBetween : simpl never.

(** ** Sorting and filtering *)

Section SortFacts.
Context {A : Type} (cmp : A -> A -> number).

Lemma js_insert_Permutation (x : A) (l : list A) :
  Permutation (js_insert cmp x l) (x :: l).
Proof.
  induction l as [|y l IH]; simpl; [reflexivity|].
  destruct (num_gtb (cmp x y) zero); [|reflexivity].
  rewrite IH. apply perm_swap.
Qed.

Lemma js_sort_Permutation (l : list A) : Permutation (js_sort cmp l) l.
Proof.
  induction l as [|x l IH]; simpl; [reflexivity|].
  rewrite js_insert_Permutation. now constructor.
Qed.

Lemma js_sort_In (x : A) (l : list A) : In x (js_sort cmp l) <-> In x l.
Proof.
  split; apply Permutation_in;
    [apply js_sort_Permutation | symmetry; apply js_sort_Permutation].
Qed.

Lemma js_sort_nil (l : list A) : js_sort cmp l = [] <-> l = [].
Proof.
  split; intros H.
  - apply Permutation_nil. rewrite <- H. apply js_sort_Permutation.
  - now subst.
Qed.

Lemma js_sort_NoDup (l : list A) : List.NoDup l -> List.NoDup (js_sort cmp l).
Proof.
  intros H. eapply Permutation_NoDup; [|exact H].
  symmetry. apply js_sort_Permutation.
Qed.

(** When the comparator agrees with a transitive order on the elements it
    is given, the result is sorted for that order. *)
Variable le : A -> A -> Prop.
Variable P : A -> Prop.
Hypothesis le_trans :
  forall x y z, P x -> P y -> P z -> le x y -> le y z -> le x z.
Hypothesis cmp_gt :
  forall x y, P x -> P y -> num_gtb (cmp x y) zero = true -> le y x.
Hypothesis cmp_le :
  forall x y, P x -> P y -> num_gtb (cmp x y) zero = false -> le x y.

Lemma js_insert_Forall (Q : A -> Prop) (x : A) (l : list A) :
  Q x -> Forall Q l -> Forall Q (js_insert cmp x l).
Proof.
  intros Hx Hl. eapply Permutation_Forall.
  - symmetry. apply js_insert_Permutation.
  - now constructor.
Qed.

Lemma js_insert_sorted (x : A) (l : list A) :
  P x -> Forall P l -> StronglySorted le l ->
  StronglySorted le (js_insert cmp x l).
Proof.
  intros Px Pl Hs. induction Hs as [|y l Hs IH Hy]; simpl.
  - repeat constructor.
  - inversion Pl as [|? ? Py Pl']; subst.
    destruct (num_gtb (cmp x y) zero) eqn:E.
    + constructor; [now apply IH|].
      apply js_insert_Forall; [now apply cmp_gt|exact Hy].
    + pose proof (cmp_le x y Px Py E) as Hxy.
      constructor; [now constructor|].
      constructor; [exact Hxy|].
      rewrite List.Forall_forall in Hy, Pl' |- *.
      intros z Hz. apply (le_trans x y z); auto.
Qed.

Lemma js_sort_sorted (l : list A) :
  Forall P l -> StronglySorted le (js_sort cmp l).
Proof.
  induction 1 as [|x l Px Pl IH]; simpl; [constructor|].
  apply js_insert_sorted; auto.
  eapply Permutation_Forall; [|exact Pl].
  symmetry. apply js_sort_Permutation.
Qed.
End SortFacts.

Section FilterFacts.
Context {A : Type}.

Lemma filter_StronglySorted (le : A -> A -> Prop) (f : A -> bool) (l : list A) :
  StronglySorted le l -> StronglySorted le (List.filter f l).
Proof.
  induction 1 as [|x l Hs IH Hx]; simpl; [constructor|].
  destruct (f x); [|exact IH].
  constructor; [exact IH|].
  rewrite List.Forall_forall in Hx |- *.
  intros y Hy. apply Hx. now apply filter_In in Hy.
Qed.

Lemma filter_nil_iff (f : A -> bool) (l : list A) :
  List.filter f l = [] <-> forall x, In x l -> f x = false.
Proof.
  induction l as [|y l IH]; simpl.
  - now split.
  - destruct (f y) eqn:E; split.
    + discriminate.
    + intros H. specialize (H y (or_introl eq_refl)). congruence.
    + intros H x [<-|Hx]; [exact E|]. now apply IH.
    + intros H. apply IH. auto.
Qed.

Lemma StronglySorted_head_le (le : A -> A -> Prop) (x : A) (l : list A) :
  StronglySorted le (x :: l) -> forall y, In y l -> le x y.
Proof.
  intros H y Hy. inversion H as [|? ? _ Hx]; subst.
  rewrite List.Forall_forall in Hx. now apply Hx.
Qed.

Lemma StronglySorted_tail (le : A -> A -> Prop) (x : A) (l : list A) :
  StronglySorted le (x :: l) -> StronglySorted le l.
Proof. now inversion 1. Qed.

Lemma NoDup_head_not_in (x : A) (l : list A) : List.NoDup (x :: l) -> ~ In x l.
Proof. now inversion 1. Qed.
End FilterFacts.


(** ** What [plan] returns *)

Section PlanFacts.
Variable haversineDistanceKm : Stop -> number -> number -> number.
Variable trips : list Trip.
Variable stopTimesByTrip : gmap string (list StopTime).
Variable stopById : gmap string Stop.
Variable routeById : gmap string Route.
Variables origin destination : Stop.
Variable destinationLocation : option LatLng.
Variable nowMinutes : number.

Local Abbreviation the_candidates :=
  (candidates haversineDistanceKm trips stopTimesByTrip stopById routeById
     origin destination destinationLocation).
Local Abbreviation the_transferPlans :=
  (transferPlans trips stopTimesByTrip stopById routeById origin destination).
Local Abbreviation the_plan :=
  (plan haversineDistanceKm trips stopTimesByTrip stopById routeById
     origin destination destinationLocation nowMinutes).

Lemma plan_same_stop :
  stop_id origin = stop_id destination -> the_plan = PlanError same_stop_error.
Proof.
  intros H. unfold plan. now rewrite H, String.eqb_refl.
Qed.

(** The shape of the result for two different stops, by cases on the two
    enumerations. *)
Lemma plan_cases :
  stop_id origin <> stop_id destination ->
  (the_candidates <> [] /\
   exists first rest,
     js_sort byBoardTime the_candidates = first :: rest /\
     ((List.filter (isUpcoming nowMinutes) (first :: rest) = [] /\
       the_plan = PlanDirect first rest (Some no_more_departures)) \/
      (exists nextTrip alternatives,
         List.filter (isUpcoming nowMinutes) (first :: rest) = nextTrip :: alternatives /\
         the_plan = PlanDirect nextTrip alternatives None))) \/
  (the_candidates = [] /\ the_transferPlans = [] /\
   the_plan = PlanError no_trips_error) \/
  (the_candidates = [] /\ the_transferPlans <> [] /\
   exists first rest,
     js_sort byBoardTimeThenTotal the_transferPlans = first :: rest /\
     ((List.filter (fun c => isUpcoming nowMinutes (firstLeg c)) (first :: rest) = [] /\
       the_plan = PlanTransfer first rest (Some no_more_departures)) \/
      (exists nextTransfer alternatives,
         List.filter (fun c => isUpcoming nowMinutes (firstLeg c)) (first :: rest)
           = nextTransfer :: alternatives /\
         the_plan = PlanTransfer nextTransfer alternatives None))).
Proof.
  intros Hne. apply String.eqb_neq in Hne.
  unfold plan. rewrite Hne.
  destruct (js_sort byBoardTime the_candidates) as [|first rest] eqn:Es.
  - apply js_sort_nil in Es. right.
    destruct (js_sort byBoardTimeThenTotal the_transferPlans) as [|tfirst trest] eqn:Et.
    + apply js_sort_nil in Et. left. auto.
    + right. split; [exact Es|]. split.
      { intros H. rewrite H in Et. discriminate. }
      exists tfirst, trest. split; [reflexivity|].
      destruct (List.filter _ (tfirst :: trest)) as [|n alts] eqn:Ef; [left|right]; eauto.
  - left. split.
    { intros H. rewrite H in Es. discriminate. }
    exists first, rest. split; [reflexivity|].
    destruct (List.filter _ (first :: rest)) as [|n alts] eqn:Ef; [left|right]; eauto.
Qed.

End PlanFacts.

(** ** Where the itineraries of a result come from *)

(** What the join stores in a pairing. *)
Definition joined (p : TransferPlan) : Prop :=
  layoverMinutes p
    = num_sub (timeToMinutes (boardTime (secondLeg p)))
              (timeToMinutes (alightTime (firstLeg p))) /\
  totalMinutes p
    = num_sub (timeToMinutes (alightTime (secondLeg p)))
              (timeToMinutes (boardTime (firstLeg p))) /\
  num_ltb (layoverMinutes p) zero = false /\
  num_ltb (totalMinutes p) zero = false /\
  transferStop p = alightStop (firstLeg p).

Lemma joinLegs_In (leg1 : CandidateTrip) (leg2Options : list CandidateTrip)
    (p : TransferPlan) :
  In p (joinLegs leg1 leg2Options) <->
  exists leg2,
    In leg2 leg2Options /\
    num_ltb (minutesBetween (alightTime leg1) (boardTime leg2)) zero = false /\
    num_ltb (minutesBetween (boardTime leg1) (alightTime leg2)) zero = false /\
    p = {| firstLeg := leg1;
           secondLeg := leg2;
           transferStop := alightStop leg1;
           layoverMinutes := minutesBetween (alightTime leg1) (boardTime leg2);
           totalMinutes := minutesBetween (boardTime leg1) (alightTime leg2) |}.
Proof.
  unfold joinLegs. rewrite in_flat_map. split.
  - intros (leg2 & Hin & Hp). exists leg2. split; [exact Hin|].
    destruct (num_ltb (minutesBetween (alightTime leg1) (boardTime leg2)) zero);
      [destruct Hp|].
    destruct (num_ltb (minutesBetween (boardTime leg1) (alightTime leg2)) zero);
      [destruct Hp|].
    destruct Hp as [<-|[]]. auto.
  - intros (leg2 & Hin & Hl & Ht & ->). exists leg2. split; [exact Hin|].
    rewrite Hl, Ht. now left.
Qed.

Lemma joinLegs_joined (leg1 : CandidateTrip) (leg2Options : list CandidateTrip)
    (p : TransferPlan) :
  In p (joinLegs leg1 leg2Options) -> joined p.
Proof.
  intros H. apply joinLegs_In in H as (leg2 & _ & Hl & Ht & ->).
  unfold joined. simpl. auto.
Qed.

Section Provenance.
Variable haversineDistanceKm : Stop -> number -> number -> number.
Variable trips : list Trip.
Variable stopTimesByTrip : gmap string (list StopTime).
Variable stopById : gmap string Stop.
Variable routeById : gmap string Route.
Variables origin destination : Stop.
Variable destinationLocation : option LatLng.
Variable nowMinutes : number.

Local Abbreviation the_candidates :=
  (candidates haversineDistanceKm trips stopTimesByTrip stopById routeById
     origin destination destinationLocation).
Local Abbreviation the_leg2ByStop :=
  (leg2ByStop trips stopTimesByTrip stopById routeById destination).
Local Abbreviation the_transferPlans :=
  (transferPlans trips stopTimesByTrip stopById routeById origin destination).
Local Abbreviation the_plan :=
  (plan haversineDistanceKm trips stopTimesByTrip stopById routeById
     origin destination destinationLocation nowMinutes).

Lemma transferPlansOfTrip_In (t : Trip) (p : TransferPlan) :
  In p (transferPlansOfTrip trips stopTimesByTrip stopById routeById
          origin destination t) ->
  exists stopTimes originIndex boardTime alightTime leg1 leg2Options,
    stopTimesByTrip !! trip_id t = Some stopTimes /\
    findIndex (is_stop origin) stopTimes = Some originIndex /\
    stopTimes !! originIndex = Some boardTime /\
    In alightTime (drop (S originIndex) stopTimes) /\
    createLeg stopById routeById t boardTime alightTime = Some leg1 /\
    the_leg2ByStop !! st_stop_id alightTime = Some leg2Options /\
    In p (joinLegs leg1 leg2Options).
Proof.
  unfold transferPlansOfTrip.
  destruct (stopTimesByTrip !! trip_id t) as [stopTimes|] eqn:Es; [|intros []].
  destruct (findIndex (is_stop origin) stopTimes) as [originIndex|] eqn:Ei;
    [|intros []].
  destruct (length stopTimes - 1 <=? originIndex)%nat; [intros []|].
  destruct (stopTimes !! originIndex) as [boardTime|] eqn:Eb; [|intros []].
  rewrite in_flat_map. intros (alightTime & Hin & Hp).
  destruct (createLeg stopById routeById t boardTime alightTime) as [leg1|] eqn:E1;
    [|destruct Hp].
  destruct (the_leg2ByStop !! st_stop_id alightTime) as [leg2Options|] eqn:E2;
    [|destruct Hp].
  exists stopTimes, originIndex, boardTime, alightTime, leg1, leg2Options.
  repeat split; auto.
Qed.

Lemma transferPlans_joined (p : TransferPlan) : In p the_transferPlans -> joined p.
Proof.
  unfold transferPlans. rewrite in_flat_map. intros (t & _ & Hp).
  apply transferPlansOfTrip_In in Hp as (? & ? & ? & ? & leg1 & opts & H).
  now apply (joinLegs_joined leg1 opts).
Qed.

(** A direct result shows direct candidates only, a transfer result pairings
    of the join only. *)
Lemma directsOf_plan_In (c : CandidateTrip) :
  In c (directsOf the_plan) -> In c the_candidates.
Proof.
  unfold plan. destruct (String.eqb _ _); [intros []|].
  destruct (js_sort byBoardTime the_candidates) as [|first rest] eqn:Es.
  - destruct (js_sort _ the_transferPlans); [intros []|].
    now destruct (List.filter _ _).
  - destruct (List.filter _ (first :: rest)) as [|n alts] eqn:Ef; simpl; intros H.
    + apply (js_sort_In byBoardTime). now rewrite Es.
    + change (In c (n :: alts)) in H. rewrite <- Ef in H.
      apply filter_In in H as [H _].
      apply (js_sort_In byBoardTime). now rewrite Es.
Qed.

Lemma transfersOf_plan_In (p : TransferPlan) :
  In p (transfersOf the_plan) -> In p the_transferPlans.
Proof.
  unfold plan. destruct (String.eqb _ _); [intros []|].
  destruct (js_sort byBoardTime the_candidates) as [|first rest] eqn:Es.
  - destruct (js_sort _ the_transferPlans) as [|tfirst trest] eqn:Et; [intros []|].
    destruct (List.filter _ (tfirst :: trest)) as [|n alts] eqn:Ef; simpl; intros H.
    + apply (js_sort_In byBoardTimeThenTotal). now rewrite Et.
    + change (In p (n :: alts)) in H. rewrite <- Ef in H.
      apply filter_In in H as [H _].
      apply (js_sort_In byBoardTimeThenTotal). now rewrite Et.
  - now destruct (List.filter _ (first :: rest)).
Qed.

End Provenance.

(** ** Same stop, no coverage *)

(** C7. Same-stop rejection: for every stop [S] and every time, and whatever
    the feed holds, planning from [S] to [S] returns the error "Pick two
    different stops to build a route."; the answer does not depend on the
    trips or on the indexes, which are not consulted. *)
Theorem same_stop_rejection :
  forall (haversineDistanceKm : Stop -> number -> number -> number)
    (trips : list Trip) (stopTimesByTrip : gmap string (list StopTime))
    (stopById : gmap string Stop) (routeById : gmap string Route)
    (S : Stop) (destinationLocation : option LatLng) (t : number),
    planResult haversineDistanceKm trips stopTimesByTrip stopById routeById
      (Some S) (Some S) destinationLocation t
    = Some (PlanError "Pick two different stops to build a route.").
Proof.
  intros. unfold planResult. f_equal. now apply plan_same_stop.
Qed.

(** C4. No-coverage error: between two different stops, when the direct
    enumeration yields no candidate and the join builds no pairing, the
    result is the error "No trips found between those stops."; and an error
    result is either that one, under exactly those conditions, or the
    same-stop error for equal stop ids. *)
Theorem no_coverage_error :
  forall (haversineDistanceKm : Stop -> number -> number -> number)
    (trips : list Trip) (stopTimesByTrip : gmap string (list StopTime))
    (stopById : gmap string Stop) (routeById : gmap string Route)
    (origin destination : Stop) (destinationLocation : option LatLng)
    (nowMinutes : number) (message : string),
    plan haversineDistanceKm trips stopTimesByTrip stopById routeById
      origin destination destinationLocation nowMinutes = PlanError message
    <->
    (stop_id origin = stop_id destination /\
     message = "Pick two different stops to build a route.") \/
    (stop_id origin <> stop_id destination /\
     candidates haversineDistanceKm trips stopTimesByTrip stopById routeById
       origin destination destinationLocation = [] /\
     transferPlans trips stopTimesByTrip stopById routeById origin destination = [] /\
     message = "No trips found between those stops.").
Proof.
  intros hav trips stbt sbi rbi o d loc now message.
  destruct (String.eqb_spec (stop_id o) (stop_id d)) as [Heq|Hne].
  - rewrite (plan_same_stop hav trips stbt sbi rbi o d loc now Heq).
    split.
    + intros [= <-]. now left.
    + intros [[_ ->]|[Hne _]]; [reflexivity|contradiction].
  - pose proof (plan_cases hav trips stbt sbi rbi o d loc now Hne) as Hc.
    split.
    + intros Hp. right.
      destruct Hc as [(_ & first & rest & _ & [[_ H]|(n & alts & _ & H)])
                     |[(Hc & Ht & H)
                      |(_ & _ & first & rest & _ & [[_ H]|(n & alts & _ & H)])]];
        rewrite H in Hp; try discriminate.
      injection Hp as <-. auto.
    + intros [[Heq _]|(_ & Hc' & Ht' & ->)]; [contradiction|].
      destruct Hc as [(Hc & _)|[(_ & _ & H)|(_ & Ht & _)]];
        [contradiction|exact H|contradiction].
Qed.

(** The sixth testable property: two trips that share no stop. *)
Example no_coverage_sample :
  forall haversineDistanceKm,
    plan haversineDistanceKm [Sample.trip1; Sample.trip2] Sample.disjointFeed
      Sample.stopById Sample.routeById Sample.stopA Sample.stopB None zero
    = PlanError "No trips found between those stops.".
Proof. intros. vm_compute. reflexivity. Qed.

(** ** The transfer join *)

(** C1. Transfer join correctness: every pairing a transfer result shows
    stores as layover the second leg's boarding time minus the first leg's
    alighting time, as total the second leg's alighting time minus the first
    leg's boarding time, neither of them negative, and as transfer stop the
    first leg's alighting stop ([joined]); the join keeps exactly the
    pairings whose layover and total are not negative; and on the feed of
    trip1 (A 08:00, T 08:20) and trip2 (T 08:30, B 08:45), planning from A to
    B at minute 0 returns a transfer at T with layover 10 and total 45. *)
Theorem transfer_join_correct :
  (forall (haversineDistanceKm : Stop -> number -> number -> number)
     (trips : list Trip) (stopTimesByTrip : gmap string (list StopTime))
     (stopById : gmap string Stop) (routeById : gmap string Route)
     (origin destination : Stop) (destinationLocation : option LatLng)
     (nowMinutes : number),
     Forall joined
       (transfersOf
          (plan haversineDistanceKm trips stopTimesByTrip stopById routeById
             origin destination destinationLocation nowMinutes))) /\
  (forall (leg1 leg2 : CandidateTrip) (leg2Options : list CandidateTrip),
     In leg2 leg2Options ->
     let layover :=
       num_sub (timeToMinutes (boardTime leg2)) (timeToMinutes (alightTime leg1)) in
     let total :=
       num_sub (timeToMinutes (alightTime leg2)) (timeToMinutes (boardTime leg1)) in
     In {| firstLeg := leg1; secondLeg := leg2; transferStop := alightStop leg1;
           layoverMinutes := layover; totalMinutes := total |}
        (joinLegs leg1 leg2Options)
     <-> num_ltb layover zero = false /\ num_ltb total zero = false) /\
  (forall haversineDistanceKm,
     plan haversineDistanceKm [Sample.trip1; Sample.trip2] Sample.transferFeed
       Sample.stopById Sample.routeById Sample.stopA Sample.stopB None zero
     = PlanTransfer
         {| firstLeg := Sample.transferLeg1;
            secondLeg := Sample.transferLeg2;
            transferStop := Sample.stopT;
            layoverMinutes := Fin 10;
            totalMinutes := Fin 45 |} [] None).
Proof.
  split; [|split].
  - intros. apply List.Forall_forall. intros p Hp.
    apply transfersOf_plan_In in Hp.
    now apply transferPlans_joined in Hp.
  - intros leg1 leg2 opts Hin layover total. rewrite joinLegs_In. split.
    + intros (leg2' & _ & Hl & Ht & Heq).
      injection Heq as -> _ _. auto.
    + intros [Hl Ht]. exists leg2. auto.
  - intros. vm_compute. reflexivity.
Qed.

(** C9. The two legs of a transfer need not lie on different trips: on a
    feed of one trip calling at A, T and B within the same minute, the calls
    A and B are in trip order yet the strictly-after guard leaves no direct
    candidate, and planning from A to B returns a transfer whose first and
    second leg are both on that trip. *)
Theorem transfer_legs_may_share_trip :
  exists (trips : list Trip) (stopTimesByTrip : gmap string (list StopTime))
    (stopById : gmap string Stop) (routeById : gmap string Route)
    (origin destination : Stop) (nowMinutes : number)
    (nextTransfer : TransferPlan) (alternatives : list TransferPlan)
    (serviceNote : option string),
    stop_id origin <> stop_id destination /\
    (exists stopTimes,
       stopTimesByTrip !! "trip1" = Some stopTimes /\
       findIndex (is_stop origin) stopTimes = Some 0%nat /\
       destinationIndex destination stopTimes 0 = Some 2%nat) /\
    forall haversineDistanceKm,
      candidates haversineDistanceKm trips stopTimesByTrip stopById routeById
        origin destination None = [] /\
      plan haversineDistanceKm trips stopTimesByTrip stopById routeById
        origin destination None nowMinutes
      = PlanTransfer nextTransfer alternatives serviceNote /\
      trip (firstLeg nextTransfer) = trip (secondLeg nextTransfer).
Proof.
  exists [Sample.trip1], Sample.sameMinuteFeed, Sample.stopById, Sample.routeById,
    Sample.stopA, Sample.stopB, zero.
  eexists. exists [], None.
  split; [discriminate|]. split.
  - eexists. split; [vm_compute; reflexivity|]. split; reflexivity.
  - intros hav. split; [vm_compute; reflexivity|]. split.
    + vm_compute. reflexivity.
    + reflexivity.
Qed.

(** ** [findIndex] *)

Section FindIndexFacts.
Context {A : Type}.

Lemma findIndex_from_Some (p : A -> nat -> bool) (l : list A) :
  forall i k,
    findIndex_from p i l = Some k <->
    (i <= k)%nat /\
    exists x, l !! (k - i)%nat = Some x /\ p x k = true /\
      forall j y, (j < k - i)%nat -> l !! j = Some y -> p y (i + j)%nat = false.
Proof.
  induction l as [|x l IH]; intros i k; simpl.
  - split; [discriminate|]. now intros (_ & y & H & _).
  - destruct (p x i) eqn:E.
    + split.
      * intros [= <-]. split; [lia|]. exists x.
        rewrite Nat.sub_diag. repeat split; auto. intros j y Hj. lia.
      * intros (Hik & y & Hy & Hp & Hfirst).
        destruct (decide (k = i)) as [->|Hne]; [reflexivity|].
        specialize (Hfirst 0%nat x ltac:(lia) eq_refl).
        rewrite Nat.add_0_r in Hfirst. congruence.
    + rewrite IH. split.
      * intros (Hik & y & Hy & Hp & Hfirst). split; [lia|]. exists y.
        replace (k - i)%nat with (S (k - S i)) by lia.
        repeat split; auto.
        intros [|j] z Hj Hz.
        -- injection Hz as <-. now rewrite Nat.add_0_r.
        -- rewrite Nat.add_succ_r. apply (Hfirst j z); [lia|exact Hz].
      * intros (Hik & y & Hy & Hp & Hfirst).
        destruct (decide (k = i)) as [->|Hne].
        { rewrite Nat.sub_diag in Hy. injection Hy as <-. congruence. }
        split; [lia|]. exists y.
        replace (k - i)%nat with (S (k - S i)) in Hy, Hfirst by lia.
        repeat split; auto.
        intros j z Hj Hz.
        specialize (Hfirst (S j) z ltac:(lia) Hz).
        now rewrite Nat.add_succ_r in Hfirst.
Qed.

(** [findIndex] returns the first index whose element passes the test. *)
Lemma findIndex_Some (p : A -> nat -> bool) (l : list A) (k : nat) :
  findIndex p l = Some k <->
  exists x, l !! k = Some x /\ p x k = true /\
    forall j y, (j < k)%nat -> l !! j = Some y -> p y j = false.
Proof.
  unfold findIndex. rewrite findIndex_from_Some, Nat.sub_0_r. split.
  - intros (_ & x & H). exists x. exact H.
  - intros (x & H). split; [lia|]. exists x. exact H.
Qed.

Lemma findIndex_from_None (p : A -> nat -> bool) (l : list A) :
  forall i,
    findIndex_from p i l = None <->
    forall j y, l !! j = Some y -> p y (i + j)%nat = false.
Proof.
  induction l as [|x l IH]; intros i; simpl.
  - split; [|reflexivity]. intros _ j y Hy. now destruct j.
  - destruct (p x i) eqn:E.
    + split; [discriminate|]. intros H.
      specialize (H 0%nat x eq_refl). rewrite Nat.add_0_r in H. congruence.
    + rewrite IH. split.
      * intros H [|j] y Hy.
        -- injection Hy as <-. now rewrite Nat.add_0_r.
        -- rewrite Nat.add_succ_r. now apply (H j y).
      * intros H j y Hy. specialize (H (S j) y Hy).
        now rewrite Nat.add_succ_r in H.
Qed.

Lemma findIndex_None (p : A -> nat -> bool) (l : list A) :
  findIndex p l = None <-> forall j y, l !! j = Some y -> p y j = false.
Proof. unfold findIndex. now rewrite findIndex_from_None. Qed.

End FindIndexFacts.


(** ** Choosing where to alight *)

Section AlightFacts.
Variable haversineDistanceKm : Stop -> number -> number -> number.
Variable stopById : gmap string Stop.
Variable destination : Stop.
Variable destinationLocation : option LatLng.

Lemma destinationIndex_Some (stopTimes : list StopTime) (boardIndex i : nat) :
  destinationIndex destination stopTimes boardIndex = Some i ->
  (boardIndex < i)%nat /\
  exists candidate,
    stopTimes !! i = Some candidate /\
    st_stop_id candidate = stop_id destination /\
    forall j time, (boardIndex < j < i)%nat -> stopTimes !! j = Some time ->
      st_stop_id time <> stop_id destination.
Proof.
  unfold destinationIndex. rewrite findIndex_Some.
  intros (candidate & Hc & Hp & Hfirst).
  apply andb_prop in Hp as [Hlt Heq].
  apply Nat.ltb_lt in Hlt. apply String.eqb_eq in Heq.
  split; [exact Hlt|]. exists candidate. repeat split; auto.
  intros j time [Hbj Hji] Hj Habs.
  specialize (Hfirst j time Hji Hj).
  apply andb_false_iff in Hfirst as [H|H].
  - apply Nat.ltb_ge in H. lia.
  - apply String.eqb_neq in H. contradiction.
Qed.

Lemma exactAlight_Some (stopTimes : list StopTime) (boardIndex : nat)
    (boardTime alightTime : StopTime) (alightStop : Stop) :
  exactAlight stopById destination stopTimes boardIndex boardTime
    = (Some alightTime, Some alightStop) <->
  exists i,
    destinationIndex destination stopTimes boardIndex = Some i /\
    stopTimes !! i = Some alightTime /\
    num_gtb (timeToMinutes (arrival_time alightTime))
            (timeToMinutes (departure_time boardTime)) = true /\
    stopById !! st_stop_id alightTime = Some alightStop.
Proof.
  unfold exactAlight. split.
  - destruct (destinationIndex destination stopTimes boardIndex) as [i|];
      [|discriminate].
    destruct (stopTimes !! i) as [candidate|] eqn:Ec; [|discriminate].
    destruct (num_gtb _ _) eqn:Eg; [|discriminate].
    intros [= -> Hs]. exists i. auto.
  - intros (i & -> & -> & -> & ->). reflexivity.
Qed.

(** What the scan returns was met after the boarding index, is not at or
    before the boarding minute, and is a known stop. *)
Lemma pickClosestStopAfterBoard_Some (stopTimes : list StopTime)
    (boardIndex : nat) (boardMinutes : number) (closest : Closest) :
  pickClosestStopAfterBoard haversineDistanceKm stopById destinationLocation
    stopTimes boardIndex boardMinutes = Some closest ->
  exists location,
    destinationLocation = Some location /\
    In (closest_stopTime closest) (drop (S boardIndex) stopTimes) /\
    num_leb (timeToMinutes (arrival_time (closest_stopTime closest))) boardMinutes
      = false /\
    stopById !! st_stop_id (closest_stopTime closest) = Some (closest_stop closest) /\
    distanceKm closest
      = haversineDistanceKm (closest_stop closest) (lat location) (lng location).
Proof.
  unfold pickClosestStopAfterBoard.
  destruct destinationLocation as [location|]; [|discriminate].
  intros H. exists location. split; [reflexivity|].
  set (good := fun c : Closest =>
    num_leb (timeToMinutes (arrival_time (closest_stopTime c))) boardMinutes = false /\
    stopById !! st_stop_id (closest_stopTime c) = Some (closest_stop c) /\
    distanceKm c = haversineDistanceKm (closest_stop c) (lat location) (lng location)).
  enough (forall l acc c,
    foldl (fun closest stopTime =>
      if num_leb (timeToMinutes (arrival_time stopTime)) boardMinutes then closest
      else
        match stopById !! st_stop_id stopTime with
        | None => closest
        | Some stop =>
            let d := haversineDistanceKm stop (lat location) (lng location) in
            match closest with
            | Some c =>
                if num_ltb d (distanceKm c)
                then Some (mkClosest stopTime stop d) else closest
            | None => Some (mkClosest stopTime stop d)
            end
        end) acc l = Some c ->
    acc = Some c \/ (In (closest_stopTime c) l /\ good c)) as Hfold.
  { destruct (Hfold _ _ _ H) as [Habs|[Hin Hg]]; [discriminate|].
    destruct Hg as (? & ? & ?). auto. }
  clear H. induction l as [|stopTime l IH]; intros acc c; simpl.
  - auto.
  - intros H. apply IH in H as [H|[Hin Hg]]; [|right; auto].
    destruct (num_leb (timeToMinutes (arrival_time stopTime)) boardMinutes) eqn:El;
      [now left|].
    destruct (stopById !! st_stop_id stopTime) as [stop|] eqn:Es; [|now left].
    destruct acc as [c0|].
    + destruct (num_ltb _ (distanceKm c0)); [|now left].
      injection H as <-. right. unfold good. simpl. auto.
    + injection H as <-. right. unfold good. simpl. auto.
Qed.

End AlightFacts.

(** C3, as the code has it. The exact match prevails whenever it yields a
    stop: when the first stop-time of the destination after the boarding
    index arrives strictly after the boarding departure and its stop is
    known, that stop-time is the alighting one, whatever the coordinate and
    the distances. The distance-based fallback decides only when a
    destination coordinate is supplied and the exact match yields nothing:
    no stop-time of the destination follows the boarding index, or the first
    one does not arrive strictly after the boarding departure, or its stop is
    unknown; it then picks a later stop-time that is not at or before the
    boarding minute. *)
Theorem proximity_fallback_precondition :
  forall (haversineDistanceKm : Stop -> number -> number -> number)
    (stopById : gmap string Stop) (destination : Stop)
    (destinationLocation : option LatLng) (stopTimes : list StopTime)
    (boardIndex : nat) (boardTime : StopTime),
    (forall i candidate stop,
       destinationIndex destination stopTimes boardIndex = Some i ->
       stopTimes !! i = Some candidate ->
       num_gtb (timeToMinutes (arrival_time candidate))
               (timeToMinutes (departure_time boardTime)) = true ->
       stopById !! st_stop_id candidate = Some stop ->
       chooseAlight haversineDistanceKm stopById destination destinationLocation
         stopTimes boardIndex boardTime = (Some candidate, Some stop)) /\
    (chooseAlight haversineDistanceKm stopById destination destinationLocation
       stopTimes boardIndex boardTime
     <> exactAlight stopById destination stopTimes boardIndex boardTime ->
     (exists location, destinationLocation = Some location) /\
     (destinationIndex destination stopTimes boardIndex = None \/
      exists i candidate,
        destinationIndex destination stopTimes boardIndex = Some i /\
        stopTimes !! i = Some candidate /\
        (num_gtb (timeToMinutes (arrival_time candidate))
                 (timeToMinutes (departure_time boardTime)) = false \/
         stopById !! st_stop_id candidate = None)) /\
     exists closest,
       pickClosestStopAfterBoard haversineDistanceKm stopById destinationLocation
         stopTimes boardIndex (timeToMinutes (departure_time boardTime))
       = Some closest /\
       chooseAlight haversineDistanceKm stopById destination destinationLocation
         stopTimes boardIndex boardTime
       = (Some (closest_stopTime closest), Some (closest_stop closest)) /\
       In (closest_stopTime closest) (drop (S boardIndex) stopTimes) /\
       num_leb (timeToMinutes (arrival_time (closest_stopTime closest)))
               (timeToMinutes (departure_time boardTime)) = false).
Proof.
  intros hav sbi d loc sts bi bt. split.
  - intros i candidate stop Hi Hc Hg Hs.
    unfold chooseAlight.
    assert (exactAlight sbi d sts bi bt = (Some candidate, Some stop)) as ->.
    { apply exactAlight_Some. exists i. auto. }
    reflexivity.
  - intros Hne.
    assert (forall a s, exactAlight sbi d sts bi bt <> (Some a, Some s)) as Hex.
    { intros a s Hex. apply Hne. unfold chooseAlight. now rewrite Hex. }
    assert (exists closest,
      pickClosestStopAfterBoard hav sbi loc sts bi (timeToMinutes (departure_time bt))
        = Some closest /\
      chooseAlight hav sbi d loc sts bi bt
        = (Some (closest_stopTime closest), Some (closest_stop closest)))
      as (closest & Hpick & Hchoose).
    { unfold chooseAlight in *.
      destruct (pickClosestStopAfterBoard hav sbi loc sts bi
                  (timeToMinutes (departure_time bt))) as [closest|].
      - exists closest. split; [reflexivity|].
        destruct (exactAlight sbi d sts bi bt) as [[a|] [s|]]; try reflexivity.
        now destruct (Hex a s).
      - exfalso. apply Hne.
        now destruct (exactAlight sbi d sts bi bt) as [[a|] [s|]]. }
    pose proof (pickClosestStopAfterBoard_Some _ _ _ _ _ _ _ Hpick)
      as (location & Hloc & Hin & Hleb & _).
    split; [eauto|]. split; [|eauto 6].
    destruct (destinationIndex d sts bi) as [i|] eqn:Ei; [right|now left].
    destruct (destinationIndex_Some _ _ _ _ Ei) as (_ & candidate & Hc & _).
    exists i, candidate. repeat split; auto.
    destruct (num_gtb (timeToMinutes (arrival_time candidate))
                (timeToMinutes (departure_time bt))) eqn:Eg; [right|now left].
    destruct (sbi !! st_stop_id candidate) as [stop|] eqn:Es; [|reflexivity].
    exfalso. apply (Hex candidate stop).
    apply exactAlight_Some. exists i. auto.
Qed.

(** C3, as the claim has it, fails on the overnight trip: a stop-time of the
    destination B follows the boarding index, but it does not arrive after
    the boarding departure, and with a destination coordinate the rider is
    told to alight at C, the closest of the later stops. *)
Lemma proximity_chosen_despite_exact_stop_time :
  destinationIndex Sample.lineB Sample.overnightCalls 0 = Some 2%nat /\
  Sample.overnightCalls !! 2%nat = Some (Sample.call "trip1" "B" "00:05:00" 3) /\
  pickClosestStopAfterBoard Sample.flatDistance Sample.lineStops (Some Sample.nearB)
    Sample.overnightCalls 0 (timeToMinutes "23:55:00")
  = Some {| closest_stopTime := Sample.call "trip1" "C" "23:58:00" 2;
            closest_stop := Sample.lineC;
            distanceKm := Fin 1 |} /\
  directCandidate Sample.flatDistance Sample.overnightFeed Sample.lineStops
    Sample.routeById Sample.lineA Sample.lineB (Some Sample.nearB) Sample.trip1
  = Some {| trip := Sample.trip1; route := None;
            boardStop := Sample.lineA; alightStop := Sample.lineC;
            boardTime := "23:55:00"; alightTime := "23:58:00";
            boardSequence := Fin 1; alightSequence := Fin 2 |}.
Proof. repeat split; vm_compute; reflexivity. Qed.


(** ** The two sort orders *)

Section OrderFacts.
Local Open Scope Q_scope.

Lemma isFinite_not_NaN (a : number) : isFinite a = true -> isNaN a = false.
Proof. now destruct a. Qed.

Lemma lex_le_trans (a1 a2 b1 b2 c1 c2 : number) :
  isFinite a1 = true -> isFinite b1 = true -> isFinite c1 = true ->
  lex_le a1 a2 b1 b2 -> lex_le b1 b2 c1 c2 -> lex_le a1 a2 c1 c2.
Proof.
  destruct a1 as [| |p1|], b1 as [| |q1|], c1 as [| |r1|]; try discriminate.
  intros _ _ _. unfold lex_le.
  rewrite !num_ltb_Fin, !num_eqb_Fin.
  intros [H|[H H']] [K|[K K']]; try (left; lra).
  right. split; [lra|]. now apply (num_leb_trans a2 b2 c2).
Qed.

Lemma lex_cmp_cases (p1 q1 : double) (a2 b2 : number) :
  (p1 < q1 /\ lex_cmp (Fin p1) a2 (Fin q1) b2 = num_sub (Fin p1) (Fin q1)) \/
  (q1 < p1 /\ lex_cmp (Fin p1) a2 (Fin q1) b2 = num_sub (Fin p1) (Fin q1)) \/
  (p1 == q1 /\ lex_cmp (Fin p1) a2 (Fin q1) b2 = num_sub a2 b2).
Proof.
  unfold lex_cmp. cbv zeta.
  rewrite (num_eqb_sub (Fin p1) (Fin q1)) by reflexivity.
  destruct (num_ltb (Fin p1) (Fin q1)) eqn:E1.
  - apply num_ltb_Fin in E1. left. now split.
  - destruct (num_ltb (Fin q1) (Fin p1)) eqn:E2.
    + apply num_ltb_Fin in E2. right. left. now split.
    + apply not_true_iff_false in E1, E2. rewrite num_ltb_Fin in E1, E2.
      right. right. split; [lra|reflexivity].
Qed.

(** The comparator places [a] after [b] only when [b] is no later, and
    before [b] only when [a] is no later. *)
Lemma lex_cmp_gt (a1 a2 b1 b2 : number) :
  isFinite a1 = true -> isFinite b1 = true ->
  num_gtb (lex_cmp a1 a2 b1 b2) zero = true -> lex_le b1 b2 a1 a2.
Proof.
  destruct a1 as [| |p1|], b1 as [| |q1|]; try discriminate.
  intros _ _. unfold lex_le. rewrite num_ltb_Fin, num_eqb_Fin.
  destruct (lex_cmp_cases p1 q1 a2 b2) as [[H ->]|[[H ->]|[H ->]]];
    rewrite num_gtb_sub.
  - rewrite num_ltb_Fin. intros K. exfalso. lra.
  - intros _. now left.
  - intros K. right. split; [lra|]. now apply num_ltb_leb.
Qed.

Lemma lex_cmp_le (a1 a2 b1 b2 : number) :
  isFinite a1 = true -> isNaN a2 = false ->
  isFinite b1 = true -> isNaN b2 = false ->
  num_gtb (lex_cmp a1 a2 b1 b2) zero = false -> lex_le a1 a2 b1 b2.
Proof.
  destruct a1 as [| |p1|], b1 as [| |q1|]; try discriminate.
  intros _ Ha2 _ Hb2. unfold lex_le. rewrite num_ltb_Fin, num_eqb_Fin.
  destruct (lex_cmp_cases p1 q1 a2 b2) as [[H ->]|[[H ->]|[H ->]]];
    rewrite num_gtb_sub.
  - intros _. now left.
  - rewrite <- not_true_iff_false, num_ltb_Fin. intros K. exfalso. lra.
  - intros K. right. split; [exact H|].
    rewrite (num_leb_not_ltb a2 b2 Ha2 Hb2). now rewrite K.
Qed.

Lemma num_leb_of_not_gtb_sub (a b : number) :
  isNaN a = false -> isNaN b = false ->
  num_gtb (num_sub a b) zero = false -> num_leb a b = true.
Proof.
  intros Ha Hb. rewrite num_gtb_sub, (num_leb_not_ltb a b Ha Hb).
  now intros ->.
Qed.

Lemma num_leb_of_gtb_sub (a b : number) :
  num_gtb (num_sub a b) zero = true -> num_leb b a = true.
Proof. rewrite num_gtb_sub. apply num_ltb_leb. Qed.
End OrderFacts.

(** ** Lists without repetition *)

Section NoDupFacts.
Context {A B K : Type}.

(** A concatenation has no repetition when its pieces have none and
    carry pairwise different keys. *)
Lemma NoDup_flat_map_key (f : A -> list B) (g : B -> K) (k : A -> K) (l : list A) :
  (forall x b, In x l -> In b (f x) -> g b = k x) ->
  List.NoDup (map k l) ->
  (forall x, In x l -> List.NoDup (f x)) ->
  List.NoDup (flat_map f l).
Proof.
  induction l as [|x l IH]; simpl; intros Hkey Hk Hf; [constructor|].
  inversion Hk as [|? ? Hx Hk']; subst.
  apply List.NoDup_app.
  - apply Hf. now left.
  - apply IH; auto.
  - intros b Hb Hb'. apply in_flat_map in Hb' as (y & Hy & Hb').
    apply Hx. apply in_map_iff. exists y. split; [|exact Hy].
    rewrite <- (Hkey x b), <- (Hkey y b); auto.
Qed.

Lemma NoDup_option_list (o : option A) : List.NoDup (option_list o).
Proof. destruct o; simpl; repeat constructor. now intros []. Qed.

Lemma In_option_list (o : option A) (x : A) : In x (option_list o) <-> o = Some x.
Proof.
  destruct o; simpl; split; try easy.
  - now intros [->|[]].
  - intros [= ->]. now left.
Qed.
End NoDupFacts.

Lemma filter_Permutation_bool {A : Type} (f : A -> bool) (l l' : list A) :
  Permutation l l' -> Permutation (List.filter f l) (List.filter f l').
Proof.
  induction 1 as [|x l l' _ IH|x y l|l l' l'' _ IH1 _ IH2]; simpl.
  - constructor.
  - destruct (f x); [now constructor|exact IH].
  - destruct (f x), (f y); try reflexivity. apply perm_swap.
  - now transitivity (List.filter f l').
Qed.

Lemma finiteTimes_In (trips : list Trip)
    (stopTimesByTrip : gmap string (list StopTime)) (t : Trip)
    (stopTimes : list StopTime) (time : StopTime) :
  finiteTimes trips stopTimesByTrip = true ->
  In t trips -> stopTimesByTrip !! trip_id t = Some stopTimes -> In time stopTimes ->
  isFinite (timeToMinutes (arrival_time time)) = true /\
  isFinite (timeToMinutes (departure_time time)) = true.
Proof.
  unfold finiteTimes, stopTimesOf. intros H Ht Hs Hin.
  rewrite forallb_forall in H. specialize (H t Ht).
  rewrite Hs in H. simpl in H.
  rewrite forallb_forall in H. specialize (H time Hin).
  now apply andb_prop in H.
Qed.

Lemma lookup_In {A : Type} (l : list A) (i : nat) (x : A) :
  l !! i = Some x -> In x l.
Proof.
  intros H. apply list_elem_of_In. apply list_elem_of_lookup. eauto.
Qed.

(** ** Direct candidates *)

Section DirectFacts.
Variable haversineDistanceKm : Stop -> number -> number -> number.
Variable trips : list Trip.
Variable stopTimesByTrip : gmap string (list StopTime).
Variable stopById : gmap string Stop.
Variable routeById : gmap string Route.
Variables origin destination : Stop.
Variable destinationLocation : option LatLng.
Variable nowMinutes : number.

Local Abbreviation the_directCandidate :=
  (directCandidate haversineDistanceKm stopTimesByTrip stopById routeById
     origin destination destinationLocation).
Local Abbreviation the_candidates :=
  (candidates haversineDistanceKm trips stopTimesByTrip stopById routeById
     origin destination destinationLocation).

(** A candidate rides the trip that pushed it and boards at a stop-time of
    that trip. *)
Lemma directCandidate_Some (t : Trip) (c : CandidateTrip) :
  the_directCandidate t = Some c ->
  trip c = t /\
  exists stopTimes boardIndex boardStopTime,
    stopTimesByTrip !! trip_id t = Some stopTimes /\
    findIndex (is_stop origin) stopTimes = Some boardIndex /\
    stopTimes !! boardIndex = Some boardStopTime /\
    boardTime c = departure_time boardStopTime /\
    boardSequence c = stop_sequence boardStopTime.
Proof.
  unfold directCandidate.
  destruct (stopTimesByTrip !! trip_id t) as [stopTimes|]; [|discriminate].
  destruct (findIndex (is_stop origin) stopTimes) as [boardIndex|] eqn:Ei;
    [|discriminate].
  destruct (stopTimes !! boardIndex) as [boardStopTime|] eqn:Eb; [|discriminate].
  destruct (chooseAlight _ _ _ _ _ _ _) as [[a|] [s|]]; try discriminate.
  destruct (num_geb _ _); [discriminate|].
  destruct (stopById !! st_stop_id boardStopTime); [|discriminate].
  intros [= <-]. simpl. split; [reflexivity|].
  exists stopTimes, boardIndex, boardStopTime. auto.
Qed.

Lemma candidates_In (c : CandidateTrip) :
  In c the_candidates <-> exists t, In t trips /\ the_directCandidate t = Some c.
Proof.
  unfold candidates. rewrite in_flat_map.
  split; intros (t & Ht & H); exists t; split; auto; now apply In_option_list.
Qed.

Lemma candidates_finite :
  finiteTimes trips stopTimesByTrip = true ->
  Forall (fun c => isFinite (timeToMinutes (boardTime c)) = true) the_candidates.
Proof.
  intros Hfin. apply List.Forall_forall. intros c Hc.
  apply candidates_In in Hc as (t & Ht & Hc).
  apply directCandidate_Some in Hc as (_ & sts & bi & bt & Hs & _ & Hb & -> & _).
  apply lookup_In in Hb.
  now destruct (finiteTimes_In trips stopTimesByTrip t sts bt Hfin Ht Hs Hb).
Qed.

Lemma candidates_NoDup :
  List.NoDup (map trip_id trips) -> List.NoDup the_candidates.
Proof.
  intros Hnd. unfold candidates.
  apply (NoDup_flat_map_key _ (fun c => trip_id (trip c)) trip_id).
  - intros t c _ Hc. apply In_option_list in Hc.
    now apply directCandidate_Some in Hc as [-> _].
  - exact Hnd.
  - intros t _. apply NoDup_option_list.
Qed.

Lemma candidates_sorted :
  finiteTimes trips stopTimesByTrip = true ->
  StronglySorted boardsNoLater (js_sort byBoardTime the_candidates).
Proof.
  intros Hfin.
  apply (js_sort_sorted byBoardTime boardsNoLater
           (fun c => isFinite (timeToMinutes (boardTime c)) = true)).
  - intros x y z _ _ _. apply num_leb_trans.
  - intros x y _ _. apply num_leb_of_gtb_sub.
  - intros x y Hx Hy. apply num_leb_of_not_gtb_sub; now apply isFinite_not_NaN.
  - now apply candidates_finite.
Qed.

End DirectFacts.


(** ** Direct selection *)

(** C2. End-of-service rollover for direct trips, for two different stops
    and a feed whose times are finite. When direct candidates exist and none
    boards at or after [nowMinutes], the result is direct, carries the note
    "No more departures today. Showing the next available trip.", and shows
    all the candidates in ascending boarding order: the earliest one as next
    trip, the others as alternatives. When some candidate boards at or after
    [nowMinutes], the result is direct, carries no note, and shows exactly
    the upcoming candidates in ascending boarding order, the earliest
    upcoming one as next trip. *)
Theorem end_of_service_rollover :
  forall (haversineDistanceKm : Stop -> number -> number -> number)
    (trips : list Trip) (stopTimesByTrip : gmap string (list StopTime))
    (stopById : gmap string Stop) (routeById : gmap string Route)
    (origin destination : Stop) (destinationLocation : option LatLng)
    (nowMinutes : number),
    stop_id origin <> stop_id destination ->
    finiteTimes trips stopTimesByTrip = true ->
    candidates haversineDistanceKm trips stopTimesByTrip stopById routeById
      origin destination destinationLocation <> [] ->
    ((forall c,
        In c (candidates haversineDistanceKm trips stopTimesByTrip stopById
                routeById origin destination destinationLocation) ->
        num_geb (timeToMinutes (boardTime c)) nowMinutes = false) ->
     exists nextTrip alternatives,
       plan haversineDistanceKm trips stopTimesByTrip stopById routeById
         origin destination destinationLocation nowMinutes
       = PlanDirect nextTrip alternatives
           (Some "No more departures today. Showing the next available trip.") /\
       Permutation (nextTrip :: alternatives)
         (candidates haversineDistanceKm trips stopTimesByTrip stopById
            routeById origin destination destinationLocation) /\
       StronglySorted boardsNoLater (nextTrip :: alternatives)) /\
    ((exists c,
        In c (candidates haversineDistanceKm trips stopTimesByTrip stopById
                routeById origin destination destinationLocation) /\
        num_geb (timeToMinutes (boardTime c)) nowMinutes = true) ->
     exists nextTrip alternatives,
       plan haversineDistanceKm trips stopTimesByTrip stopById routeById
         origin destination destinationLocation nowMinutes
       = PlanDirect nextTrip alternatives None /\
       Permutation (nextTrip :: alternatives)
         (List.filter
            (fun c => num_geb (timeToMinutes (boardTime c)) nowMinutes)
            (candidates haversineDistanceKm trips stopTimesByTrip stopById
               routeById origin destination destinationLocation)) /\
       StronglySorted boardsNoLater (nextTrip :: alternatives)).
Proof.
  intros hav trips stbt sbi rbi o d loc now Hne Hfin Hcands.
  pose proof (candidates_sorted hav trips stbt sbi rbi o d loc Hfin) as Hsorted.
  pose proof (js_sort_Permutation byBoardTime
                (candidates hav trips stbt sbi rbi o d loc)) as Hperm.
  destruct (plan_cases hav trips stbt sbi rbi o d loc now Hne)
    as [(_ & first & rest & Es & Hc)|[(Habs & _)|(Habs & _)]];
    [|contradiction|contradiction].
  rewrite Es in Hsorted, Hperm.
  change (fun c => num_geb (timeToMinutes (boardTime c)) now) with (isUpcoming now).
  split.
  - intros Hnone.
    destruct Hc as [[_ Hp]|(n & alts & Ef & _)].
    + exists first, rest. auto.
    + exfalso.
      assert (In n (List.filter (isUpcoming now) (first :: rest))) as Hn
        by (rewrite Ef; now left).
      apply filter_In in Hn as [Hn Hup].
      apply (Permutation_in _ Hperm) in Hn.
      unfold isUpcoming in Hup. rewrite (Hnone n Hn) in Hup. discriminate.
  - intros (c & Hc' & Hup).
    destruct Hc as [[Ef _]|(n & alts & Ef & Hp)].
    + exfalso.
      apply (Permutation_in _ (Permutation_sym Hperm)) in Hc'.
      rewrite filter_nil_iff in Ef. specialize (Ef c Hc').
      unfold isUpcoming in Ef. congruence.
    + exists n, alts. split; [exact Hp|]. rewrite <- Ef. split.
      * now apply filter_Permutation_bool.
      * now apply filter_StronglySorted.
Qed.

(** The rollover on the feed of two direct trips, asked at 10:00. *)
Lemma end_of_service_rollover_witness :
  exists nextTrip alternatives,
    plan Sample.flatDistance [Sample.trip1; Sample.trip2] Sample.directFeed
      Sample.stopById Sample.routeById Sample.stopA Sample.stopB None (Fin 600)
    = PlanDirect nextTrip alternatives
        (Some "No more departures today. Showing the next available trip.") /\
    Permutation (nextTrip :: alternatives)
      (candidates Sample.flatDistance [Sample.trip1; Sample.trip2]
         Sample.directFeed Sample.stopById Sample.routeById
         Sample.stopA Sample.stopB None) /\
    StronglySorted boardsNoLater (nextTrip :: alternatives).
Proof.
  apply (end_of_service_rollover Sample.flatDistance [Sample.trip1; Sample.trip2]
           Sample.directFeed Sample.stopById Sample.routeById
           Sample.stopA Sample.stopB None (Fin 600)).
  - discriminate.
  - reflexivity.
  - vm_compute. discriminate.
  - intros c Hc. vm_compute in Hc.
    destruct Hc as [<-|[<-|[]]]; vm_compute; reflexivity.
Defined.


(** ** The buckets of [leg2ByStop] *)

Lemma push_all_app (m : gmap string (list CandidateTrip))
    (es es' : list (string * CandidateTrip)) :
  push_all m (es ++ es') = push_all (push_all m es) es'.
Proof. unfold push_all. apply foldl_app. Qed.

Lemma push_all_lookup (entries : list (string * CandidateTrip)) :
  forall (m : gmap string (list CandidateTrip)) (id : string)
    (l : list CandidateTrip),
    push_all m entries !! id = Some l ->
    l = default [] (m !! id) ++ bucket id entries.
Proof.
  induction entries as [|[k leg] es IH]; intros m id l; simpl.
  - intros ->. simpl. now rewrite app_nil_r.
  - intros H. apply IH in H. subst l. unfold push_leg2, bucket. simpl.
    destruct (String.eqb_spec k id) as [->|Hne].
    + rewrite lookup_insert_eq. simpl. now rewrite <- app_assoc.
    + now rewrite lookup_insert_ne.
Qed.

Section BucketFacts.
Variable trips : list Trip.
Variable stopTimesByTrip : gmap string (list StopTime).
Variable stopById : gmap string Stop.
Variable routeById : gmap string Route.
Variable destination : Stop.

Local Abbreviation the_entriesOfTrip :=
  (leg2EntriesOfTrip stopTimesByTrip stopById routeById destination).
Local Abbreviation the_entries :=
  (leg2Entries trips stopTimesByTrip stopById routeById destination).
Local Abbreviation the_leg2ByStop :=
  (leg2ByStop trips stopTimesByTrip stopById routeById destination).

Lemma add_leg2s_push_all (t : Trip) (alightStopTime : StopTime)
    (boardTimes : list StopTime) :
  forall m,
    add_leg2s stopById routeById t alightStopTime m boardTimes
    = push_all m
        (flat_map (fun boardStopTime =>
           match createLeg stopById routeById t boardStopTime alightStopTime with
           | None => []
           | Some leg2 => [(st_stop_id boardStopTime, leg2)]
           end) boardTimes).
Proof.
  unfold add_leg2s.
  induction boardTimes as [|b bs IH]; intros m; simpl; [reflexivity|].
  rewrite push_all_app, IH.
  now destruct (createLeg stopById routeById t b alightStopTime).
Qed.

Lemma leg2ByStop_push_all : the_leg2ByStop = push_all ∅ the_entries.
Proof.
  unfold leg2ByStop, leg2Entries. generalize (∅ : gmap string (list CandidateTrip)).
  induction trips as [|t ts IH]; intros m; simpl; [reflexivity|].
  rewrite push_all_app, IH. f_equal.
  unfold leg2EntriesOfTrip.
  destruct (stopTimesByTrip !! trip_id t) as [stopTimes|]; [|reflexivity].
  destruct (findIndex (is_stop destination) stopTimes) as [[|destIndex]|];
    try reflexivity.
  destruct (stopTimes !! S destIndex) as [alightStopTime|]; [|reflexivity].
  apply add_leg2s_push_all.
Qed.

(** A bucket holds the legs pushed under its key, in the order pushed. *)
Lemma leg2ByStop_lookup (id : string) (l : list CandidateTrip) :
  the_leg2ByStop !! id = Some l -> l = bucket id the_entries.
Proof.
  rewrite leg2ByStop_push_all. intros H.
  apply push_all_lookup in H. now rewrite lookup_empty in H.
Qed.

Lemma createLeg_Some (t : Trip) (boardStopTime alightStopTime : StopTime)
    (leg : CandidateTrip) :
  createLeg stopById routeById t boardStopTime alightStopTime = Some leg ->
  trip leg = t /\
  boardTime leg = departure_time boardStopTime /\
  alightTime leg = arrival_time alightStopTime /\
  boardSequence leg = stop_sequence boardStopTime /\
  alightSequence leg = stop_sequence alightStopTime /\
  stopById !! st_stop_id boardStopTime = Some (boardStop leg) /\
  stopById !! st_stop_id alightStopTime = Some (alightStop leg).
Proof.
  unfold createLeg.
  destruct (stopById !! st_stop_id boardStopTime); [|discriminate].
  destruct (stopById !! st_stop_id alightStopTime); [|discriminate].
  intros [= <-]. simpl. auto 10.
Qed.

(** A second leg boards before the first call at the destination on its
    trip and alights there. *)
Lemma leg2EntriesOfTrip_In (t : Trip) (id : string) (leg2 : CandidateTrip) :
  In (id, leg2) (the_entriesOfTrip t) ->
  exists stopTimes destIndex alightStopTime boardStopTime,
    stopTimesByTrip !! trip_id t = Some stopTimes /\
    findIndex (is_stop destination) stopTimes = Some destIndex /\
    stopTimes !! destIndex = Some alightStopTime /\
    In boardStopTime (take destIndex stopTimes) /\
    createLeg stopById routeById t boardStopTime alightStopTime = Some leg2 /\
    id = st_stop_id boardStopTime.
Proof.
  unfold leg2EntriesOfTrip.
  destruct (stopTimesByTrip !! trip_id t) as [stopTimes|]; [|intros []].
  destruct (findIndex (is_stop destination) stopTimes) as [[|destIndex]|] eqn:Ei;
    try (intros []).
  destruct (stopTimes !! S destIndex) as [alightStopTime|] eqn:Ea; [|intros []].
  rewrite in_flat_map. intros (boardStopTime & Hin & H).
  destruct (createLeg stopById routeById t boardStopTime alightStopTime) as [leg|] eqn:El;
    [|destruct H].
  destruct H as [[= <- <-]|[]].
  exists stopTimes, (S destIndex), alightStopTime, boardStopTime. auto 10.
Qed.

Lemma bucket_In (id : string) (entries : list (string * CandidateTrip))
    (leg2 : CandidateTrip) :
  In leg2 (bucket id entries) <-> In (id, leg2) entries.
Proof.
  unfold bucket. rewrite in_map_iff. split.
  - intros ([k leg] & <- & H). apply filter_In in H as [H Hk].
    simpl in *. apply String.eqb_eq in Hk. now subst.
  - intros H. exists (id, leg2). split; [reflexivity|].
    apply filter_In. split; [exact H|]. apply String.eqb_refl.
Qed.

End BucketFacts.

(** ** Transfer pairings: no repetition, finite keys, sorted *)

Lemma map_flat_map {A B C : Type} (g : B -> C) (f : A -> list B) (l : list A) :
  map g (flat_map f l) = flat_map (fun x => map g (f x)) l.
Proof.
  induction l as [|x l IH]; simpl; [reflexivity|].
  now rewrite map_app, IH.
Qed.

Lemma NoDup_map_take {A B : Type} (f : A -> B) (n : nat) (l : list A) :
  List.NoDup (map f l) -> List.NoDup (map f (take n l)).
Proof.
  intros H. rewrite <- (take_drop n l), map_app in H.
  now apply NoDup_app_remove_r in H.
Qed.

Lemma NoDup_map_drop {A B : Type} (f : A -> B) (n : nat) (l : list A) :
  List.NoDup (map f l) -> List.NoDup (map f (drop n l)).
Proof.
  intros H. rewrite <- (take_drop n l), map_app in H.
  now apply NoDup_app_remove_l in H.
Qed.

Lemma NoDup_map_filter {A B : Type} (g : A -> B) (f : A -> bool) (l : list A) :
  List.NoDup (map g l) -> List.NoDup (map g (List.filter f l)).
Proof.
  induction l as [|x l IH]; simpl; intros H; [constructor|].
  inversion H as [|? ? Hx Hl]; subst.
  destruct (f x); [|now apply IH].
  simpl. constructor; [|now apply IH].
  intros Hin. apply Hx. apply in_map_iff in Hin as (y & Hy & Hin).
  apply in_map_iff. exists y. split; [exact Hy|].
  now apply filter_In in Hin.
Qed.

Lemma joinLegs_NoDup (leg1 : CandidateTrip) (leg2Options : list CandidateTrip) :
  List.NoDup leg2Options -> List.NoDup (joinLegs leg1 leg2Options).
Proof.
  intros H. unfold joinLegs.
  apply (NoDup_flat_map_key _ secondLeg (fun leg2 => leg2)).
  - intros leg2 p _ Hp.
    destruct (num_ltb _ zero); [destruct Hp|].
    destruct (num_ltb _ zero); [destruct Hp|].
    now destruct Hp as [<-|[]].
  - now rewrite map_id.
  - intros leg2 _.
    destruct (num_ltb _ zero); [constructor|].
    destruct (num_ltb _ zero); repeat constructor. now intros [].
Qed.

Section TransferFacts.
Variable trips : list Trip.
Variable stopTimesByTrip : gmap string (list StopTime).
Variable stopById : gmap string Stop.
Variable routeById : gmap string Route.
Variables origin destination : Stop.

Hypothesis trip_ids_distinct : List.NoDup (map trip_id trips).
Hypothesis sequences_distinct :
  forall t, In t trips ->
    List.NoDup (map stop_sequence (stopTimesOf stopTimesByTrip t)).

Local Abbreviation the_entriesOfTrip :=
  (leg2EntriesOfTrip stopTimesByTrip stopById routeById destination).
Local Abbreviation the_entries :=
  (leg2Entries trips stopTimesByTrip stopById routeById destination).
Local Abbreviation the_leg2ByStop :=
  (leg2ByStop trips stopTimesByTrip stopById routeById destination).
Local Abbreviation the_transferPlansOfTrip :=
  (transferPlansOfTrip trips stopTimesByTrip stopById routeById origin destination).
Local Abbreviation the_transferPlans :=
  (transferPlans trips stopTimesByTrip stopById routeById origin destination).

Lemma leg2EntriesOfTrip_NoDup (t : Trip) :
  In t trips -> List.NoDup (map snd (the_entriesOfTrip t)).
Proof.
  intros Ht. pose proof (sequences_distinct t Ht) as Hseq.
  unfold leg2EntriesOfTrip. unfold stopTimesOf in Hseq.
  destruct (stopTimesByTrip !! trip_id t) as [stopTimes|]; [|constructor].
  simpl in Hseq.
  destruct (findIndex (is_stop destination) stopTimes) as [[|destIndex]|];
    try constructor.
  destruct (stopTimes !! S destIndex) as [alightStopTime|]; [|constructor].
  rewrite map_flat_map.
  apply (NoDup_flat_map_key _ boardSequence stop_sequence).
  - intros b leg _ Hleg.
    destruct (createLeg stopById routeById t b alightStopTime) as [leg2|] eqn:El;
      [|destruct Hleg].
    destruct Hleg as [<-|[]]. simpl.
    now apply createLeg_Some in El as (_ & _ & _ & -> & _).
  - now apply NoDup_map_take.
  - intros b _.
    destruct (createLeg stopById routeById t b alightStopTime);
      repeat constructor. now intros [].
Qed.

Lemma leg2Entries_NoDup : List.NoDup (map snd the_entries).
Proof.
  unfold leg2Entries. rewrite map_flat_map.
  apply (NoDup_flat_map_key _ (fun leg => trip_id (trip leg)) trip_id).
  - intros t leg _ Hleg. apply in_map_iff in Hleg as ([id leg'] & <- & Hin).
    apply leg2EntriesOfTrip_In in Hin as (? & ? & a & b & _ & _ & _ & _ & El & _).
    simpl. now apply createLeg_Some in El as (-> & _).
  - exact trip_ids_distinct.
  - intros t Ht. now apply leg2EntriesOfTrip_NoDup.
Qed.

Lemma leg2ByStop_NoDup (id : string) (l : list CandidateTrip) :
  the_leg2ByStop !! id = Some l -> List.NoDup l.
Proof.
  intros H. apply leg2ByStop_lookup in H as ->.
  apply NoDup_map_filter, leg2Entries_NoDup.
Qed.

Lemma transferPlansOfTrip_NoDup (t : Trip) :
  In t trips -> List.NoDup (the_transferPlansOfTrip t).
Proof.
  intros Ht. pose proof (sequences_distinct t Ht) as Hseq.
  unfold transferPlansOfTrip. unfold stopTimesOf in Hseq.
  destruct (stopTimesByTrip !! trip_id t) as [stopTimes|]; [|constructor].
  simpl in Hseq.
  destruct (findIndex (is_stop origin) stopTimes) as [originIndex|]; [|constructor].
  destruct (length stopTimes - 1 <=? originIndex)%nat; [constructor|].
  destruct (stopTimes !! originIndex) as [boardStopTime|]; [|constructor].
  apply (NoDup_flat_map_key _ (fun p => alightSequence (firstLeg p)) stop_sequence).
  - intros a p _ Hp.
    destruct (createLeg stopById routeById t boardStopTime a) as [leg1|] eqn:El;
      [|destruct Hp].
    destruct (the_leg2ByStop !! st_stop_id a) as [opts|]; [|destruct Hp].
    apply joinLegs_In in Hp as (leg2 & _ & _ & _ & ->). simpl.
    now apply createLeg_Some in El as (_ & _ & _ & _ & -> & _).
  - now apply NoDup_map_drop.
  - intros a _.
    destruct (createLeg stopById routeById t boardStopTime a) as [leg1|];
      [|constructor].
    destruct (the_leg2ByStop !! st_stop_id a) as [opts|] eqn:Eo; [|constructor].
    apply joinLegs_NoDup. now apply (leg2ByStop_NoDup (st_stop_id a)).
Qed.

Lemma transferPlans_NoDup : List.NoDup the_transferPlans.
Proof.
  unfold transferPlans.
  apply (NoDup_flat_map_key _ (fun p => trip_id (trip (firstLeg p))) trip_id).
  - intros t p _ Hp.
    apply transferPlansOfTrip_In in Hp
      as (? & ? & b & a & leg1 & opts & _ & _ & _ & _ & El & _ & Hp).
    apply joinLegs_In in Hp as (leg2 & _ & _ & _ & ->). simpl.
    now apply createLeg_Some in El as (-> & _).
  - exact trip_ids_distinct.
  - intros t Ht. now apply transferPlansOfTrip_NoDup.
Qed.

End TransferFacts.

Section TransferOrder.
Variable trips : list Trip.
Variable stopTimesByTrip : gmap string (list StopTime).
Variable stopById : gmap string Stop.
Variable routeById : gmap string Route.
Variables origin destination : Stop.

Hypothesis times_finite : finiteTimes trips stopTimesByTrip = true.

Local Abbreviation the_transferPlans :=
  (transferPlans trips stopTimesByTrip stopById routeById origin destination).

Lemma transferPlans_comparable : Forall comparableKeys the_transferPlans.
Proof.
  apply List.Forall_forall. intros p Hp.
  unfold transferPlans in Hp. apply in_flat_map in Hp as (t & Ht & Hp).
  apply transferPlansOfTrip_In in Hp
    as (sts & oi & b & a & leg1 & opts & Hs & _ & Hb & _ & El & Ho & Hp).
  apply joinLegs_In in Hp as (leg2 & Hleg2 & _ & _ & ->).
  apply createLeg_Some in El as (_ & Hboard & _).
  apply lookup_In in Hb.
  destruct (finiteTimes_In trips stopTimesByTrip t sts b times_finite Ht Hs Hb)
    as [_ Hfin1].
  apply leg2ByStop_lookup in Ho as ->.
  apply bucket_In in Hleg2. unfold leg2Entries in Hleg2.
  apply in_flat_map in Hleg2 as (t2 & Ht2 & Hleg2).
  apply leg2EntriesOfTrip_In in Hleg2
    as (sts2 & di & a2 & b2 & Hs2 & _ & Ha2 & _ & El2 & _).
  apply createLeg_Some in El2 as (_ & _ & Halight & _).
  apply lookup_In in Ha2.
  destruct (finiteTimes_In trips stopTimesByTrip t2 sts2 a2 times_finite Ht2 Hs2 Ha2)
    as [Hfin2 _].
  unfold comparableKeys, minutesBetween. simpl. rewrite Hboard, Halight.
  split; [exact Hfin1|]. now apply num_sub_not_NaN.
Qed.

Lemma transferPlans_sorted :
  StronglySorted transferNoLater (js_sort byBoardTimeThenTotal the_transferPlans).
Proof.
  apply (js_sort_sorted byBoardTimeThenTotal transferNoLater comparableKeys).
  - intros x y z [? ?] [? ?] [? ?]. now apply lex_le_trans.
  - intros x y [? ?] [? ?]. now apply lex_cmp_gt.
  - intros x y [? ?] [? ?]. now apply lex_cmp_le.
  - apply transferPlans_comparable.
Qed.

End TransferOrder.

(** ** The alternatives *)

(** C6. Alternatives ordering and non-duplication, on a feed whose times
    are finite, whose trips have different ids and whose stop-times have
    different sequence numbers within a trip. In a direct result the
    alternatives are in ascending order of boarding time, none of them
    boards before the next trip, and none of them is the next trip. In a
    transfer result the alternatives are in ascending order of first-leg
    boarding time, then of total minutes, none of them comes before the next
    transfer in that order, and none of them is the next transfer. *)
Theorem alternatives_sorted_and_distinct :
  forall (haversineDistanceKm : Stop -> number -> number -> number)
    (trips : list Trip) (stopTimesByTrip : gmap string (list StopTime))
    (stopById : gmap string Stop) (routeById : gmap string Route)
    (origin destination : Stop) (destinationLocation : option LatLng)
    (nowMinutes : number),
    finiteTimes trips stopTimesByTrip = true ->
    List.NoDup (map trip_id trips) ->
    (forall t, In t trips ->
       List.NoDup (map stop_sequence (stopTimesOf stopTimesByTrip t))) ->
    match plan haversineDistanceKm trips stopTimesByTrip stopById routeById
            origin destination destinationLocation nowMinutes with
    | PlanError _ => True
    | PlanDirect nextTrip alternatives _ =>
        StronglySorted boardsNoLater alternatives /\
        Forall (boardsNoLater nextTrip) alternatives /\
        ~ In nextTrip alternatives
    | PlanTransfer nextTransfer alternatives _ =>
        StronglySorted transferNoLater alternatives /\
        Forall (transferNoLater nextTransfer) alternatives /\
        ~ In nextTransfer alternatives
    end.
Proof.
  intros hav trips stbt sbi rbi o d loc now Hfin Hids Hseqs.
  assert (forall (A : Type) (le : A -> A -> Prop) (x : A) (l : list A),
            StronglySorted le (x :: l) -> List.NoDup (x :: l) ->
            StronglySorted le l /\ Forall (le x) l /\ ~ In x l) as Hsplit.
  { intros A le x l Hs Hn. inversion Hs; subst. inversion Hn; subst. auto. }
  unfold plan. destruct (String.eqb _ _); [exact I|].
  destruct (js_sort byBoardTime (candidates hav trips stbt sbi rbi o d loc))
    as [|first rest] eqn:Es.
  - pose proof (transferPlans_sorted trips stbt sbi rbi o d Hfin) as Hsorted.
    pose proof (js_sort_NoDup byBoardTimeThenTotal _
                  (transferPlans_NoDup trips stbt sbi rbi o d Hids Hseqs)) as Hnodup.
    destruct (js_sort byBoardTimeThenTotal (transferPlans trips stbt sbi rbi o d))
      as [|tfirst trest]; [exact I|].
    destruct (List.filter _ (tfirst :: trest)) as [|n alts] eqn:Ef.
    + now apply Hsplit.
    + apply Hsplit; rewrite <- Ef.
      * now apply filter_StronglySorted.
      * now apply List.NoDup_filter.
  - pose proof (candidates_sorted hav trips stbt sbi rbi o d loc Hfin) as Hsorted.
    pose proof (js_sort_NoDup byBoardTime _
                  (candidates_NoDup hav trips stbt sbi rbi o d loc Hids)) as Hnodup.
    rewrite Es in Hsorted, Hnodup.
    destruct (List.filter _ (first :: rest)) as [|n alts] eqn:Ef.
    + now apply Hsplit.
    + apply Hsplit; rewrite <- Ef.
      * now apply filter_StronglySorted.
      * now apply List.NoDup_filter.
Qed.

(** The feed of two direct trips, asked at 07:00: the 08:00 trip is next,
    the 09:00 trip the alternative. *)
Lemma alternatives_sorted_and_distinct_witness :
  exists nextTrip alternative,
    plan Sample.flatDistance [Sample.trip1; Sample.trip2] Sample.directFeed
      Sample.stopById Sample.routeById Sample.stopA Sample.stopB None (Fin 420)
    = PlanDirect nextTrip [alternative] None /\
    StronglySorted boardsNoLater [alternative] /\
    Forall (boardsNoLater nextTrip) [alternative] /\
    ~ In nextTrip [alternative].
Proof.
  do 2 eexists. split; [vm_compute; reflexivity|].
  apply (alternatives_sorted_and_distinct Sample.flatDistance
           [Sample.trip1; Sample.trip2] Sample.directFeed Sample.stopById
           Sample.routeById Sample.stopA Sample.stopB None (Fin 420)).
  - reflexivity.
  - repeat (constructor; [simpl; intuition discriminate|]). constructor.
  - intros t [<-|[<-|[]]]; vm_compute;
      repeat (constructor; [simpl; intuition discriminate|]); constructor.
Defined.


(** Two pairings that board at the same minute: the join meets the one
    through trip3 first, the sort puts the shorter one, through trip2, first. *)
Example transfer_tie_break_sample :
  forall haversineDistanceKm,
    map (fun p => (trip_id (trip (secondLeg p)), totalMinutes p))
      (transfersOf
         (plan haversineDistanceKm [Sample.trip1; Sample.trip3; Sample.trip2]
            Sample.tieFeed Sample.stopById Sample.routeById
            Sample.stopA Sample.stopB None zero))
    = [("trip2", Fin 45); ("trip3", Fin 55)] /\
    map (fun p => trip_id (trip (secondLeg p)))
      (transferPlans [Sample.trip1; Sample.trip3; Sample.trip2]
         Sample.tieFeed Sample.stopById Sample.routeById Sample.stopA Sample.stopB)
    = ["trip3"; "trip2"].
Proof. intros. split; vm_compute; reflexivity. Qed.

(** ** The reachability filter *)

Section FoldUnion.
Context {T : Type}.

(** A fold that only ever adds elements collects what each step adds. *)
Lemma elem_of_foldl_union (step : gset string -> T -> gset string)
    (adds : T -> string -> Prop) (l : list T) :
  (forall acc t x, x ∈ step acc t <-> x ∈ acc \/ adds t x) ->
  forall acc x,
    x ∈ foldl step acc l <-> x ∈ acc \/ exists t, In t l /\ adds t x.
Proof.
  intros Hstep. induction l as [|t l IH]; intros acc x; simpl.
  - split; [auto|]. now intros [H|(t & [] & _)].
  - rewrite IH, Hstep. split.
    + intros [[H|H]|(t' & Hin & H)]; eauto.
    + intros [H|(t' & [<-|Hin] & H)]; eauto.
Qed.
End FoldUnion.

Lemma elem_of_add_stop_ids (stopTimes : list StopTime) (acc : gset string)
    (x : string) :
  x ∈ add_stop_ids acc stopTimes <->
  x ∈ acc \/ exists time, In time stopTimes /\ st_stop_id time = x.
Proof.
  unfold add_stop_ids.
  apply (elem_of_foldl_union _ (fun time x => st_stop_id time = x)).
  intros a time y. rewrite elem_of_union, elem_of_singleton.
  split; intros [H|H]; auto.
Qed.

Lemma In_take_lookup {A : Type} (l : list A) (n : nat) (x : A) :
  In x (take n l) <-> exists j, (j < n)%nat /\ l !! j = Some x.
Proof.
  rewrite <- list_elem_of_In, elem_of_take.
  split; intros (j & H1 & H2); eauto.
Qed.

Section ReachabilityFacts.
Variable destination : Stop.
Variable trips : list Trip.
Variable stopTimesByTrip : gmap string (list StopTime).

Lemma elem_of_directReachable (x : string) :
  x ∈ directReachable destination trips stopTimesByTrip <->
  precedesFirstCall destination trips stopTimesByTrip x.
Proof.
  unfold directReachable, precedesFirstCall.
  rewrite (elem_of_foldl_union _ (tripPrecedesFirstCall destination stopTimesByTrip)).
  - rewrite elem_of_empty. tauto.
  - clear x. intros acc t x. unfold tripPrecedesFirstCall.
    destruct (stopTimesByTrip !! trip_id t) as [stopTimes|] eqn:Es.
    + destruct (findIndex (is_stop destination) stopTimes) as [[|destIndex]|] eqn:Ei.
      * split; [auto|].
        intros [H|(sts & k & j & time & Hs & Hk & Hj & _)]; [exact H|].
        simplify_eq. lia.
      * rewrite elem_of_add_stop_ids. split.
        -- intros [H|(time & Hin & Hx)]; [auto|]. right.
           apply In_take_lookup in Hin as (j & Hj & Hl).
           exists stopTimes, (S destIndex), j, time. auto.
        -- intros [H|(sts & k & j & time & Hs & Hk & Hj & Hl & Hx)]; [auto|].
           simplify_eq. right. exists time. split; [|reflexivity].
           apply In_take_lookup. eauto.
      * split; [auto|].
        intros [H|(sts & k & j & time & Hs & Hk & _)]; [exact H|].
        simplify_eq.
    + split; [auto|].
      intros [H|(sts & k & j & time & Hs & _)]; [exact H|]. simplify_eq.
Qed.

Lemma elem_of_transferReachable (direct : gset string) (x : string) :
  x ∈ transferReachable direct trips stopTimesByTrip <->
  precedesOneOf (fun y => y ∈ direct) trips stopTimesByTrip x.
Proof.
  unfold transferReachable, precedesOneOf.
  destruct (0 <? size direct)%nat eqn:Esize.
  - rewrite (elem_of_foldl_union _
               (tripPrecedesOneOf (fun y => y ∈ direct) stopTimesByTrip)).
    + rewrite elem_of_empty. tauto.
    + clear x. intros acc t x. unfold tripPrecedesOneOf.
      destruct (stopTimesByTrip !! trip_id t) as [stopTimes|] eqn:Es.
      * rewrite (elem_of_foldl_union _ (fun i x =>
          exists time_i j time_j,
            stopTimes !! i = Some time_i /\ st_stop_id time_i ∈ direct /\
            (j < i)%nat /\ stopTimes !! j = Some time_j /\ st_stop_id time_j = x)).
        -- split.
           ++ intros [H|(i & _ & ti & j & tj & H)]; [auto|]. right.
              exists stopTimes, i, j, ti, tj. tauto.
           ++ intros [H|(sts & i & j & ti & tj & Hs & Hi & H)]; [auto|].
              simplify_eq. right. exists i. split.
              ** apply in_seq. apply lookup_lt_Some in Hi. lia.
              ** exists ti, j, tj. tauto.
        -- clear acc x. intros acc i x.
           destruct (stopTimes !! i) as [time|] eqn:Ei.
           ++ destruct (bool_decide (st_stop_id time ∈ direct)) eqn:Ed.
              ** apply bool_decide_eq_true in Ed.
                 rewrite elem_of_add_stop_ids. split.
                 --- intros [H|(tj & Hin & Hx)]; [auto|]. right.
                     apply In_take_lookup in Hin as (j & Hj & Hl).
                     exists time, j, tj. auto.
                 --- intros [H|(ti & j & tj & Hi & _ & Hj & Hl & Hx)]; [auto|].
                     simplify_eq. right. exists tj. split; [|reflexivity].
                     apply In_take_lookup. eauto.
              ** apply bool_decide_eq_false in Ed. split; [auto|].
                 intros [H|(ti & j & tj & Hi & Hd & _)]; [exact H|].
                 simplify_eq. contradiction.
           ++ split; [auto|].
              intros [H|(ti & j & tj & Hi & _)]; [exact H|]. simplify_eq.
      * split; [auto|].
        intros [H|(sts & i & j & ti & tj & Hs & _)]; [exact H|]. simplify_eq.
  - apply Nat.ltb_ge in Esize.
    assert (direct = ∅) as -> by (apply leibniz_equiv, size_empty_iff; lia).
    rewrite elem_of_empty. split; [intros []|].
    intros (t & _ & ? & ? & ? & ? & ? & _ & _ & Habs & _).
    now apply elem_of_empty in Habs.
Qed.

End ReachabilityFacts.

Lemma precedesOneOf_iff (P Q : string -> Prop) (trips : list Trip)
    (stopTimesByTrip : gmap string (list StopTime)) (x : string) :
  (forall y, P y <-> Q y) ->
  precedesOneOf P trips stopTimesByTrip x <-> precedesOneOf Q trips stopTimesByTrip x.
Proof.
  intros HPQ. unfold precedesOneOf, tripPrecedesOneOf.
  split; intros (t & Ht & sts & i & j & ti & tj & Hs & Hi & HP & H);
    exists t; (split; [exact Ht|]); exists sts, i, j, ti, tj;
    repeat split; try tauto; now apply HPQ.
Qed.

(** What the filter computes. The result is the union of the direct set
    and the transfer set. The direct set holds the stops called at before
    the first call at the destination on some trip (a trip that starts at
    the destination, or never calls there, adds nothing). The transfer set
    holds the stops called at before a call at a stop of the direct set on
    some trip, and is empty when the direct set is. In particular a stop X
    called at before Y on some trip, with Y in the direct set, is in the
    result, together with the whole direct set; on the feed X, Y / Y, D the
    result is X and Y. *)
Theorem reachability_filter :
  forall (destination : Stop) (trips : list Trip)
    (stopTimesByTrip : gmap string (list StopTime)),
    let direct := directReachable destination trips stopTimesByTrip in
    let transfer := transferReachable direct trips stopTimesByTrip in
    let result := buildEligibleStopIds destination trips stopTimesByTrip in
    (forall x, x ∈ result <-> x ∈ direct \/ x ∈ transfer) /\
    (forall x, x ∈ direct <-> precedesFirstCall destination trips stopTimesByTrip x) /\
    (forall x,
       x ∈ transfer <->
       precedesOneOf (precedesFirstCall destination trips stopTimesByTrip)
         trips stopTimesByTrip x) /\
    (direct = ∅ -> result = ∅) /\
    (forall X Y,
       precedesOneOf (eq Y) trips stopTimesByTrip X ->
       precedesFirstCall destination trips stopTimesByTrip Y ->
       X ∈ result /\ Y ∈ result) /\
    buildEligibleStopIds Sample.stopD [Sample.trip1; Sample.trip2] Sample.chainFeed
    = {[ "X"; "Y" ]}.
Proof.
  intros d trips stbt direct transfer result.
  assert (forall x, x ∈ direct <-> precedesFirstCall d trips stbt x) as Hdirect
    by apply elem_of_directReachable.
  assert (forall x, x ∈ transfer <->
            precedesOneOf (precedesFirstCall d trips stbt) trips stbt x) as Htransfer.
  { intros x. unfold transfer. rewrite elem_of_transferReachable.
    now apply precedesOneOf_iff. }
  assert (forall x, x ∈ result <-> x ∈ direct \/ x ∈ transfer) as Hresult.
  { intros x. unfold result, buildEligibleStopIds. apply elem_of_union. }
  split; [exact Hresult|]. split; [exact Hdirect|]. split; [exact Htransfer|].
  split; [|split].
  - intros Hempty. apply set_eq. intros x.
    rewrite Hresult, Htransfer, elem_of_empty. split; [|intros []].
    intros [H|(t & _ & ? & ? & ? & ? & ? & _ & _ & Hy & _)].
    + rewrite Hempty in H. now apply elem_of_empty in H.
    + apply Hdirect in Hy. rewrite Hempty in Hy. now apply elem_of_empty in Hy.
  - intros X Y HX HY. split.
    + apply Hresult. right. apply Htransfer.
      destruct HX as (t & Ht & sts & i & j & ti & tj & Hs & Hi & HYeq & Hrest).
      exists t. split; [exact Ht|]. exists sts, i, j, ti, tj.
      rewrite <- HYeq. tauto.
    + apply Hresult. left. now apply Hdirect.
  - vm_compute. reflexivity.
Qed.

(** C5, on the code. The filter looks for the first call at the
    destination only, where the claim, and the planner's own direct search,
    accept a later one. On the loop D, A, D the stop A is called at before
    the call at D of index 2, so the claim counts it as direct-reachable and
    the planner rides from A at 08:10 to D at 08:20; the filter skips the
    trip because its first call at D has index 0. With a second trip from E
    to D the eligible stops are E alone, and an address that lies at A is
    snapped to E. *)
Theorem reachability_filter_hides_rideable_origin :
  let trips := [Sample.trip1; Sample.trip2] in
  let stopTimesByTrip := buildStopTimesByTrip Sample.loopRows in
  let stopById := buildStopById Sample.loopStops in
  precedesAnOccurrence Sample.loopD trips stopTimesByTrip "A" /\
  buildEligibleStopIds Sample.loopD trips stopTimesByTrip = {[ "E" ]} /\
  originForAddress Sample.flatDistance Sample.loopStops Sample.loopD trips
    stopTimesByTrip Sample.atA = Some Sample.loopE /\
  plan Sample.flatDistance trips stopTimesByTrip stopById Sample.routeById
    Sample.loopA Sample.loopD None zero
  = PlanDirect
      {| trip := Sample.trip1; route := None;
         boardStop := Sample.loopA; alightStop := Sample.loopD;
         boardTime := "08:10:00"; alightTime := "08:20:00";
         boardSequence := Fin 2; alightSequence := Fin 3 |} [] None.
Proof.
  cbv zeta. split; [|split; [|split]].
  - exists Sample.trip1. eexists. exists 2%nat, 1%nat. do 2 eexists.
    split; [now left|].
    split; [vm_compute; reflexivity|].
    repeat split; auto.
  - vm_compute. reflexivity.
  - vm_compute. reflexivity.
  - vm_compute. reflexivity.
Qed.


(** ** Clock strings *)

Section DecimalFacts.

Lemma is_digit_code (c : ascii) :
  is_digit c = true -> (48 <= code c <= 57)%nat.
Proof.
  unfold is_digit. intros H. apply andb_prop in H as [H1 H2].
  apply Nat.leb_le in H1, H2. lia.
Qed.

Lemma is_digit_not_colon (c : ascii) :
  is_digit c = true -> Ascii.eqb c ":" = false.
Proof.
  intros H. apply is_digit_code in H.
  destruct (Ascii.eqb_spec c ":") as [->|]; [|reflexivity].
  vm_compute in H. lia.
Qed.

Lemma is_digit_not_white_space (c : ascii) :
  is_digit c = true -> is_white_space c = false.
Proof.
  intros H. apply is_digit_code in H. unfold is_white_space. simpl.
  repeat (rewrite (proj2 (Nat.eqb_neq _ _)) by lia). reflexivity.
Qed.

Lemma split_all_digits (s : string) :
  all_digits s = true -> split ":" s = [s].
Proof.
  induction s as [|c s IH]; simpl; [reflexivity|].
  intros H. apply andb_prop in H as [Hc Hs].
  now rewrite (is_digit_not_colon c Hc), (IH Hs).
Qed.

Lemma split_digits_colon (s rest : string) :
  all_digits s = true ->
  split ":" (s ++ String ":" rest)%string = s :: split ":" rest.
Proof.
  induction s as [|c s IH]; simpl; [reflexivity|].
  intros H. apply andb_prop in H as [Hc Hs].
  now rewrite (is_digit_not_colon c Hc), (IH Hs).
Qed.

Lemma all_digits_Forall (s : string) :
  all_digits s = true ->
  Forall (fun c => is_digit c = true) (list_ascii_of_string s).
Proof.
  induction s as [|c s IH]; simpl; [constructor|].
  intros H. apply andb_prop in H as [Hc Hs]. constructor; auto.
Qed.

Lemma drop_white_space_digit (c : ascii) (l : list ascii) :
  is_digit c = true -> drop_white_space (c :: l) = c :: l.
Proof. intros H. simpl. now rewrite (is_digit_not_white_space c H). Qed.

Lemma drop_white_space_digits (l : list ascii) :
  Forall (fun c => is_digit c = true) l -> drop_white_space l = l.
Proof.
  destruct 1 as [|c l Hc _]; [reflexivity|]. now apply drop_white_space_digit.
Qed.

Lemma trim_digits (l : list ascii) :
  Forall (fun c => is_digit c = true) l -> trim l = l.
Proof.
  intros H. unfold trim. rewrite (drop_white_space_digits l H).
  rewrite drop_white_space_digits by now apply List.Forall_rev.
  apply rev_involutive.
Qed.

Lemma span_digits_all (l : list ascii) :
  Forall (fun c => is_digit c = true) l -> span_digits l = (l, []).
Proof.
  induction 1 as [|c l Hc _ IH]; simpl; [reflexivity|].
  now rewrite Hc, IH.
Qed.

Lemma digit_value_decimal (c : ascii) :
  is_digit c = true -> digit_value 10 c = Some (code c - 48)%nat.
Proof.
  intros H. unfold digit_value. unfold is_digit in H. rewrite H.
  fold (is_digit c) in H. apply is_digit_code in H.
  destruct (Nat.ltb_spec (code c - 48) 10); [reflexivity|lia].
Qed.

Lemma digits_from_decimal (s : string) :
  forall acc,
    all_digits s = true ->
    digits_from 10 acc (list_ascii_of_string s) = Some (decimal_from acc s).
Proof.
  induction s as [|c s IH]; intros acc; simpl; [reflexivity|].
  intros H. apply andb_prop in H as [Hc Hs].
  rewrite (digit_value_decimal c Hc). now apply IH.
Qed.

Lemma decimal_from_nonneg (s : string) :
  forall acc, (0 <= acc)%Z -> (0 <= decimal_from acc s)%Z.
Proof.
  induction s as [|c s IH]; intros acc Hacc; simpl; [exact Hacc|].
  apply IH. lia.
Qed.

Lemma decimalValue_nonneg (s : string) : (0 <= decimalValue s)%Z.
Proof. now apply decimal_from_nonneg. Qed.

(** A whole number of at most 53 bits is a binary64 value. *)
Lemma fin_int (z : Z) :
  (Z.abs z <= 2 ^ 53)%Z ->
  exists d, fin (inject_Z z) = Fin d /\ (dval d == inject_Z z)%Q.
Proof.
  intros Hz.
  assert (rnd (inject_Z z) == inject_Z z)%Q as E.
  { rewrite (rnd_comp (inject_Z z) (inject_Z z * pow2 0)%Q)
      by (change (pow2 0) with 1%Q; ring).
    rewrite rnd_exact; [change (pow2 0) with 1%Q; ring|exact Hz|unfold emin; lia]. }
  assert (- pow2 53 <= inject_Z z <= pow2 53)%Q as [Hlo Hhi].
  { rewrite (pow2_Z 53) by lia. rewrite <- inject_Z_opp, <- !Zle_Qle. lia. }
  assert (pow2 53 < pow2 1024)%Q as Hp by (apply pow2_lt; lia).
  destruct (fin_spec (inject_Z z)) as [(d & -> & Hd)|[(_ & _ & Hr)|(_ & _ & Hr)]].
  - exists d. split; [reflexivity|]. now rewrite Hd.
  - exfalso. lra.
  - exfalso. lra.
Qed.

Lemma NonDecimalIntegerLiteral_digits (l : list ascii) :
  Forall (fun c => is_digit c = true) l -> NonDecimalIntegerLiteral l = None.
Proof.
  intros H. destruct l as [|c [|c2 ds]]; [reflexivity| |].
  - now destruct c as [[] [] [] [] [] [] [] []].
  - inversion H as [|? ? _ H2]; subst. inversion H2 as [|? ? Hc2 _]; subst.
    destruct c as [[] [] [] [] [] [] [] []]; try reflexivity.
    destruct c2 as [[] [] [] [] [] [] [] []]; try reflexivity;
      vm_compute in Hc2; discriminate Hc2.
Qed.

Lemma StrDecimalLiteral_digit (c : ascii) (l : list ascii) :
  is_digit c = true ->
  StrDecimalLiteral (c :: l) = StrUnsignedDecimalLiteral (c :: l).
Proof.
  intros H. destruct c as [[] [] [] [] [] [] [] []]; try reflexivity;
    vm_compute in H; discriminate H.
Qed.

Lemma not_Infinity_digit (c : ascii) (l : list ascii) :
  is_digit c = true ->
  String.eqb (string_of_list_ascii (c :: l)) "Infinity" = false.
Proof.
  intros H. destruct c as [[] [] [] [] [] [] [] []]; try reflexivity;
    vm_compute in H; discriminate H.
Qed.

(** [Number] reads a run of decimal digits as the number it writes. *)
Lemma Number_decimal (s : string) :
  isDecimal s = true -> Number s = fin (inject_Z (decimalValue s)).
Proof.
  intros H.
  assert (all_digits s = true) as Hall by now destruct s.
  pose proof (all_digits_Forall s Hall) as Hl.
  unfold Number. rewrite (trim_digits _ Hl).
  destruct (list_ascii_of_string s) as [|c l] eqn:El.
  { destruct s; discriminate. }
  rewrite (NonDecimalIntegerLiteral_digits _ Hl).
  inversion Hl as [|? ? Hc _]; subst.
  rewrite (StrDecimalLiteral_digit c l Hc).
  unfold StrUnsignedDecimalLiteral.
  rewrite (not_Infinity_digit c l Hc), (span_digits_all _ Hl), app_nil_r.
  unfold digits. rewrite <- El, (digits_from_decimal s 0 Hall). simpl.
  apply fin_comp. unfold decimalValue. ring.
Qed.


Lemma isDecimal_all_digits (s : string) : isDecimal s = true -> all_digits s = true.
Proof. now destruct s. Qed.

(** A component that is present counts as the number it writes: a zero is
    replaced by zero. *)
Lemma or_zero_fin (x : Q) : (if truthy (fin x) then fin x else zero) = fin x.
Proof.
  destruct (fin_spec x) as [(d & -> & Hd)|[(-> & _)|(-> & _)]]; try reflexivity.
  unfold truthy. destruct (Qeq_bool d 0) eqn:E; [|reflexivity]. simpl.
  apply Qeq_bool_iff in E. unfold zero. f_equal. symmetry. now apply double_Qeq.
Qed.

Lemma split_clock (hh mm ss : string) :
  isDecimal hh = true -> isDecimal mm = true -> isDecimal ss = true ->
  split ":" (hh ++ ":" ++ mm ++ ":" ++ ss)%string = [hh; mm; ss].
Proof.
  intros Hh Hm Hs.
  change (hh ++ ":" ++ mm ++ ":" ++ ss)%string
    with (hh ++ String ":" (mm ++ String ":" ss))%string.
  rewrite !split_digits_colon, split_all_digits;
    auto using isDecimal_all_digits.
Qed.

(** The conversion of a clock string, field by field: every field is read
    as the binary64 value nearest to the number it writes, and every
    operation rounds. *)
Lemma timeToMinutes_decimal (hh mm ss : string) :
  isDecimal hh = true -> isDecimal mm = true -> isDecimal ss = true ->
  timeToMinutes (hh ++ ":" ++ mm ++ ":" ++ ss)%string
  = num_add
      (num_add (num_mul (fin (inject_Z (decimalValue hh))) (Fin 60))
               (fin (inject_Z (decimalValue mm))))
      (num_div (fin (inject_Z (decimalValue ss))) (Fin 60)).
Proof.
  intros Hh Hm Hs. unfold timeToMinutes.
  rewrite (split_clock hh mm ss Hh Hm Hs). simpl map.
  rewrite (Number_decimal hh Hh), (Number_decimal mm Hm), (Number_decimal ss Hs).
  rewrite !or_zero_fin. reflexivity.
Qed.

End DecimalFacts.

(** ** Monotone arithmetic *)

Section MonotoneFacts.
Local Open Scope Q_scope.

Lemma fin_0 : fin 0 = zero.
Proof. apply (fin_double 0%double). Qed.

Lemma fin_not_NaN (x : Q) : isNaN (fin x) = false.
Proof. now destruct (fin_spec x) as [(d & -> & _)|[(-> & _)|(-> & _)]]. Qed.

Lemma num_leb_Infinity (a : number) : isNaN a = false -> num_leb a Infinity = true.
Proof. now destruct a. Qed.

(** Rounding keeps the order. *)
Lemma fin_mono (x y : Q) : x <= y -> num_leb (fin x) (fin y) = true.
Proof.
  intros H. pose proof (rnd_mono x y H) as Hr. pose proof (pow2_pos 1024) as Hp.
  destruct (fin_spec x) as [(d & -> & Hd)|[(-> & Hx & Hrx)|(-> & Hx & Hrx)]],
           (fin_spec y) as [(e & -> & He)|[(-> & Hy & Hry)|(-> & Hy & Hry)]];
    try reflexivity.
  - apply num_leb_Fin. now rewrite Hd, He.
  - exfalso. pose proof (double_range d) as Hd'. rewrite Hd in Hd'.
    apply Qabs_Qlt_condition in Hd'. lra.
  - exfalso. pose proof (double_range e) as He'. rewrite He in He'.
    apply Qabs_Qlt_condition in He'. lra.
  - exfalso. lra.
Qed.

Lemma nonneg_cases (a : number) :
  num_leb zero a = true -> (exists p : double, a = Fin p /\ 0 <= p) \/ a = Infinity.
Proof.
  destruct a as [| |p|]; try discriminate; [|now right].
  unfold zero. rewrite num_leb_Fin. intros H. left. now exists p.
Qed.

Lemma above_cases (p : double) (a : number) :
  num_leb (Fin p) a = true -> (exists q : double, a = Fin q /\ p <= q) \/ a = Infinity.
Proof.
  destruct a as [| |q|]; try discriminate; [|now right].
  rewrite num_leb_Fin. intros H. left. now exists q.
Qed.

Lemma num_add_mono (a a' b b' : number) :
  num_leb zero a = true -> num_leb zero b = true ->
  num_leb a a' = true -> num_leb b b' = true ->
  num_leb (num_add a b) (num_add a' b') = true /\
  num_leb zero (num_add a b) = true.
Proof.
  intros Ha Hb Haa Hbb.
  destruct (nonneg_cases a Ha) as [(p & -> & Hp)| ->],
           (nonneg_cases b Hb) as [(q & -> & Hq)| ->].
  - destruct (above_cases p a' Haa) as [(p' & -> & Hp')| ->],
             (above_cases q b' Hbb) as [(q' & -> & Hq')| ->];
      unfold num_add; (split; [|rewrite <- fin_0; apply fin_mono; lra]).
    + apply fin_mono. lra.
    + apply num_leb_Infinity, fin_not_NaN.
    + apply num_leb_Infinity, fin_not_NaN.
    + apply num_leb_Infinity, fin_not_NaN.
  - destruct b' as [| |q'|]; try discriminate Hbb.
    destruct (above_cases p a' Haa) as [(p' & -> & Hp')| ->]; now split.
  - destruct a' as [| |p'|]; try discriminate Haa.
    destruct (above_cases q b' Hbb) as [(q' & -> & Hq')| ->]; now split.
  - destruct a' as [| |p'|]; try discriminate Haa.
    destruct b' as [| |q'|]; try discriminate Hbb. now split.
Qed.

Lemma num_mul60_mono (a a' : number) :
  num_leb zero a = true -> num_leb a a' = true ->
  num_leb (num_mul a (Fin 60)) (num_mul a' (Fin 60)) = true /\
  num_leb zero (num_mul a (Fin 60)) = true.
Proof.
  intros Ha Haa.
  destruct (nonneg_cases a Ha) as [(p & -> & Hp)| ->].
  - destruct (above_cases p a' Haa) as [(p' & -> & Hp')| ->]; unfold num_mul;
      (split; [|rewrite <- fin_0; apply fin_mono; simpl dval; lra]).
    + apply fin_mono. simpl dval. lra.
    + apply num_leb_Infinity, fin_not_NaN.
  - destruct a' as [| |p'|]; try discriminate Haa. now split.
Qed.

Lemma num_div60_mono (a a' : number) :
  num_leb zero a = true -> num_leb a a' = true ->
  num_leb (num_div a (Fin 60)) (num_div a' (Fin 60)) = true /\
  num_leb zero (num_div a (Fin 60)) = true.
Proof.
  intros Ha Haa.
  assert (forall p : double, num_div (Fin p) (Fin 60) = fin (p / 60)) as Hdiv
    by reflexivity.
  destruct (nonneg_cases a Ha) as [(p & -> & Hp)| ->].
  - destruct (above_cases p a' Haa) as [(p' & -> & Hp')| ->];
      rewrite ?Hdiv;
      (split; [|rewrite <- fin_0; apply fin_mono;
                unfold Qdiv; change (/ 60) with (1 # 60); lra]).
    + apply fin_mono. unfold Qdiv. change (/ 60) with (1 # 60). lra.
    + apply num_leb_Infinity, fin_not_NaN.
  - destruct a' as [| |p'|]; try discriminate Haa. now split.
Qed.

Lemma fin_int_mono (a b : Z) :
  (a <= b)%Z -> num_leb (fin (inject_Z a)) (fin (inject_Z b)) = true.
Proof. intros H. apply fin_mono. now rewrite <- Zle_Qle. Qed.

Lemma fin_int_nonneg (a : Z) : (0 <= a)%Z -> num_leb zero (fin (inject_Z a)) = true.
Proof. intros H. rewrite <- fin_0. now apply (fin_int_mono 0 a). Qed.

(** The conversion grows with each of its three fields. *)
Lemma minutes_mono (h m s h' m' s' : Z) :
  (0 <= h <= h')%Z -> (0 <= m <= m')%Z -> (0 <= s <= s')%Z ->
  num_leb
    (num_add (num_add (num_mul (fin (inject_Z h)) (Fin 60)) (fin (inject_Z m)))
             (num_div (fin (inject_Z s)) (Fin 60)))
    (num_add (num_add (num_mul (fin (inject_Z h')) (Fin 60)) (fin (inject_Z m')))
             (num_div (fin (inject_Z s')) (Fin 60))) = true.
Proof.
  intros [Hh Hh'] [Hm Hm'] [Hs Hs'].
  destruct (num_mul60_mono (fin (inject_Z h)) (fin (inject_Z h')))
    as [H1 H1']; [now apply fin_int_nonneg|now apply fin_int_mono|].
  destruct (num_add_mono _ _ _ _ H1' (fin_int_nonneg m Hm) H1 (fin_int_mono m m' Hm'))
    as [H2 H2'].
  destruct (num_div60_mono (fin (inject_Z s)) (fin (inject_Z s')))
    as [H3 H3']; [now apply fin_int_nonneg|now apply fin_int_mono|].
  now destruct (num_add_mono _ _ _ _ H2' H3' H2 H3).
Qed.

(** A clock string at or after 24:00:00 converts to more minutes than any
    clock string of the same day. *)
Lemma timeToMinutes_no_wrap (hh mm ss hh' mm' ss' : string) :
  isDecimal hh = true -> isDecimal mm = true -> isDecimal ss = true ->
  isDecimal hh' = true -> isDecimal mm' = true -> isDecimal ss' = true ->
  (24 <= decimalValue hh)%Z ->
  (decimalValue hh' < 24)%Z -> (decimalValue mm' < 60)%Z ->
  (decimalValue ss' < 60)%Z ->
  num_ltb (timeToMinutes (hh' ++ ":" ++ mm' ++ ":" ++ ss')%string)
          (timeToMinutes (hh ++ ":" ++ mm ++ ":" ++ ss)%string) = true.
Proof.
  intros Hh Hm Hs Hh' Hm' Hs' H24 Hlt Hm60 Hs60.
  rewrite (timeToMinutes_decimal hh mm ss), (timeToMinutes_decimal hh' mm' ss')
    by assumption.
  pose proof (decimalValue_nonneg mm). pose proof (decimalValue_nonneg ss).
  pose proof (decimalValue_nonneg hh'). pose proof (decimalValue_nonneg mm').
  pose proof (decimalValue_nonneg ss').
  eapply num_leb_ltb_trans;
    [apply (minutes_mono _ _ _ 23 59 59); lia|].
  eapply num_ltb_leb_trans;
    [|apply (minutes_mono 24 0 0); lia].
  vm_compute. reflexivity.
Qed.

(** With no seconds, and within 53 bits, the conversion is the whole number
    of minutes. *)
Lemma timeToMinutes_whole (hh mm ss : string) :
  isDecimal hh = true -> isDecimal mm = true -> isDecimal ss = true ->
  decimalValue ss = 0%Z ->
  (decimalValue hh * 60 + decimalValue mm <= 2 ^ 53)%Z ->
  exists d : double,
    timeToMinutes (hh ++ ":" ++ mm ++ ":" ++ ss)%string = Fin d /\
    d == inject_Z (decimalValue hh * 60 + decimalValue mm).
Proof.
  intros Hh Hm Hs Hzero Hsmall.
  rewrite (timeToMinutes_decimal hh mm ss Hh Hm Hs), Hzero.
  pose proof (decimalValue_nonneg hh) as Hh0.
  pose proof (decimalValue_nonneg mm) as Hm0.
  set (h := decimalValue hh) in *. set (m := decimalValue mm) in *.
  destruct (fin_int h) as (dh & -> & Edh); [lia|].
  destruct (fin_int m) as (dm & -> & Edm); [lia|].
  destruct (fin_int (h * 60)) as (d1 & E1 & Ed1); [lia|].
  destruct (fin_int (h * 60 + m)) as (d2 & E2 & Ed2); [lia|].
  assert (num_mul (Fin dh) (Fin 60) = Fin d1) as ->.
  { rewrite <- E1. unfold num_mul. apply fin_comp.
    rewrite Edh, inject_Z_mult. reflexivity. }
  assert (num_add (Fin d1) (Fin dm) = Fin d2) as ->.
  { rewrite <- E2. unfold num_add. apply fin_comp.
    rewrite Ed1, Edm, inject_Z_plus. reflexivity. }
  assert (num_div (fin (inject_Z 0)) (Fin 60) = zero) as -> by reflexivity.
  exists d2. split; [|exact Ed2].
  unfold num_add, zero. rewrite <- (fin_double d2). apply fin_comp.
  simpl dval. ring.
Qed.

End MonotoneFacts.

(** ** The display of a clock string *)

Section DisplayFacts.
Local Open Scope Q_scope.

Lemma Qtrunc_comp (x y : Q) : x == y -> Qtrunc x = Qtrunc y.
Proof.
  intros H. unfold Qtrunc.
  assert (Qle_bool 0 x = Qle_bool 0 y) as ->.
  { apply eq_true_iff_eq. rewrite !Qle_bool_iff. now rewrite H. }
  now rewrite (Qfloor_comp x y H), (Qceiling_comp x y H).
Qed.

(** On whole numbers, a non-negative dividend and a positive divisor, [%]
    is the remainder of the division. *)
Lemma num_rem_int (a b : Z) (da db : double) :
  da == inject_Z a -> db == inject_Z b -> (0 <= a)%Z -> (0 < b)%Z ->
  num_rem (Fin da) (Fin db) = fin (inject_Z (a mod b)).
Proof.
  intros Hda Hdb Ha Hb. unfold num_rem, sign.
  assert (0 < db) as Hpos.
  { rewrite Hdb. change 0 with (inject_Z 0). now rewrite <- Zlt_Qlt. }
  assert ((Qnum db ?= 0)%Z = Gt) as ->.
  { apply Z.compare_gt_iff. unfold Qlt in Hpos. simpl in Hpos. lia. }
  apply fin_comp.
  rewrite (Qtrunc_comp (da / db) (inject_Z a / inject_Z b))
    by (now rewrite Hda, Hdb).
  rewrite Hda, Hdb. unfold Qtrunc.
  assert (0 <= inject_Z a / inject_Z b) as Hdiv.
  { apply Qmult_le_0_compat.
    - change (inject_Z 0 <= inject_Z a). now rewrite <- Zle_Qle.
    - apply Qinv_le_0_compat. change (inject_Z 0 <= inject_Z b).
      rewrite <- Zle_Qle. lia. }
  apply Qle_bool_iff in Hdiv. rewrite Hdiv, <- Zdiv_Qdiv.
  rewrite Z.mod_eq by lia. unfold Z.sub.
  rewrite inject_Z_plus, inject_Z_opp, inject_Z_mult. ring.
Qed.

(** What [formatTime] shows for a clock string whose hours and minutes have
    at most 53 bits. *)
Lemma formatTime_decimal (hh mm ss : string) :
  isDecimal hh = true -> isDecimal mm = true -> isDecimal ss = true ->
  (decimalValue hh <= 2 ^ 53)%Z -> (decimalValue mm <= 2 ^ 53)%Z ->
  exists hours12 minutes : double,
    formatTime (hh ++ ":" ++ mm ++ ":" ++ ss)%string
    = Clock (Fin hours12) (Fin minutes) (periodOf (decimalValue hh)) /\
    hours12 == inject_Z (hours12Of (decimalValue hh)) /\
    minutes == inject_Z (decimalValue mm).
Proof.
  intros Hh Hm Hs Hhs Hms. unfold formatTime.
  rewrite (split_clock hh mm ss Hh Hm Hs). simpl lookup. unfold Number_opt.
  rewrite (Number_decimal hh Hh), (Number_decimal mm Hm).
  pose proof (decimalValue_nonneg hh) as Hpos.
  pose proof (decimalValue_nonneg mm) as Hmpos.
  set (h := decimalValue hh) in *. set (m := decimalValue mm) in *.
  pose proof (Z.mod_pos_bound h 24 eq_refl) as Hh24.
  pose proof (Z.mod_pos_bound (h mod 24) 12 eq_refl) as Hh12.
  destruct (fin_int h) as (dh & -> & Edh); [lia|].
  destruct (fin_int m) as (dm & -> & Edm); [lia|].
  cbn [isFinite negb orb]. cbv zeta.
  rewrite (num_rem_int h 24 dh 24 Edh) by (reflexivity || lia).
  destruct (fin_int (h mod 24)) as (d1 & -> & Ed1); [lia|].
  assert (num_add (Fin d1) (Fin 24) = fin (inject_Z (h mod 24 + 24))) as ->.
  { unfold num_add. apply fin_comp. rewrite Ed1, inject_Z_plus. reflexivity. }
  destruct (fin_int (h mod 24 + 24)) as (d2 & -> & Ed2); [lia|].
  rewrite (num_rem_int (h mod 24 + 24) 24 d2 24 Ed2) by (reflexivity || lia).
  replace ((h mod 24 + 24) mod 24)%Z with (h mod 24)%Z
    by (rewrite <- (Z.mul_1_l 24) at 3; rewrite Z_mod_plus_full;
        now rewrite Z.mod_mod).
  destruct (fin_int (h mod 24)) as (d3 & -> & Ed3); [lia|].
  rewrite (num_rem_int (h mod 24) 12 d3 12 Ed3) by (reflexivity || lia).
  destruct (fin_int ((h mod 24) mod 12)) as (d4 & -> & Ed4); [lia|].
  assert (num_geb (Fin d3) (Fin 12) = (12 <=? h mod 24)%Z) as ->.
  { apply eq_true_iff_eq. unfold num_geb.
    rewrite num_leb_Fin, Z.leb_le, Ed3, Zle_Qle. reflexivity. }
  assert (truthy (Fin d4) = negb ((h mod 24) mod 12 =? 0)%Z) as ->.
  { apply eq_true_iff_eq. unfold truthy.
    rewrite !negb_true_iff, <- !not_true_iff_false, Qeq_bool_iff, Z.eqb_eq, Ed4.
    change 0 with (inject_Z 0). now rewrite inject_Z_injective. }
  unfold hours12Of, periodOf. cbv zeta.
  destruct ((h mod 24) mod 12 =? 0)%Z; simpl negb; cbv iota.
  - exists 12%double, dm. split; [reflexivity|]. split; [reflexivity|exact Edm].
  - exists d4, dm. split; [reflexivity|]. split; [exact Ed4|exact Edm].
Qed.

End DisplayFacts.

(** C8, as the code has it. A clock string of three runs of decimal digits
    converts to the binary64 evaluation of hours times 60, plus minutes,
    plus seconds over 60: every field is read as the nearest binary64 value
    with no reduction of the hours, and every operation rounds. The result
    is the whole number of minutes when the seconds are zero and the minutes
    fit 53 bits. A string at or after 24:00:00 converts to more minutes than
    every string of the same day, and subtraction sees it as later. The
    wrap to a 24-hour clock is what [formatTime] does: for hours and minutes
    within 53 bits it shows the hours modulo 24 on a 12-hour dial. *)
Theorem time_arithmetic_semantics :
  forall hh mm ss : string,
    isDecimal hh = true -> isDecimal mm = true -> isDecimal ss = true ->
    timeToMinutes (hh ++ ":" ++ mm ++ ":" ++ ss)%string
    = num_add
        (num_add (num_mul (fin (inject_Z (decimalValue hh))) (Fin 60))
                 (fin (inject_Z (decimalValue mm))))
        (num_div (fin (inject_Z (decimalValue ss))) (Fin 60)) /\
    (decimalValue ss = 0%Z ->
     (decimalValue hh * 60 + decimalValue mm <= 2 ^ 53)%Z ->
     exists minutes : double,
       timeToMinutes (hh ++ ":" ++ mm ++ ":" ++ ss)%string = Fin minutes /\
       (minutes == inject_Z (decimalValue hh * 60 + decimalValue mm))%Q) /\
    (forall hh' mm' ss' : string,
       isDecimal hh' = true -> isDecimal mm' = true -> isDecimal ss' = true ->
       (24 <= decimalValue hh)%Z ->
       (decimalValue hh' < 24)%Z -> (decimalValue mm' < 60)%Z ->
       (decimalValue ss' < 60)%Z ->
       num_ltb (timeToMinutes (hh' ++ ":" ++ mm' ++ ":" ++ ss')%string)
               (timeToMinutes (hh ++ ":" ++ mm ++ ":" ++ ss)%string) = true /\
       num_ltb zero
         (minutesBetween (hh' ++ ":" ++ mm' ++ ":" ++ ss')%string
                         (hh ++ ":" ++ mm ++ ":" ++ ss)%string) = true) /\
    ((decimalValue hh <= 2 ^ 53)%Z -> (decimalValue mm <= 2 ^ 53)%Z ->
     exists hours12 minutes : double,
       formatTime (hh ++ ":" ++ mm ++ ":" ++ ss)%string
       = Clock (Fin hours12) (Fin minutes) (periodOf (decimalValue hh)) /\
       (hours12 == inject_Z (hours12Of (decimalValue hh)))%Q /\
       (minutes == inject_Z (decimalValue mm))%Q).
Proof.
  intros hh mm ss Hh Hm Hs. split; [|split; [|split]].
  - now apply timeToMinutes_decimal.
  - now apply timeToMinutes_whole.
  - intros hh' mm' ss' Hh' Hm' Hs' H24 Hlt Hm60 Hs60.
    pose proof (timeToMinutes_no_wrap hh mm ss hh' mm' ss'
                  Hh Hm Hs Hh' Hm' Hs' H24 Hlt Hm60 Hs60) as Hlater.
    split; [exact Hlater|].
    unfold minutesBetween.
    change (num_gtb (num_sub (timeToMinutes (hh ++ ":" ++ mm ++ ":" ++ ss)%string)
                             (timeToMinutes (hh' ++ ":" ++ mm' ++ ":" ++ ss')%string))
                    zero = true).
    now rewrite num_gtb_sub.
  - now apply formatTime_decimal.
Qed.

(** "25:10:00" is minute 1510, later than "23:59:59"; it is shown as
    1:10 AM. *)
Lemma time_arithmetic_semantics_witness :
  timeToMinutes "25:10:00" = Fin 1510 /\
  num_ltb (timeToMinutes "23:59:59") (timeToMinutes "25:10:00") = true /\
  formatTime "25:10:00" = Clock (Fin 1) (Fin 10) "AM".
Proof.
  destruct (time_arithmetic_semantics "25" "10" "00" eq_refl eq_refl eq_refl)
    as (_ & Hvalue & Hlater & Hshown).
  destruct (Hvalue eq_refl) as (minutes & Eminutes & Hminutes);
    [vm_compute; discriminate|].
  destruct Hshown as (hours12 & shown & Eshown & Hhours12 & Hshown);
    [vm_compute; discriminate|vm_compute; discriminate|].
  change (timeToMinutes "25:10:00" = Fin minutes) in Eminutes.
  change (formatTime "25:10:00" = Clock (Fin hours12) (Fin shown) "AM") in Eshown.
  rewrite Eminutes, Eshown. split; [|split].
  - f_equal. now apply double_Qeq.
  - rewrite <- Eminutes.
    refine (proj1 (Hlater "23" "59" "59" eq_refl eq_refl eq_refl _
                    eq_refl eq_refl eq_refl)).
    vm_compute. discriminate.
  - f_equal; f_equal; now apply double_Qeq.
Defined.

(** C8, as the claim has it, fails: the conversion is not the exact value
    of hours*60 + minutes + seconds/60. "08:00:20" converts to a binary64
    value, which is not 1441/3; and "0:1:17" and "0:0:77", which both write
    77 seconds, convert to different numbers. *)
Lemma conversion_is_not_exact :
  (exists minutes : double,
     timeToMinutes "08:00:20" = Fin minutes /\
     ~ (minutes == 8 * 60 + 0 + 20 / 60)%Q) /\
  num_ltb (timeToMinutes "0:1:17") (timeToMinutes "0:0:77") = true.
Proof.
  split; [|vm_compute; reflexivity].
  destruct (timeToMinutes "08:00:20") as [| |minutes|] eqn:E;
    try (vm_compute in E; discriminate E).
  exists minutes. split; [reflexivity|]. intros Hq.
  assert (match timeToMinutes "08:00:20" with Fin d => dval d | _ => 0%Q end
          = dval minutes) as Hv by now rewrite E.
  remember (dval minutes) as v eqn:Ev. clear Ev E.
  vm_compute in Hv. subst v. vm_compute in Hq. discriminate Hq.
Qed.

(** ** Strings that are not clock strings *)

Lemma num_add_NaN_r (a : number) : num_add a NaN = NaN.
Proof. now destruct a. Qed.

(** A component that is present never counts as [NaN]. *)
Lemma component_not_NaN (part : string) :
  isNaN (if truthy (Number part) then Number part else zero) = false.
Proof.
  destruct (Number part) as [| |q|]; try reflexivity.
  now destruct (truthy (Fin q)).
Qed.

(** A string with fewer than three components converts to [NaN]: the
    missing ones are [undefined], not zero. *)
Lemma timeToMinutes_missing_component (value : string) :
  (length (split ":" value) < 3)%nat -> timeToMinutes value = NaN.
Proof.
  intros Hlen. unfold timeToMinutes.
  set (parts := map _ (split ":" value)).
  assert (parts !! 2%nat = None) as ->.
  { apply lookup_ge_None. unfold parts. rewrite length_map. lia. }
  unfold to_number at 3. apply num_add_NaN_r.
Qed.

(** C10, on the code. A component that is present and not numeric counts
    as zero: "xx:30:00" is minute 30. A component that is missing does not:
    the empty string and "08:30" convert to [NaN]. *)
Theorem malformed_time_components :
  timeToMinutes "xx:30:00" = Fin 30 /\
  timeToMinutes "" = NaN /\
  timeToMinutes "08:30" = NaN.
Proof. repeat split; vm_compute; reflexivity. Qed.

(** * Further properties of the planner *)

Lemma num_gtb_not_leb (a b : number) : num_gtb a b = true -> num_leb a b = false.
Proof.
  destruct a as [| |p|], b as [| |q|]; try easy.
  unfold num_gtb. intros H. apply num_ltb_Fin in H.
  apply not_true_iff_false. rewrite num_leb_Fin. apply Qlt_not_le, H.
Qed.

Lemma In_drop_lookup {A : Type} (l : list A) (n : nat) (x : A) :
  In x (drop n l) <-> exists i, (n <= i)%nat /\ l !! i = Some x.
Proof.
  rewrite <- list_elem_of_In, list_elem_of_lookup. split.
  - intros (j & Hj). rewrite lookup_drop in Hj. exists (n + j)%nat. split; [lia|exact Hj].
  - intros (i & Hi & Hl). exists (i - n)%nat. rewrite lookup_drop.
    now replace (n + (i - n))%nat with i by lia.
Qed.

Section ShapeFacts.
Variable haversineDistanceKm : Stop -> number -> number -> number.
Variable trips : list Trip.
Variable stopTimesByTrip : gmap string (list StopTime).
Variable stopById : gmap string Stop.
Variable routeById : gmap string Route.
Variables origin destination : Stop.
Variable destinationLocation : option LatLng.
Variable nowMinutes : number.

Local Abbreviation the_candidates :=
  (candidates haversineDistanceKm trips stopTimesByTrip stopById routeById
     origin destination destinationLocation).
Local Abbreviation the_transferPlans :=
  (transferPlans trips stopTimesByTrip stopById routeById origin destination).
Local Abbreviation the_plan :=
  (plan haversineDistanceKm trips stopTimesByTrip stopById routeById
     origin destination destinationLocation nowMinutes).

(** Whatever rule chose it, the alighting stop-time comes after the boarding
    index, does not arrive at or before the boarding departure, and its stop
    is the one [stopById] knows under its id. *)
Lemma chooseAlight_Some (stopTimes : list StopTime) (boardIndex : nat)
    (boardStopTime alightStopTime : StopTime) (stop : Stop) :
  chooseAlight haversineDistanceKm stopById destination destinationLocation
    stopTimes boardIndex boardStopTime = (Some alightStopTime, Some stop) ->
  (exists i, (boardIndex < i)%nat /\ stopTimes !! i = Some alightStopTime) /\
  num_leb (timeToMinutes (arrival_time alightStopTime))
          (timeToMinutes (departure_time boardStopTime)) = false /\
  stopById !! st_stop_id alightStopTime = Some stop.
Proof.
  unfold chooseAlight.
  destruct (exactAlight stopById destination stopTimes boardIndex boardStopTime)
    as [oa os] eqn:Ex.
  assert (forall a s, (oa, os) = (Some a, Some s) ->
            (Some a, Some s) = (Some alightStopTime, Some stop) ->
            (exists i, (boardIndex < i)%nat /\ stopTimes !! i = Some alightStopTime) /\
            num_leb (timeToMinutes (arrival_time alightStopTime))
                    (timeToMinutes (departure_time boardStopTime)) = false /\
            stopById !! st_stop_id alightStopTime = Some stop) as Hexact.
  { intros a s E1 E2. rewrite E1 in Ex. injection E2 as -> ->.
    apply exactAlight_Some in Ex as (i & Hi & Hl & Hg & Hs).
    apply destinationIndex_Some in Hi as (Hlt & _).
    split; [eauto|]. split; [now apply num_gtb_not_leb|exact Hs]. }
  assert (forall c,
            pickClosestStopAfterBoard haversineDistanceKm stopById
              destinationLocation stopTimes boardIndex
              (timeToMinutes (departure_time boardStopTime)) = Some c ->
            (Some (closest_stopTime c), Some (closest_stop c))
              = (Some alightStopTime, Some stop) ->
            (exists i, (boardIndex < i)%nat /\ stopTimes !! i = Some alightStopTime) /\
            num_leb (timeToMinutes (arrival_time alightStopTime))
                    (timeToMinutes (departure_time boardStopTime)) = false /\
            stopById !! st_stop_id alightStopTime = Some stop) as Hpick.
  { intros c Hc E. injection E as <- <-.
    apply pickClosestStopAfterBoard_Some in Hc as (_ & _ & Hin & Hleb & Hs & _).
    apply In_drop_lookup in Hin as (i & Hi & Hl).
    split; [exists i; split; [lia|exact Hl]|]. auto. }
  destruct oa as [a|], os as [s|];
    try (now apply (Hexact a s));
    destruct (pickClosestStopAfterBoard _ _ _ _ _ _) as [c|] eqn:Ep;
    try discriminate; now apply (Hpick c).
Qed.

Lemma directCandidate_shape (t : Trip) (c : CandidateTrip) :
  directCandidate haversineDistanceKm stopTimesByTrip stopById routeById
    origin destination destinationLocation t = Some c ->
  exists stopTimes boardIndex boardStopTime alightIndex alightStopTime,
    trip c = t /\
    stopTimesByTrip !! trip_id t = Some stopTimes /\
    findIndex (is_stop origin) stopTimes = Some boardIndex /\
    stopTimes !! boardIndex = Some boardStopTime /\
    (boardIndex < alightIndex)%nat /\
    stopTimes !! alightIndex = Some alightStopTime /\
    boardTime c = departure_time boardStopTime /\
    alightTime c = arrival_time alightStopTime /\
    boardSequence c = stop_sequence boardStopTime /\
    alightSequence c = stop_sequence alightStopTime /\
    stopById !! st_stop_id boardStopTime = Some (boardStop c) /\
    stopById !! st_stop_id alightStopTime = Some (alightStop c) /\
    num_leb (timeToMinutes (alightTime c)) (timeToMinutes (boardTime c)) = false /\
    num_geb (boardSequence c) (alightSequence c) = false.
Proof.
  unfold directCandidate.
  destruct (stopTimesByTrip !! trip_id t) as [stopTimes|]; [|discriminate].
  destruct (findIndex (is_stop origin) stopTimes) as [boardIndex|] eqn:Ei;
    [|discriminate].
  destruct (stopTimes !! boardIndex) as [boardStopTime|] eqn:Eb; [|discriminate].
  destruct (chooseAlight _ _ _ _ _ _ _) as [[a|] [s|]] eqn:Ec; try discriminate.
  apply chooseAlight_Some in Ec as ((i & Hi & Hl) & Hleb & Hs).
  destruct (num_geb _ _) eqn:Eg; [discriminate|].
  destruct (stopById !! st_stop_id boardStopTime) as [b|] eqn:Ebs; [|discriminate].
  intros [= <-]. simpl.
  exists stopTimes, boardIndex, boardStopTime, i, a. auto 20.
Qed.

(** Where a pairing of the join comes from: a first leg from the first call
    at the origin to a later call of its trip, a second leg from a call
    before the first call at the destination to that call, and the same stop
    id at the two calls where the legs meet. *)
Lemma transferPlans_shape (p : TransferPlan) :
  In p the_transferPlans ->
  exists t1 stopTimes1 originIndex board1 alightIndex alight1
         t2 stopTimes2 destIndex board2 boardIndex2 alight2,
    In t1 trips /\ stopTimesByTrip !! trip_id t1 = Some stopTimes1 /\
    findIndex (is_stop origin) stopTimes1 = Some originIndex /\
    stopTimes1 !! originIndex = Some board1 /\
    (originIndex < alightIndex)%nat /\
    stopTimes1 !! alightIndex = Some alight1 /\
    createLeg stopById routeById t1 board1 alight1 = Some (firstLeg p) /\
    In t2 trips /\ stopTimesByTrip !! trip_id t2 = Some stopTimes2 /\
    findIndex (is_stop destination) stopTimes2 = Some destIndex /\
    stopTimes2 !! destIndex = Some alight2 /\
    (boardIndex2 < destIndex)%nat /\
    stopTimes2 !! boardIndex2 = Some board2 /\
    createLeg stopById routeById t2 board2 alight2 = Some (secondLeg p) /\
    st_stop_id board2 = st_stop_id alight1 /\
    transferStop p = alightStop (firstLeg p).
Proof.
  unfold transferPlans. rewrite in_flat_map. intros (t1 & Ht1 & Hp).
  apply transferPlansOfTrip_In in Hp
    as (sts1 & oi & b1 & a1 & leg1 & opts & Hs1 & Hoi & Hb1 & Ha1 & El1 & Ho & Hp).
  apply joinLegs_In in Hp as (leg2 & Hleg2 & _ & _ & ->). simpl.
  apply In_drop_lookup in Ha1 as (i & Hi & Ha1).
  apply leg2ByStop_lookup in Ho as ->.
  apply bucket_In in Hleg2. unfold leg2Entries in Hleg2.
  apply in_flat_map in Hleg2 as (t2 & Ht2 & Hleg2).
  apply leg2EntriesOfTrip_In in Hleg2
    as (sts2 & di & a2 & b2 & Hs2 & Hdi & Ha2 & Hb2 & El2 & Hkey).
  apply In_take_lookup in Hb2 as (j & Hj & Hb2).
  exists t1, sts1, oi, b1, i, a1, t2, sts2, di, b2, j, a2.
  repeat split; auto; lia.
Qed.

End ShapeFacts.


Lemma is_stop_true (s : Stop) (time : StopTime) (i : nat) :
  is_stop s time i = true -> st_stop_id time = stop_id s.
Proof. unfold is_stop. apply String.eqb_eq. Qed.

Lemma findIndex_is_stop (s : Stop) (stopTimes : list StopTime) (i : nat)
    (time : StopTime) :
  findIndex (is_stop s) stopTimes = Some i -> stopTimes !! i = Some time ->
  st_stop_id time = stop_id s.
Proof.
  intros Hi Hl. apply findIndex_Some in Hi as (x & Hx & Hp & _).
  rewrite Hl in Hx. injection Hx as <-. now apply is_stop_true in Hp.
Qed.


(** X2. In every pairing of a transfer result the first leg alights and the
    second leg boards at the transfer stop, the first leg boards at the stop
    [stopById] holds under the origin's id, and the second leg alights at
    the stop it holds under the destination's id. *)
Theorem transfer_legs_meet :
  forall (haversineDistanceKm : Stop -> number -> number -> number)
    (trips : list Trip) (stopTimesByTrip : gmap string (list StopTime))
    (stopById : gmap string Stop) (routeById : gmap string Route)
    (origin destination : Stop) (destinationLocation : option LatLng)
    (nowMinutes : number),
    Forall (legsMeet stopById origin destination)
      (transfersOf
         (plan haversineDistanceKm trips stopTimesByTrip stopById routeById
            origin destination destinationLocation nowMinutes)).
Proof.
  intros hav trips stbt sbi rbi o d loc now.
  apply List.Forall_forall. intros p Hp.
  apply transfersOf_plan_In in Hp. apply transferPlans_shape in Hp
    as (t1 & sts1 & oi & b1 & ai & a1 & t2 & sts2 & di & b2 & bi2 & a2
        & _ & _ & Hoi & Hb1 & _ & _ & El1 & _ & _ & Hdi & Ha2 & _ & _ & El2
        & Hkey & Hts).
  apply createLeg_Some in El1 as (_ & _ & _ & _ & _ & Hbs1 & Has1).
  apply createLeg_Some in El2 as (_ & _ & _ & _ & _ & Hbs2 & Has2).
  rewrite (findIndex_is_stop o sts1 oi b1 Hoi Hb1) in Hbs1.
  rewrite (findIndex_is_stop d sts2 di a2 Hdi Ha2) in Has2.
  rewrite Hkey, Has1 in Hbs2. injection Hbs2 as Hmeet.
  unfold legsMeet. rewrite Hts. auto.
Qed.

(** X3. A direct result is returned exactly when the stops differ and the
    direct enumeration yields a candidate; a transfer result exactly when
    the stops differ, no direct candidate exists and the join builds a
    pairing: the transfer search never overrides a direct trip. *)
Theorem direct_takes_precedence :
  forall (haversineDistanceKm : Stop -> number -> number -> number)
    (trips : list Trip) (stopTimesByTrip : gmap string (list StopTime))
    (stopById : gmap string Stop) (routeById : gmap string Route)
    (origin destination : Stop) (destinationLocation : option LatLng)
    (nowMinutes : number),
    ((exists nextTrip alternatives serviceNote,
        plan haversineDistanceKm trips stopTimesByTrip stopById routeById
          origin destination destinationLocation nowMinutes
        = PlanDirect nextTrip alternatives serviceNote)
     <->
     stop_id origin <> stop_id destination /\
     candidates haversineDistanceKm trips stopTimesByTrip stopById routeById
       origin destination destinationLocation <> []) /\
    ((exists nextTransfer alternatives serviceNote,
        plan haversineDistanceKm trips stopTimesByTrip stopById routeById
          origin destination destinationLocation nowMinutes
        = PlanTransfer nextTransfer alternatives serviceNote)
     <->
     stop_id origin <> stop_id destination /\
     candidates haversineDistanceKm trips stopTimesByTrip stopById routeById
       origin destination destinationLocation = [] /\
     transferPlans trips stopTimesByTrip stopById routeById origin destination
       <> []).
Proof.
  intros hav trips stbt sbi rbi o d loc now.
  destruct (String.eqb_spec (stop_id o) (stop_id d)) as [Heq|Hne].
  - rewrite (plan_same_stop hav trips stbt sbi rbi o d loc now Heq).
    split; (split; [intros (? & ? & ? & [=])|intros [Habs _]; contradiction]).
  - destruct (plan_cases hav trips stbt sbi rbi o d loc now Hne)
      as [(Hc & first & rest & _ & [[_ Hp]|(n & alts & _ & Hp)])
         |[(Hc & Ht & Hp)
          |(Hc & Ht & first & rest & _ & [[_ Hp]|(n & alts & _ & Hp)])]];
      rewrite Hp; split; split;
      try (intros (? & ? & ? & [=]));
      try (intros (_ & H1 & H2); contradiction);
      try (intros (_ & H1); contradiction);
      eauto.
Qed.

(** X4. What the service note means. A result without a note shows upcoming
    itineraries only; a result with a note carries the text "No more
    departures today. Showing the next available trip." and then none of the
    direct candidates (in a direct result) or none of the pairings (in a
    transfer result) boards at or after [nowMinutes]. *)
Theorem service_note_meaning :
  forall (haversineDistanceKm : Stop -> number -> number -> number)
    (trips : list Trip) (stopTimesByTrip : gmap string (list StopTime))
    (stopById : gmap string Stop) (routeById : gmap string Route)
    (origin destination : Stop) (destinationLocation : option LatLng)
    (nowMinutes : number),
    match plan haversineDistanceKm trips stopTimesByTrip stopById routeById
            origin destination destinationLocation nowMinutes with
    | PlanError _ => True
    | PlanDirect nextTrip alternatives None =>
        Forall (fun c => isUpcoming nowMinutes c = true) (nextTrip :: alternatives)
    | PlanDirect _ _ (Some note) =>
        note = "No more departures today. Showing the next available trip." /\
        Forall (fun c => isUpcoming nowMinutes c = false)
          (candidates haversineDistanceKm trips stopTimesByTrip stopById
             routeById origin destination destinationLocation)
    | PlanTransfer nextTransfer alternatives None =>
        Forall (fun p => isUpcoming nowMinutes (firstLeg p) = true)
          (nextTransfer :: alternatives)
    | PlanTransfer _ _ (Some note) =>
        note = "No more departures today. Showing the next available trip." /\
        Forall (fun p => isUpcoming nowMinutes (firstLeg p) = false)
          (transferPlans trips stopTimesByTrip stopById routeById
             origin destination)
    end.
Proof.
  intros hav trips stbt sbi rbi o d loc now.
  assert (forall (A : Type) (f : A -> bool) (l : list A),
            Forall (fun x => f x = true) (List.filter f l)) as Hkept.
  { intros A f l. apply List.Forall_forall. intros x Hx.
    now apply filter_In in Hx. }
  assert (forall (A : Type) (cmp : A -> A -> number) (f : A -> bool) (l : list A),
            List.filter f (js_sort cmp l) = [] ->
            Forall (fun x => f x = false) l) as Hnone.
  { intros A cmp f l Hf. apply List.Forall_forall. intros x Hx.
    rewrite filter_nil_iff in Hf. apply Hf. now apply js_sort_In. }
  unfold plan. destruct (String.eqb _ _); [exact I|].
  destruct (js_sort byBoardTime (candidates hav trips stbt sbi rbi o d loc))
    as [|first rest] eqn:Es.
  - destruct (js_sort byBoardTimeThenTotal (transferPlans trips stbt sbi rbi o d))
      as [|tfirst trest] eqn:Et; [exact I|].
    destruct (List.filter _ (tfirst :: trest)) as [|n alts] eqn:Ef.
    + split; [reflexivity|]. rewrite <- Et in Ef.
      exact (Hnone _ byBoardTimeThenTotal
               (fun p => isUpcoming now (firstLeg p)) _ Ef).
    + rewrite <- Ef.
      exact (Hkept _ (fun p => isUpcoming now (firstLeg p)) _).
  - destruct (List.filter _ (first :: rest)) as [|n alts] eqn:Ef.
    + split; [reflexivity|]. rewrite <- Es in Ef.
      exact (Hnone _ byBoardTime (isUpcoming now) _ Ef).
    + rewrite <- Ef. exact (Hkept _ (isUpcoming now) _).
Qed.

(** X5. End-of-service rollover for transfers, for two different stops and
    a feed whose times are finite, when there is no direct candidate and the
    join builds pairings. When no pairing boards its first leg at or after
    [nowMinutes], the result is a transfer with the note and shows all the
    pairings, sorted by first-leg boarding time and then total minutes;
    otherwise it is a transfer without note and shows exactly the upcoming
    pairings in that order. *)
Theorem transfer_rollover :
  forall (haversineDistanceKm : Stop -> number -> number -> number)
    (trips : list Trip) (stopTimesByTrip : gmap string (list StopTime))
    (stopById : gmap string Stop) (routeById : gmap string Route)
    (origin destination : Stop) (destinationLocation : option LatLng)
    (nowMinutes : number),
    stop_id origin <> stop_id destination ->
    finiteTimes trips stopTimesByTrip = true ->
    candidates haversineDistanceKm trips stopTimesByTrip stopById routeById
      origin destination destinationLocation = [] ->
    transferPlans trips stopTimesByTrip stopById routeById origin destination
      <> [] ->
    ((forall p,
        In p (transferPlans trips stopTimesByTrip stopById routeById
                origin destination) ->
        num_geb (timeToMinutes (boardTime (firstLeg p))) nowMinutes = false) ->
     exists nextTransfer alternatives,
       plan haversineDistanceKm trips stopTimesByTrip stopById routeById
         origin destination destinationLocation nowMinutes
       = PlanTransfer nextTransfer alternatives
           (Some "No more departures today. Showing the next available trip.") /\
       Permutation (nextTransfer :: alternatives)
         (transferPlans trips stopTimesByTrip stopById routeById
            origin destination) /\
       StronglySorted transferNoLater (nextTransfer :: alternatives)) /\
    ((exists p,
        In p (transferPlans trips stopTimesByTrip stopById routeById
                origin destination) /\
        num_geb (timeToMinutes (boardTime (firstLeg p))) nowMinutes = true) ->
     exists nextTransfer alternatives,
       plan haversineDistanceKm trips stopTimesByTrip stopById routeById
         origin destination destinationLocation nowMinutes
       = PlanTransfer nextTransfer alternatives None /\
       Permutation (nextTransfer :: alternatives)
         (List.filter
            (fun p => num_geb (timeToMinutes (boardTime (firstLeg p))) nowMinutes)
            (transferPlans trips stopTimesByTrip stopById routeById
               origin destination)) /\
       StronglySorted transferNoLater (nextTransfer :: alternatives)).
Proof.
  intros hav trips stbt sbi rbi o d loc now Hne Hfin Hcands Hplans.
  pose proof (transferPlans_sorted trips stbt sbi rbi o d Hfin) as Hsorted.
  pose proof (js_sort_Permutation byBoardTimeThenTotal
                (transferPlans trips stbt sbi rbi o d)) as Hperm.
  destruct (plan_cases hav trips stbt sbi rbi o d loc now Hne)
    as [(Habs & _)|[(_ & Habs & _)|(_ & _ & first & rest & Es & Hc)]];
    [contradiction|contradiction|].
  rewrite Es in Hsorted, Hperm.
  change (fun p => num_geb (timeToMinutes (boardTime (firstLeg p))) now)
    with (fun p => isUpcoming now (firstLeg p)).
  split.
  - intros Hnone.
    destruct Hc as [[_ Hp]|(n & alts & Ef & _)].
    + exists first, rest. auto.
    + exfalso.
      assert (In n (List.filter (fun p => isUpcoming now (firstLeg p))
                      (first :: rest))) as Hn by (rewrite Ef; now left).
      apply filter_In in Hn as [Hn Hup].
      apply (Permutation_in _ Hperm) in Hn.
      unfold isUpcoming in Hup. rewrite (Hnone n Hn) in Hup. discriminate.
  - intros (p & Hp' & Hup).
    destruct Hc as [[Ef _]|(n & alts & Ef & Hp)].
    + exfalso.
      apply (Permutation_in _ (Permutation_sym Hperm)) in Hp'.
      rewrite filter_nil_iff in Ef. specialize (Ef p Hp').
      unfold isUpcoming in Ef. congruence.
    + exists n, alts. split; [exact Hp|]. rewrite <- Ef. split.
      * now apply filter_Permutation_bool.
      * now apply filter_StronglySorted.
Qed.

(** The feed with two second legs, asked at 10:00: both pairings are shown,
    with the note. *)
Lemma transfer_rollover_witness :
  exists nextTransfer alternatives,
    plan Sample.flatDistance [Sample.trip1; Sample.trip3; Sample.trip2]
      Sample.tieFeed Sample.stopById Sample.routeById
      Sample.stopA Sample.stopB None (Fin 600)
    = PlanTransfer nextTransfer alternatives
        (Some "No more departures today. Showing the next available trip.") /\
    Permutation (nextTransfer :: alternatives)
      (transferPlans [Sample.trip1; Sample.trip3; Sample.trip2]
         Sample.tieFeed Sample.stopById Sample.routeById
         Sample.stopA Sample.stopB) /\
    StronglySorted transferNoLater (nextTransfer :: alternatives).
Proof.
  apply (transfer_rollover Sample.flatDistance
           [Sample.trip1; Sample.trip3; Sample.trip2] Sample.tieFeed
           Sample.stopById Sample.routeById Sample.stopA Sample.stopB None (Fin 600)).
  - discriminate.
  - reflexivity.
  - vm_compute. reflexivity.
  - vm_compute. discriminate.
  - intros p Hp. vm_compute in Hp.
    destruct Hp as [<-|[<-|[]]]; vm_compute; reflexivity.
Defined.

(** X6. The planner and the reachability filter agree on transfers:
    whenever the join builds a pairing from the origin to the destination,
    the origin's stop id is among the eligible ids of the destination. *)
Theorem transfer_origin_is_eligible :
  forall (trips : list Trip) (stopTimesByTrip : gmap string (list StopTime))
    (stopById : gmap string Stop) (routeById : gmap string Route)
    (origin destination : Stop),
    transferPlans trips stopTimesByTrip stopById routeById origin destination
      <> [] ->
    stop_id origin ∈ buildEligibleStopIds destination trips stopTimesByTrip.
Proof.
  intros trips stbt sbi rbi o d Hplans.
  destruct (transferPlans trips stbt sbi rbi o d) as [|p ps] eqn:Ep;
    [contradiction|].
  assert (In p (transferPlans trips stbt sbi rbi o d)) as Hp
    by (rewrite Ep; now left).
  apply transferPlans_shape in Hp
    as (t1 & sts1 & oi & b1 & ai & a1 & t2 & sts2 & di & b2 & bi2 & a2
        & Ht1 & Hs1 & Hoi & Hb1 & Hlt1 & Ha1 & _ & Ht2 & Hs2 & Hdi & _ & Hlt2
        & Hb2 & _ & Hkey & _).
  unfold buildEligibleStopIds. apply elem_of_union. right.
  apply elem_of_transferReachable.
  exists t1. split; [exact Ht1|].
  exists sts1, ai, oi, a1, b1. repeat split; auto.
  - apply elem_of_directReachable. exists t2. split; [exact Ht2|].
    exists sts2, di, bi2, b2. auto.
  - exact (findIndex_is_stop o sts1 oi b1 Hoi Hb1).
Qed.

(** On the feed of two trips that meet at T, A is eligible for B. *)
Lemma transfer_origin_is_eligible_witness :
  "A" ∈ buildEligibleStopIds Sample.stopB [Sample.trip1; Sample.trip2]
          Sample.transferFeed.
Proof.
  apply (transfer_origin_is_eligible [Sample.trip1; Sample.trip2]
           Sample.transferFeed Sample.stopById Sample.routeById
           Sample.stopA Sample.stopB).
  vm_compute. discriminate.
Defined.

(** ** Strict order on numbers *)

Section StrictOrderFacts.
Local Open Scope Q_scope.

Lemma num_ltb_irrefl (a : number) : num_ltb a a = false.
Proof.
  destruct a as [| |p|]; try reflexivity.
  apply not_true_iff_false. rewrite num_ltb_Fin. apply Qlt_irrefl.
Qed.

Lemma num_ltb_trans (a b c : number) :
  num_ltb a b = true -> num_ltb b c = true -> num_ltb a c = true.
Proof.
  destruct a as [| |p|], b as [| |q|], c as [| |r|]; try easy.
  rewrite !num_ltb_Fin. apply Qlt_trans.
Qed.

Lemma num_ltb_asym (a b : number) : num_ltb a b = true -> num_ltb b a = false.
Proof.
  intros H. destruct (num_ltb b a) eqn:E; [|reflexivity].
  pose proof (num_ltb_trans a b a H E) as Habs.
  now rewrite num_ltb_irrefl in Habs.
Qed.

(** What is not below a bound is not below a larger bound's replacement:
    if [x] is not below [b] and [c] is below [b], then [x] is not below
    [c]. *)
Lemma num_not_ltb_lower (x b c : number) :
  num_ltb x b = false -> num_ltb c b = true -> num_ltb x c = false.
Proof.
  destruct x as [| |p|], b as [| |q|], c as [| |r|]; try easy.
  rewrite <- !not_true_iff_false, !num_ltb_Fin. intros H1 H2 H3. apply H1.
  now apply Qlt_trans with r.
Qed.

Lemma num_leb_of_not_ltb (a b : number) :
  isNaN a = false -> isNaN b = false -> num_ltb b a = false -> num_leb a b = true.
Proof. intros Ha Hb H. now rewrite (num_leb_not_ltb a b Ha Hb), H. Qed.

Lemma num_ltb_not_NaN (a b : number) :
  num_ltb a b = true -> isNaN a = false /\ isNaN b = false.
Proof. now destruct a, b. Qed.
End StrictOrderFacts.

(** ** The proximity scan *)

Section ScanFacts.
Variable haversineDistanceKm : Stop -> number -> number -> number.
Variable stopById : gmap string Stop.
Variable location : LatLng.
Variable boardMinutes : number.

(** The body of the loop of [pickClosestStopAfterBoard]. *)
Local Abbreviation scan_step :=
  (fun (closest : option Closest) (stopTime : StopTime) =>
     if num_leb (timeToMinutes (arrival_time stopTime)) boardMinutes then closest
     else
       match stopById !! st_stop_id stopTime with
       | None => closest
       | Some stop =>
           let d := haversineDistanceKm stop (lat location) (lng location) in
           match closest with
           | Some c =>
               if num_ltb d (distanceKm c)
               then Some (mkClosest stopTime stop d) else closest
           | None => Some (mkClosest stopTime stop d)
           end
       end).

Local Abbreviation scannable_here := (scannable stopById boardMinutes).

Lemma scan_None (l : list StopTime) :
  forall acc,
    foldl scan_step acc l = None <->
    acc = None /\ forall stopTime stop, In stopTime l -> ~ scannable_here stopTime stop.
Proof.
  unfold scannable.
  induction l as [|x l IH]; intros acc; simpl.
  - split; [intros ->; split; [reflexivity|now intros ? ? []]|now intros [-> _]].
  - rewrite IH. split.
    + intros [Hacc Hl].
      destruct (num_leb (timeToMinutes (arrival_time x)) boardMinutes) eqn:El.
      * split; [exact Hacc|]. intros st s [<-|Hin] [H1 H2]; [congruence|].
        now apply (Hl st s).
      * destruct (stopById !! st_stop_id x) as [sx|] eqn:Es.
        -- destruct acc as [c|]; [destruct (num_ltb _ _)|]; discriminate.
        -- split; [exact Hacc|]. intros st s [<-|Hin] [H1 H2]; [congruence|].
           now apply (Hl st s).
    + intros [-> Hl]. split.
      * destruct (num_leb (timeToMinutes (arrival_time x)) boardMinutes) eqn:El;
          [reflexivity|].
        destruct (stopById !! st_stop_id x) as [sx|] eqn:Es; [|reflexivity].
        exfalso. apply (Hl x sx); [now left|now split].
      * intros st s Hin. apply Hl. now right.
Qed.

Lemma scan_minimal (l : list StopTime) :
  forall acc c,
    foldl scan_step acc l = Some c ->
    (forall c0, acc = Some c0 ->
       c = c0 \/ num_ltb (distanceKm c) (distanceKm c0) = true) /\
    (forall stopTime stop, In stopTime l -> scannable_here stopTime stop ->
       num_ltb (haversineDistanceKm stop (lat location) (lng location))
               (distanceKm c) = false).
Proof.
  unfold scannable.
  induction l as [|x l IH]; intros acc c; simpl.
  - intros ->. split; [intros c0 [= ->]; now left|now intros ? ? []].
  - intros H. apply IH in H as [Hacc Hl].
    assert (forall d, c = mkClosest x d.1 d.2 \/
                      num_ltb (distanceKm c) d.2 = true ->
                      num_ltb d.2 (distanceKm c) = false) as Hnew.
    { intros d [->|Hlt]; [apply num_ltb_irrefl|now apply num_ltb_asym]. }
    destruct (num_leb (timeToMinutes (arrival_time x)) boardMinutes) eqn:El.
    { split; [exact Hacc|]. intros st s [<-|Hin] [H1 H2]; [congruence|].
      now apply (Hl st s). }
    destruct (stopById !! st_stop_id x) as [sx|] eqn:Es.
    2:{ split; [exact Hacc|]. intros st s [<-|Hin] [H1 H2]; [congruence|].
        now apply (Hl st s). }
    set (dx := haversineDistanceKm sx (lat location) (lng location)) in *.
    destruct acc as [c0|].
    + destruct (num_ltb dx (distanceKm c0)) eqn:Elt.
      * specialize (Hacc _ eq_refl). simpl in Hacc. split.
        -- intros c0' [= <-]. right.
           destruct Hacc as [->|Hacc]; [exact Elt|].
           now apply num_ltb_trans with dx.
        -- intros st s [<-|Hin] [H1 H2]; [|now apply (Hl st s)].
           rewrite Es in H2. injection H2 as <-.
           apply (Hnew (sx, dx)). exact Hacc.
      * specialize (Hacc _ eq_refl). split.
        -- intros c0' [= <-]. exact Hacc.
        -- intros st s [<-|Hin] [H1 H2]; [|now apply (Hl st s)].
           rewrite Es in H2. injection H2 as <-. fold dx.
           destruct Hacc as [->|Hacc]; [exact Elt|].
           now apply num_not_ltb_lower with (distanceKm c0).
    + specialize (Hacc _ eq_refl). simpl in Hacc. split; [discriminate|].
      intros st s [<-|Hin] [H1 H2]; [|now apply (Hl st s)].
      rewrite Es in H2. injection H2 as <-.
      apply (Hnew (sx, dx)). exact Hacc.
Qed.

End ScanFacts.

(** X7. The proximity scan. It finds nothing exactly when there is no
    destination coordinate or no stop-time after the boarding index both
    arrives otherwise than at or before the boarding minute and has a known
    stop. What it finds is such a stop-time, with its stop and the distance
    of that stop to the coordinate, and no such stop-time has a stop
    strictly closer to the coordinate. *)
Theorem proximity_scan_picks_a_closest :
  forall (haversineDistanceKm : Stop -> number -> number -> number)
    (stopById : gmap string Stop) (destinationLocation : option LatLng)
    (stopTimes : list StopTime) (boardIndex : nat) (boardMinutes : number),
    (pickClosestStopAfterBoard haversineDistanceKm stopById
       destinationLocation stopTimes boardIndex boardMinutes = None
     <->
     destinationLocation = None \/
     forall stopTime stop,
       In stopTime (drop (S boardIndex) stopTimes) ->
       ~ scannable stopById boardMinutes stopTime stop) /\
    match pickClosestStopAfterBoard haversineDistanceKm stopById
            destinationLocation stopTimes boardIndex boardMinutes with
    | None => True
    | Some closest =>
        exists location,
          destinationLocation = Some location /\
          In (closest_stopTime closest) (drop (S boardIndex) stopTimes) /\
          scannable stopById boardMinutes
            (closest_stopTime closest) (closest_stop closest) /\
          distanceKm closest
          = haversineDistanceKm (closest_stop closest)
              (lat location) (lng location) /\
          forall stopTime stop,
            In stopTime (drop (S boardIndex) stopTimes) ->
            scannable stopById boardMinutes stopTime stop ->
            num_ltb (haversineDistanceKm stop (lat location) (lng location))
                    (distanceKm closest) = false
    end.
Proof.
  intros hav sbi loc sts bi bm.
  assert (forall c,
            pickClosestStopAfterBoard hav sbi loc sts bi bm = Some c ->
            exists location,
              loc = Some location /\
              In (closest_stopTime c) (drop (S bi) sts) /\
              scannable sbi bm (closest_stopTime c) (closest_stop c) /\
              distanceKm c
              = hav (closest_stop c) (lat location) (lng location) /\
              forall stopTime stop,
                In stopTime (drop (S bi) sts) ->
                scannable sbi bm stopTime stop ->
                num_ltb (hav stop (lat location) (lng location))
                        (distanceKm c) = false) as Hsome.
  { intros c E.
    destruct (pickClosestStopAfterBoard_Some hav sbi loc sts bi bm c E)
      as (location & -> & Hin & Hleb & Hstop & Hdist).
    exists location. split; [reflexivity|]. split; [exact Hin|].
    split; [now split|]. split; [exact Hdist|].
    unfold pickClosestStopAfterBoard in E.
    now apply (scan_minimal hav sbi location bm _ None c). }
  split.
  - split.
    + unfold pickClosestStopAfterBoard. destruct loc as [location|]; [|now left].
      intros E. right. now apply (scan_None hav sbi location bm _ None).
    + intros H.
      destruct (pickClosestStopAfterBoard hav sbi loc sts bi bm) as [c|] eqn:E;
        [|reflexivity].
      exfalso. destruct (Hsome c eq_refl) as (location & Hloc & Hin & Hscan & _).
      destruct H as [H|H]; [congruence|].
      exact (H _ _ Hin Hscan).
  - destruct (pickClosestStopAfterBoard hav sbi loc sts bi bm) as [c|] eqn:E;
      [|exact I].
    now apply (Hsome c).
Qed.

(** ** Nearest stops *)

Section NearestFacts.
Variable haversineDistanceKm : Stop -> number -> number -> number.
Variables lat lon : number.

Local Abbreviation distanceTo := (fun stop => haversineDistanceKm stop lat lon).

Local Abbreviation nearest_step :=
  (fun (acc : Nearest) (stop : Stop) =>
     let distance := haversineDistanceKm stop lat lon in
     if num_ltb distance (nearest_distanceKm acc)
     then mkNearest stop distance else acc).

(** What the loop of [findNearestStop] maintains once the stops of [pre]
    are visited. *)
Local Abbreviation nearest_inv :=
  (fun (stops pre : list Stop) (acc : Nearest) =>
     (exists i,
        stops !! i = Some (nearest_stop acc) /\
        forall j s, (j < i)%nat -> stops !! j = Some s ->
          distanceTo s <> nearest_distanceKm acc) /\
     nearest_distanceKm acc = distanceTo (nearest_stop acc) /\
     forall s, In s pre -> num_ltb (distanceTo s) (nearest_distanceKm acc) = false).

Lemma nearest_fold (stops l : list Stop) :
  forall pre acc,
    stops = pre ++ l -> nearest_inv stops pre acc ->
    nearest_inv stops stops (foldl nearest_step acc l).
Proof.
  induction l as [|x l IH]; intros pre acc Hs Hinv; simpl.
  - rewrite app_nil_r in Hs. now subst pre.
  - apply (IH (pre ++ [x])); [now rewrite <- app_assoc|].
    destruct Hinv as ((i & Hi & Hfirst) & Hdist & Hpre).
    destruct (num_ltb (haversineDistanceKm x lat lon) (nearest_distanceKm acc))
      eqn:Elt; simpl.
    + split; [|split; [reflexivity|]].
      * exists (length pre). split.
        -- rewrite Hs. now rewrite list_lookup_middle.
        -- intros j s Hj Hl Heq.
           rewrite Hs, lookup_app_l in Hl by exact Hj.
           apply lookup_In in Hl. specialize (Hpre s Hl).
           rewrite Heq in Hpre. congruence.
      * intros s Hin. apply in_app_or in Hin as [Hin|[<-|[]]].
        -- now apply num_not_ltb_lower with (nearest_distanceKm acc); auto.
        -- apply num_ltb_irrefl.
    + split; [eauto|]. split; [exact Hdist|].
      intros s Hin. apply in_app_or in Hin as [Hin|[<-|[]]]; auto.
Qed.

Lemma findNearestStop_Some (stops : list Stop) (r : Nearest) :
  findNearestStop haversineDistanceKm stops lat lon = Some r ->
  nearest_inv stops stops r.
Proof.
  destruct stops as [|first rest] eqn:E; [discriminate|].
  unfold findNearestStop. intros H.
  injection H as <-.
  apply (nearest_fold (first :: rest) (first :: rest) []
           (mkNearest first (haversineDistanceKm first lat lon)));
    [reflexivity|].
  simpl. split; [|split; [reflexivity|now intros s []]].
  exists 0%nat. split; [reflexivity|]. intros j s Hj. lia.
Qed.

Lemma findNearestStop_In (stops : list Stop) (r : Nearest) :
  findNearestStop haversineDistanceKm stops lat lon = Some r ->
  In (nearest_stop r) stops.
Proof.
  intros H. apply findNearestStop_Some in H as ((i & Hi & _) & _).
  now apply lookup_In in Hi.
Qed.

Lemma findNearestStop_None (stops : list Stop) :
  findNearestStop haversineDistanceKm stops lat lon = None <-> stops = [].
Proof. destruct stops; simpl; split; congruence. Qed.

End NearestFacts.

(** X8. [findNearestStop] fails exactly on the empty list. Otherwise it
    returns a stop of the list with its own distance, no stop of the list is
    strictly closer, and among the stops at that distance it returns the
    first. *)
Theorem nearest_stop_is_first_closest :
  forall (haversineDistanceKm : Stop -> number -> number -> number)
    (stops : list Stop) (lat lon : number),
    match findNearestStop haversineDistanceKm stops lat lon with
    | None => stops = []
    | Some r =>
        nearest_distanceKm r = haversineDistanceKm (nearest_stop r) lat lon /\
        (forall s, In s stops ->
           num_ltb (haversineDistanceKm s lat lon) (nearest_distanceKm r) = false) /\
        exists i,
          stops !! i = Some (nearest_stop r) /\
          forall j s, (j < i)%nat -> stops !! j = Some s ->
            haversineDistanceKm s lat lon <> nearest_distanceKm r
    end.
Proof.
  intros hav stops lat lon.
  destruct (findNearestStop hav stops lat lon) as [r|] eqn:E.
  - apply findNearestStop_Some in E as (Hfirst & Hdist & Hmin). auto.
  - now apply findNearestStop_None in E.
Qed.

(** [pickNearestStop] returns [null] exactly when both lists are empty;
    otherwise it answers from the primary list whenever that list is not
    empty, and from the fallback list only when it is. *)
Lemma pickNearestStop_cases
    (haversineDistanceKm : Stop -> number -> number -> number)
    (primary fallback : list Stop) (lat lon : number) :
  match pickNearestStop haversineDistanceKm primary fallback lat lon with
  | None => primary = [] /\ fallback = []
  | Some r =>
      pickNearestStop haversineDistanceKm primary fallback lat lon
      = findNearestStop haversineDistanceKm
          (match primary with [] => fallback | _ => primary end) lat lon /\
      In (nearest_stop r) (match primary with [] => fallback | _ => primary end)
  end.
Proof.
  unfold pickNearestStop.
  destruct primary as [|p ps].
  - destruct fallback as [|f fs]; [auto|].
    destruct (findNearestStop haversineDistanceKm (f :: fs) lat lon) as [r|] eqn:E.
    + split; [reflexivity|]. now apply findNearestStop_In in E.
    + now apply findNearestStop_None in E.
  - destruct (findNearestStop haversineDistanceKm (p :: ps) lat lon) as [r|] eqn:E.
    + split; [reflexivity|]. now apply findNearestStop_In in E.
    + now apply findNearestStop_None in E.
Qed.

(** X9. The origin snapped from an address. It is [null] exactly when
    there is no stop at all; otherwise it is a stop of the list, and it is
    eligible for the destination whenever some stop of the list is. *)
Theorem snapped_origin_is_eligible :
  forall (haversineDistanceKm : Stop -> number -> number -> number)
    (stops : list Stop) (destination : Stop) (trips : list Trip)
    (stopTimesByTrip : gmap string (list StopTime)) (location : LatLng),
    match originForAddress haversineDistanceKm stops destination trips
            stopTimesByTrip location with
    | None => stops = []
    | Some origin =>
        In origin stops /\
        ((exists s,
            In s stops /\
            stop_id s ∈ buildEligibleStopIds destination trips stopTimesByTrip) ->
         stop_id origin ∈ buildEligibleStopIds destination trips stopTimesByTrip)
    end.
Proof.
  intros hav stops d trips stbt location.
  unfold originForAddress, eligibleStopsForDestination.
  set (ids := buildEligibleStopIds d trips stbt).
  set (eligible := if (size ids =? 0)%nat then []
                   else List.filter (fun stop => bool_decide (stop_id stop ∈ ids)) stops).
  assert (forall s, In s eligible -> In s stops /\ stop_id s ∈ ids) as Hel.
  { unfold eligible. intros s Hs. destruct (size ids =? 0)%nat; [destruct Hs|].
    apply filter_In in Hs as [Hs Hb]. now apply bool_decide_eq_true in Hb. }
  assert (eligible = [] ->
          forall s, In s stops -> stop_id s ∈ ids -> False) as Hnone.
  { unfold eligible. intros He s Hs Hid.
    destruct (Nat.eqb_spec (size ids) 0) as [Hz|_].
    - apply size_empty_iff in Hz. apply (Hz (stop_id s)) in Hid.
      now apply elem_of_empty in Hid.
    - rewrite filter_nil_iff in He. specialize (He s Hs).
      apply bool_decide_eq_false in He. contradiction. }
  pose proof (pickNearestStop_cases hav eligible stops
                (lat location) (lng location)) as Hpick.
  destruct (pickNearestStop hav eligible stops (lat location) (lng location))
    as [r|]; simpl.
  - destruct Hpick as [_ Hin]. destruct eligible as [|e es] eqn:Ee.
    + split; [exact Hin|]. intros (s & Hs & Hid).
      now destruct (Hnone eq_refl s Hs Hid).
    + destruct (Hel _ Hin) as [H1 H2]. auto.
  - now destruct Hpick.
Qed.


(** ** The service area *)

Section BoundsFacts.

Local Abbreviation bounds_step :=
  (fun (b : Bounds) (stop : Stop) =>
     {| minLat := if num_ltb (stop_lat stop) (minLat b)
                  then stop_lat stop else minLat b;
        maxLat := if num_gtb (stop_lat stop) (maxLat b)
                  then stop_lat stop else maxLat b;
        minLon := if num_ltb (stop_lon stop) (minLon b)
                  then stop_lon stop else minLon b;
        maxLon := if num_gtb (stop_lon stop) (maxLon b)
                  then stop_lon stop else maxLon b |}).

(** No field of the running box is [NaN]. *)
Local Abbreviation box_ok :=
  (fun b : Bounds =>
     isNaN (minLat b) = false /\ isNaN (maxLat b) = false /\
     isNaN (minLon b) = false /\ isNaN (maxLon b) = false).

Lemma min_step (x m : number) :
  isNaN m = false ->
  let m' := if num_ltb x m then x else m in
  isNaN m' = false /\ num_leb m' m = true /\
  (isNaN x = false -> num_leb m' x = true).
Proof.
  intros Hm. simpl. destruct (num_ltb x m) eqn:E.
  - destruct (num_ltb_not_NaN _ _ E) as [Hx _].
    split; [exact Hx|]. split; [now apply num_ltb_leb|]. intros _.
    now apply num_leb_refl.
  - split; [exact Hm|]. split; [now apply num_leb_refl|]. intros Hx.
    now apply num_leb_of_not_ltb.
Qed.

Lemma max_step (x m : number) :
  isNaN m = false ->
  let m' := if num_gtb x m then x else m in
  isNaN m' = false /\ num_leb m m' = true /\
  (isNaN x = false -> num_leb x m' = true).
Proof.
  intros Hm. simpl. unfold num_gtb. destruct (num_ltb m x) eqn:E.
  - destruct (num_ltb_not_NaN _ _ E) as [_ Hx].
    split; [exact Hx|]. split; [now apply num_ltb_leb|]. intros _.
    now apply num_leb_refl.
  - split; [exact Hm|]. split; [now apply num_leb_refl|]. intros Hx.
    now apply num_leb_of_not_ltb.
Qed.

Lemma bounds_fold_grows (l : list Stop) :
  forall b, box_ok b ->
    box_ok (foldl bounds_step b l) /\
    num_leb (minLat (foldl bounds_step b l)) (minLat b) = true /\
    num_leb (maxLat b) (maxLat (foldl bounds_step b l)) = true /\
    num_leb (minLon (foldl bounds_step b l)) (minLon b) = true /\
    num_leb (maxLon b) (maxLon (foldl bounds_step b l)) = true.
Proof.
  induction l as [|x l IH]; intros b (H1 & H2 & H3 & H4); simpl.
  - repeat split; auto using num_leb_refl.
  - destruct (min_step (stop_lat x) (minLat b) H1) as (A1 & A2 & _).
    destruct (max_step (stop_lat x) (maxLat b) H2) as (B1 & B2 & _).
    destruct (min_step (stop_lon x) (minLon b) H3) as (C1 & C2 & _).
    destruct (max_step (stop_lon x) (maxLon b) H4) as (D1 & D2 & _).
    destruct (IH (bounds_step b x)) as (Hok & I1 & I2 & I3 & I4);
      [simpl; auto|].
    simpl in I1, I2, I3, I4.
    split; [exact Hok|].
    repeat split; eauto using num_leb_trans.
Qed.

Lemma bounds_fold_contains (l : list Stop) (s : Stop) :
  forall b, box_ok b -> In s l ->
    (isNaN (stop_lat s) = false ->
     num_leb (minLat (foldl bounds_step b l)) (stop_lat s) = true /\
     num_leb (stop_lat s) (maxLat (foldl bounds_step b l)) = true) /\
    (isNaN (stop_lon s) = false ->
     num_leb (minLon (foldl bounds_step b l)) (stop_lon s) = true /\
     num_leb (stop_lon s) (maxLon (foldl bounds_step b l)) = true).
Proof.
  induction l as [|x l IH]; intros b Hb Hin; [destruct Hin|].
  pose proof Hb as (H1 & H2 & H3 & H4).
  destruct (min_step (stop_lat x) (minLat b) H1) as (A1 & _ & A3).
  destruct (max_step (stop_lat x) (maxLat b) H2) as (B1 & _ & B3).
  destruct (min_step (stop_lon x) (minLon b) H3) as (C1 & _ & C3).
  destruct (max_step (stop_lon x) (maxLon b) H4) as (D1 & _ & D3).
  assert (box_ok (bounds_step b x)) as Hb' by (simpl; auto).
  destruct Hin as [<-|Hin]; [|now apply IH].
  simpl. destruct (bounds_fold_grows l (bounds_step b x) Hb')
    as (_ & I1 & I2 & I3 & I4).
  simpl in I1, I2, I3, I4.
  split; intros Hx; split; eauto using num_leb_trans.
Qed.

(** The padding is a positive binary64 value. *)
Lemma padding_positive :
  exists pad : double, serviceAreaPadding = Fin pad /\ (0 <= pad)%Q.
Proof.
  eexists. split; [vm_compute; reflexivity|]. vm_compute. discriminate.
Qed.

(** Rounding keeps the order, so a bound moved outwards by the padding is
    still a bound. *)
Lemma num_leb_sub_padding (m x : number) :
  num_leb m x = true -> num_leb (num_sub m serviceAreaPadding) x = true.
Proof.
  destruct padding_positive as (pad & -> & Hpad).
  destruct m as [| |p|]; intros H; [discriminate H|exact H| |exact H].
  apply (num_leb_trans _ (Fin p)); [|exact H].
  unfold num_sub. rewrite <- (fin_double p) at 1. apply fin_mono. lra.
Qed.

Lemma num_leb_add_padding (x m : number) :
  num_leb x m = true -> num_leb x (num_add m serviceAreaPadding) = true.
Proof.
  destruct padding_positive as (pad & -> & Hpad).
  destruct m as [| |p|]; intros H; [now destruct x|exact H| |exact H].
  apply (num_leb_trans _ (Fin p)); [exact H|].
  unfold num_add. rewrite <- (fin_double p) at 1. apply fin_mono. lra.
Qed.

End BoundsFacts.

(** X10. The service area contains the stops it is computed from: every
    stop of the list whose latitude and longitude are not [NaN] passes
    [isWithinBounds] against [serviceBounds] of the list. *)
Theorem service_bounds_contain_stops :
  forall (stops : list Stop) (s : Stop),
    In s stops ->
    isNaN (stop_lat s) = false -> isNaN (stop_lon s) = false ->
    isWithinBounds (stop_lat s) (stop_lon s) (serviceBounds stops) = true.
Proof.
  intros stops s Hin Hlat Hlon.
  destruct stops as [|first rest] eqn:E; [destruct Hin|]. rewrite <- E in *.
  unfold serviceBounds. rewrite E at 1. cbv zeta.
  assert (isNaN Infinity = false /\ isNaN NegInfinity = false /\
          isNaN Infinity = false /\ isNaN NegInfinity = false) as Hb by auto.
  destruct (bounds_fold_contains stops s
              {| minLat := Infinity; maxLat := NegInfinity;
                 minLon := Infinity; maxLon := NegInfinity |} Hb Hin)
    as [Hla Hlo].
  destruct (Hla Hlat) as [L1 L2]. destruct (Hlo Hlon) as [O1 O2].
  unfold isWithinBounds, num_geb. simpl.
  rewrite (num_leb_sub_padding _ _ L1), (num_leb_add_padding _ _ L2),
    (num_leb_sub_padding _ _ O1), (num_leb_add_padding _ _ O2).
  reflexivity.
Qed.

(** Two stops, the second further north-east. *)
Lemma service_bounds_contain_stops_witness :
  isWithinBounds (Fin 2) (Fin 0)
    (serviceBounds [Sample.lineA; Sample.lineC; Sample.lineB]) = true.
Proof.
  apply (service_bounds_contain_stops
           [Sample.lineA; Sample.lineC; Sample.lineB] Sample.lineB).
  - right. right. now left.
  - reflexivity.
  - reflexivity.
Defined.


(** ** The schedule index *)

Lemma groupStopTimes_fold (stopTimes : list StopTime) :
  forall (grouped : gmap string (list StopTime)) (id : string),
    foldl (fun grouped stopTime =>
      <[ st_trip_id stopTime :=
           default [] (grouped !! st_trip_id stopTime) ++ [stopTime] ]> grouped)
      grouped stopTimes !! id
    = match rowsOfTrip id stopTimes with
      | [] => grouped !! id
      | l => Some (default [] (grouped !! id) ++ l)
      end.
Proof.
  induction stopTimes as [|x rows IH]; intros grouped id; simpl; [reflexivity|].
  rewrite IH. unfold rowsOfTrip. simpl.
  destruct (String.eqb_spec (st_trip_id x) id) as [->|Hne].
  - rewrite lookup_insert_eq. simpl.
    destruct (List.filter _ rows); [reflexivity|].
    now rewrite <- app_assoc.
  - now rewrite lookup_insert_ne.
Qed.

Lemma buildStopTimesByTrip_lookup (stopTimes : list StopTime) (id : string) :
  buildStopTimesByTrip stopTimes !! id
  = match rowsOfTrip id stopTimes with
    | [] => None
    | l => Some (js_sort bySequence l)
    end.
Proof.
  unfold buildStopTimesByTrip, groupStopTimes.
  rewrite lookup_fmap, groupStopTimes_fold, lookup_empty.
  now destruct (rowsOfTrip id stopTimes).
Qed.

Lemma buildStopTimesByTrip_In (stopTimes l : list StopTime) (id : string)
    (row : StopTime) :
  buildStopTimesByTrip stopTimes !! id = Some l -> In row l ->
  In row stopTimes /\ st_trip_id row = id.
Proof.
  rewrite buildStopTimesByTrip_lookup.
  destruct (rowsOfTrip id stopTimes) as [|y l'] eqn:E; [discriminate|].
  intros H Hin. injection H as <-.
  apply (js_sort_In bySequence row (y :: l')) in Hin. rewrite <- E in Hin.
  apply filter_In in Hin as [Hin Heq]. apply String.eqb_eq in Heq. auto.
Qed.

(** X11. The grouping loop of the schedule index files under each trip id
    the rows that carry it, in feed order, and nothing under an id that no
    row carries. Sorting the lists changes no key: the index has an entry
    for exactly the trip ids that occur in the rows. *)
Theorem stop_times_grouped_by_trip :
  forall (stopTimes : list StopTime) (id : string),
    groupStopTimes stopTimes !! id
    = match rowsOfTrip id stopTimes with
      | [] => None
      | l => Some l
      end /\
    (buildStopTimesByTrip stopTimes !! id = None <-> rowsOfTrip id stopTimes = []).
Proof.
  intros rows id.
  assert (groupStopTimes rows !! id
          = match rowsOfTrip id rows with [] => None | l => Some l end) as E.
  { unfold groupStopTimes. rewrite groupStopTimes_fold, lookup_empty.
    now destruct (rowsOfTrip id rows). }
  split; [exact E|].
  unfold buildStopTimesByTrip. rewrite lookup_fmap, E.
  now destruct (rowsOfTrip id rows).
Qed.

(** X12. When no row has [NaN] for its stop sequence, every list of the
    schedule index is in ascending order of stop sequence and is a
    rearrangement of the rows of its trip. *)
Theorem stop_times_sorted_by_sequence :
  forall (stopTimes l : list StopTime) (id : string),
    Forall (fun row => isNaN (stop_sequence row) = false) stopTimes ->
    buildStopTimesByTrip stopTimes !! id = Some l ->
    StronglySorted sequenceNoLater l /\
    Permutation l (rowsOfTrip id stopTimes).
Proof.
  intros rows l id Hseq. rewrite buildStopTimesByTrip_lookup.
  destruct (rowsOfTrip id rows) as [|y l'] eqn:E; [discriminate|].
  intros H. injection H as <-.
  split; [|apply (js_sort_Permutation bySequence (y :: l'))].
  change (StronglySorted sequenceNoLater (js_sort bySequence (y :: l'))).
  apply (js_sort_sorted bySequence sequenceNoLater
           (fun row => isNaN (stop_sequence row) = false)).
  - intros a b c _ _ _. apply num_leb_trans.
  - intros a b _ _. apply num_leb_of_gtb_sub.
  - intros a b Ha Hb. now apply num_leb_of_not_gtb_sub.
  - rewrite <- E. unfold rowsOfTrip. apply List.Forall_forall. intros r Hr.
    apply filter_In in Hr as [Hr _].
    rewrite List.Forall_forall in Hseq. now apply Hseq.
Qed.

(** Three rows of two trips, out of order in the feed. *)
Lemma stop_times_sorted_by_sequence_witness :
  StronglySorted sequenceNoLater
    [Sample.call "t1" "A" "08:00:00" 1; Sample.call "t1" "B" "08:10:00" 2] /\
  Permutation
    [Sample.call "t1" "A" "08:00:00" 1; Sample.call "t1" "B" "08:10:00" 2]
    (rowsOfTrip "t1"
       [Sample.call "t1" "B" "08:10:00" 2; Sample.call "t2" "A" "09:00:00" 1;
        Sample.call "t1" "A" "08:00:00" 1]).
Proof.
  apply (stop_times_sorted_by_sequence
           [Sample.call "t1" "B" "08:10:00" 2; Sample.call "t2" "A" "09:00:00" 1;
            Sample.call "t1" "A" "08:00:00" 1]
           [Sample.call "t1" "A" "08:00:00" 1; Sample.call "t1" "B" "08:10:00" 2]
           "t1").
  - repeat constructor.
  - vm_compute. reflexivity.
Defined.

Lemma find_last {A : Type} (f : A -> bool) (l : list A) (x : A) :
  List.find f (l ++ [x])
  = match List.find f l with
    | Some y => Some y
    | None => if f x then Some x else None
    end.
Proof.
  induction l as [|y l IH]; simpl; [reflexivity|].
  now destruct (f y).
Qed.

Lemma buildStopById_fold (stops : list Stop) :
  forall (m : gmap string Stop) (id : string),
    foldl (fun m stop => <[ stop_id stop := stop ]> m) m stops !! id
    = match lastListed id stops with
      | Some stop => Some stop
      | None => m !! id
      end.
Proof.
  unfold lastListed.
  induction stops as [|x stops IH]; intros m id; simpl; [reflexivity|].
  rewrite IH, find_last.
  destruct (List.find _ (rev stops)); [reflexivity|].
  destruct (String.eqb_spec (stop_id x) id) as [->|Hne].
  - now rewrite lookup_insert_eq.
  - now rewrite lookup_insert_ne.
Qed.

Lemma buildStopById_lookup (stops : list Stop) (id : string) :
  buildStopById stops !! id = lastListed id stops.
Proof.
  unfold buildStopById. rewrite buildStopById_fold, lookup_empty.
  now destruct (lastListed id stops).
Qed.

Lemma buildStopById_Some (stops : list Stop) (id : string) (stop : Stop) :
  buildStopById stops !! id = Some stop -> In stop stops /\ stop_id stop = id.
Proof.
  rewrite buildStopById_lookup. unfold lastListed. intros H.
  apply find_some in H as [Hin Heq].
  apply in_rev in Hin. apply String.eqb_eq in Heq. auto.
Qed.

Lemma NoDup_map_eq {A B : Type} (f : A -> B) (l : list A) (x y : A) :
  List.NoDup (map f l) -> In x l -> In y l -> f x = f y -> x = y.
Proof.
  induction l as [|z l IH]; simpl; [intros _ []|].
  intros Hnd Hx Hy Hf. inversion Hnd as [|? ? Hz Hnd']; subst.
  destruct Hx as [->|Hx], Hy as [->|Hy]; auto.
  - exfalso. apply Hz. rewrite Hf. now apply in_map.
  - exfalso. apply Hz. rewrite <- Hf. now apply in_map.
Qed.

Lemma buildStopById_own (stops : list Stop) (stop : Stop) :
  List.NoDup (map stop_id stops) -> In stop stops ->
  buildStopById stops !! stop_id stop = Some stop.
Proof.
  intros Hnd Hin. rewrite buildStopById_lookup. unfold lastListed.
  destruct (List.find _ (rev stops)) as [other|] eqn:E.
  - apply find_some in E as [Ho Heq].
    apply in_rev in Ho. apply String.eqb_eq in Heq.
    f_equal. now apply (NoDup_map_eq stop_id stops).
  - apply in_rev in Hin. apply (find_none _ _ E stop) in Hin.
    now rewrite String.eqb_refl in Hin.
Qed.

(** X13. The stop index answers an id with the last stop of the list that
    carries it, and with nothing when no stop does: of two stops with the
    same id the later one replaces the earlier. *)
Theorem stop_index_keeps_last_listed :
  forall (stops : list Stop) (id : string),
    buildStopById stops !! id = lastListed id stops.
Proof. intros. apply buildStopById_lookup. Qed.

(** X14. When the stop ids of the list are pairwise different, the stop
    index returns every listed stop under its own id. *)
Theorem stop_index_finds_each_stop :
  forall (stops : list Stop) (stop : Stop),
    List.NoDup (map stop_id stops) -> In stop stops ->
    buildStopById stops !! stop_id stop = Some stop.
Proof. intros stops stop. apply buildStopById_own. Qed.

Lemma stop_index_finds_each_stop_witness :
  buildStopById [Sample.stopA; Sample.stopB; Sample.stopT] !! "B"
  = Some Sample.stopB.
Proof.
  apply (stop_index_finds_each_stop
           [Sample.stopA; Sample.stopB; Sample.stopT] Sample.stopB).
  - repeat constructor; simpl; intuition discriminate.
  - right. now left.
Defined.

(** ** The planner over the indexes built from the feed *)

Section FeedFacts.
Variable haversineDistanceKm : Stop -> number -> number -> number.
Variable trips : list Trip.
Variable stopTimes : list StopTime.
Variable stops : list Stop.
Variable routeById : gmap string Route.
Variables origin destination : Stop.

Lemma createLeg_fromFeed (t : Trip) (l : list StopTime)
    (board alight : StopTime) (leg : CandidateTrip) :
  buildStopTimesByTrip stopTimes !! trip_id t = Some l ->
  In board l -> In alight l ->
  createLeg (buildStopById stops) routeById t board alight = Some leg ->
  legFromFeed stopTimes stops leg.
Proof.
  intros Hl Hb Ha Hleg.
  apply createLeg_Some in Hleg as (Ht & Hbt & Hat & Hbq & Haq & Hbs & Has).
  apply buildStopById_Some in Hbs as [Hbs Hbi].
  apply buildStopById_Some in Has as [Has Hai].
  destruct (buildStopTimesByTrip_In _ _ _ _ Hl Hb) as [Hb1 Hb2].
  destruct (buildStopTimesByTrip_In _ _ _ _ Hl Ha) as [Ha1 Ha2].
  split; [exact Hbs|]. split; [exact Has|].
  exists board, alight. rewrite Ht. auto 12.
Qed.

Lemma directCandidate_fromFeed (destinationLocation : option LatLng)
    (t : Trip) (c : CandidateTrip) :
  directCandidate haversineDistanceKm (buildStopTimesByTrip stopTimes)
    (buildStopById stops) routeById origin destination destinationLocation t
    = Some c ->
  legFromFeed stopTimes stops c.
Proof.
  intros Hc. apply directCandidate_shape in Hc
    as (l & bi & b & ai & a & Ht & Hl & _ & Hb & _ & Ha & Hbt & Hat
        & Hbq & Haq & Hbs & Has & _).
  apply lookup_In in Hb, Ha.
  apply buildStopById_Some in Hbs as [Hbs Hbi].
  apply buildStopById_Some in Has as [Has Hai].
  destruct (buildStopTimesByTrip_In _ _ _ _ Hl Hb) as [Hb1 Hb2].
  destruct (buildStopTimesByTrip_In _ _ _ _ Hl Ha) as [Ha1 Ha2].
  split; [exact Hbs|]. split; [exact Has|].
  exists b, a. rewrite Ht. auto 12.
Qed.

(** Without a destination coordinate only the exact match can choose the
    alighting stop. *)
Lemma directCandidate_exact (stopTimesByTrip : gmap string (list StopTime))
    (stopById : gmap string Stop) (t : Trip) (c : CandidateTrip) :
  directCandidate haversineDistanceKm stopTimesByTrip stopById routeById
    origin destination None t = Some c ->
  stopById !! stop_id destination = Some (alightStop c).
Proof.
  unfold directCandidate.
  destruct (stopTimesByTrip !! trip_id t) as [l|]; [|discriminate].
  destruct (findIndex (is_stop origin) l) as [bi|]; [|discriminate].
  destruct (l !! bi) as [b|]; [|discriminate].
  destruct (chooseAlight _ _ _ _ _ _ _) as [[a|] [s|]] eqn:Ec; try discriminate.
  destruct (num_geb _ _); [discriminate|].
  destruct (stopById !! st_stop_id b); [|discriminate].
  intros [= <-]. simpl.
  unfold chooseAlight, pickClosestStopAfterBoard in Ec.
  destruct (exactAlight stopById destination l bi b) as [[a'|] [s'|]] eqn:Ex;
    try discriminate.
  injection Ec as -> ->.
  apply exactAlight_Some in Ex as (i & Hi & Hli & _ & Hs).
  apply destinationIndex_Some in Hi as (_ & cand & Hcand & Hid & _).
  rewrite Hli in Hcand. injection Hcand as <-. now rewrite <- Hid.
Qed.

End FeedFacts.

(** X15. Over the indexes built from the feed, every leg of every result,
    direct or with a transfer, is made of two rows of the stop-time table
    that carry the id of the leg's trip, and runs between two stops of the
    stop table whose ids are those of the two rows; its times and sequence
    numbers are those of the rows. *)
Theorem itineraries_use_feed_rows :
  forall (haversineDistanceKm : Stop -> number -> number -> number)
    (trips : list Trip) (stopTimes : list StopTime) (stops : list Stop)
    (routeById : gmap string Route) (origin destination : Stop)
    (destinationLocation : option LatLng) (nowMinutes : number),
    Forall (legFromFeed stopTimes stops)
      (directsOf
         (plan haversineDistanceKm trips (buildStopTimesByTrip stopTimes)
            (buildStopById stops) routeById origin destination
            destinationLocation nowMinutes)) /\
    Forall (fun p => legFromFeed stopTimes stops (firstLeg p) /\
                     legFromFeed stopTimes stops (secondLeg p))
      (transfersOf
         (plan haversineDistanceKm trips (buildStopTimesByTrip stopTimes)
            (buildStopById stops) routeById origin destination
            destinationLocation nowMinutes)).
Proof.
  intros hav trips rows stops rbi o d loc now. split.
  - apply List.Forall_forall. intros c Hc.
    apply directsOf_plan_In in Hc. apply candidates_In in Hc as (t & _ & Hc).
    now apply directCandidate_fromFeed in Hc.
  - apply List.Forall_forall. intros p Hp.
    apply transfersOf_plan_In in Hp. apply transferPlans_shape in Hp
      as (t1 & sts1 & oi & b1 & ai & a1 & t2 & sts2 & di & b2 & bi2 & a2
          & _ & Hs1 & _ & Hb1 & _ & Ha1 & El1 & _ & Hs2 & _ & Ha2 & _ & Hb2
          & El2 & _).
    apply lookup_In in Hb1, Ha1, Hb2, Ha2.
    split.
    + now apply (createLeg_fromFeed rows stops rbi t1 sts1 b1 a1).
    + now apply (createLeg_fromFeed rows stops rbi t2 sts2 b2 a2).
Qed.

(** X16. When the stop ids of the stop table are pairwise different and the
    two chosen stops are listed in it, every direct itinerary boards at the
    origin itself, and alights at the destination itself when no
    destination coordinate is known; every pairing boards its first leg at
    the origin and alights its second leg at the destination. *)
Theorem itineraries_run_between_chosen_stops :
  forall (haversineDistanceKm : Stop -> number -> number -> number)
    (trips : list Trip) (stopTimesByTrip : gmap string (list StopTime))
    (stops : list Stop) (routeById : gmap string Route)
    (origin destination : Stop) (destinationLocation : option LatLng)
    (nowMinutes : number),
    List.NoDup (map stop_id stops) ->
    In origin stops -> In destination stops ->
    Forall (fun c => boardStop c = origin /\
                     (destinationLocation = None -> alightStop c = destination))
      (directsOf
         (plan haversineDistanceKm trips stopTimesByTrip (buildStopById stops)
            routeById origin destination destinationLocation nowMinutes)) /\
    Forall (fun p => boardStop (firstLeg p) = origin /\
                     alightStop (secondLeg p) = destination)
      (transfersOf
         (plan haversineDistanceKm trips stopTimesByTrip (buildStopById stops)
            routeById origin destination destinationLocation nowMinutes)).
Proof.
  intros hav trips stbt stops rbi o d loc now Hnd Ho Hd.
  pose proof (buildStopById_own stops o Hnd Ho) as Hown_o.
  pose proof (buildStopById_own stops d Hnd Hd) as Hown_d.
  split.
  - apply List.Forall_forall. intros c Hc.
    apply directsOf_plan_In in Hc. apply candidates_In in Hc as (t & _ & Hc).
    split.
    + apply directCandidate_shape in Hc
        as (l & bi & b & ai & a & _ & _ & Hbi & Hb & _ & _ & _ & _
            & _ & _ & Hbs & _).
      rewrite (findIndex_is_stop o l bi b Hbi Hb), Hown_o in Hbs.
      now injection Hbs.
    + intros ->. apply directCandidate_exact in Hc.
      rewrite Hown_d in Hc. now injection Hc.
  - apply List.Forall_forall. intros p Hp.
    apply transfersOf_plan_In in Hp. apply transferPlans_shape in Hp
      as (t1 & sts1 & oi & b1 & ai & a1 & t2 & sts2 & di & b2 & bi2 & a2
          & _ & _ & Hoi & Hb1 & _ & _ & El1 & _ & _ & Hdi & Ha2 & _ & _ & El2
          & _).
    apply createLeg_Some in El1 as (_ & _ & _ & _ & _ & Hbs1 & _).
    apply createLeg_Some in El2 as (_ & _ & _ & _ & _ & _ & Has2).
    rewrite (findIndex_is_stop o sts1 oi b1 Hoi Hb1), Hown_o in Hbs1.
    rewrite (findIndex_is_stop d sts2 di a2 Hdi Ha2), Hown_d in Has2.
    split; [now injection Hbs1 | now injection Has2].
Qed.

(** One trip from A to B, no destination coordinate. *)
Lemma itineraries_run_between_chosen_stops_witness :
  Forall (fun c => boardStop c = Sample.stopA /\
                   (@None LatLng = None -> alightStop c = Sample.stopB))
    (directsOf
       (plan Sample.flatDistance [Sample.tripNamed "t1"]
          (buildStopTimesByTrip
             [Sample.call "t1" "A" "08:00:00" 1; Sample.call "t1" "B" "08:10:00" 2])
          (buildStopById [Sample.stopA; Sample.stopB; Sample.stopT])
          Sample.routeById Sample.stopA Sample.stopB None (Fin 0))) /\
  Forall (fun p => boardStop (firstLeg p) = Sample.stopA /\
                   alightStop (secondLeg p) = Sample.stopB)
    (transfersOf
       (plan Sample.flatDistance [Sample.tripNamed "t1"]
          (buildStopTimesByTrip
             [Sample.call "t1" "A" "08:00:00" 1; Sample.call "t1" "B" "08:10:00" 2])
          (buildStopById [Sample.stopA; Sample.stopB; Sample.stopT])
          Sample.routeById Sample.stopA Sample.stopB None (Fin 0))).
Proof.
  apply (itineraries_run_between_chosen_stops Sample.flatDistance
           [Sample.tripNamed "t1"]
           (buildStopTimesByTrip
              [Sample.call "t1" "A" "08:00:00" 1; Sample.call "t1" "B" "08:10:00" 2])
           [Sample.stopA; Sample.stopB; Sample.stopT]
           Sample.routeById Sample.stopA Sample.stopB None (Fin 0)).
  - repeat constructor; simpl; intuition discriminate.
  - now left.
  - right. now left.
Defined.


(** ** Clock strings in order *)

(** X17. On clock strings made of three runs of decimal digits the
    conversion never decreases when a field grows: a string whose hours,
    minutes and seconds are each at least those of another converts to at
    least as many minutes, whatever the size of the fields and under the
    rounding of every operation. *)
Theorem conversion_is_monotone :
  forall hh mm ss hh' mm' ss' : string,
    isDecimal hh = true -> isDecimal mm = true -> isDecimal ss = true ->
    isDecimal hh' = true -> isDecimal mm' = true -> isDecimal ss' = true ->
    (decimalValue hh <= decimalValue hh')%Z ->
    (decimalValue mm <= decimalValue mm')%Z ->
    (decimalValue ss <= decimalValue ss')%Z ->
    num_leb (timeToMinutes (hh ++ ":" ++ mm ++ ":" ++ ss)%string)
            (timeToMinutes (hh' ++ ":" ++ mm' ++ ":" ++ ss')%string) = true.
Proof.
  intros hh mm ss hh' mm' ss' Hh Hm Hs Hh' Hm' Hs' Hhours Hminutes Hseconds.
  rewrite (timeToMinutes_decimal hh mm ss), (timeToMinutes_decimal hh' mm' ss')
    by assumption.
  pose proof (decimalValue_nonneg hh). pose proof (decimalValue_nonneg mm).
  pose proof (decimalValue_nonneg ss).
  apply minutes_mono; lia.
Qed.

Lemma conversion_is_monotone_witness :
  num_leb (timeToMinutes "0:0:77") (timeToMinutes "0:1:77") = true.
Proof.
  apply (conversion_is_monotone "0" "0" "77" "0" "1" "77");
    try reflexivity; vm_compute; discriminate.
Defined.

(** ** The twelve-hour dial *)

Section RemainderFacts.
Local Open Scope Q_scope.

Lemma Qtrunc_rem_range (p b : Q) :
  0 < b ->
  (0 <= p -> 0 <= p - b * inject_Z (Qtrunc (p / b)) /\
             p - b * inject_Z (Qtrunc (p / b)) < b) /\
  (p <= 0 -> - b < p - b * inject_Z (Qtrunc (p / b)) /\
             p - b * inject_Z (Qtrunc (p / b)) <= 0).
Proof.
  intros Hb.
  assert (b * (p / b) == p) as Hp by (apply Qmult_div_r; lra).
  set (x := p / b) in *. unfold Qtrunc.
  destruct (Qle_bool 0 x) eqn:E.
  - apply Qle_bool_iff in E.
    pose proof (Qfloor_le x) as H1. pose proof (Qlt_floor x) as H2.
    rewrite inject_Z_plus in H2. change (inject_Z 1) with 1 in H2.
    assert (0 <= inject_Z (Qfloor x)) as H3.
    { change 0 with (inject_Z (Qfloor 0)). rewrite <- Zle_Qle.
      now apply Qfloor_resp_le. }
    set (f := inject_Z (Qfloor x)) in *.
    split; intros Hp0; split; nra.
  - assert (x < 0) as E'.
    { apply Qnot_le_lt. intros H. apply Qle_bool_iff in H. congruence. }
    pose proof (Qle_ceiling x) as H1. pose proof (Qceiling_lt x) as H2.
    unfold Z.sub in H2. rewrite inject_Z_plus in H2.
    change (inject_Z (- (1))) with (- (1)) in H2.
    assert (inject_Z (Qceiling x) <= 0) as H3.
    { change 0 with (inject_Z (Qceiling 0)). rewrite <- Zle_Qle.
      apply Qceiling_resp_le. lra. }
    set (c := inject_Z (Qceiling x)) in *.
    split; intros Hp0; split; nra.
Qed.

(** A result between two binary64 values is rounded to a value between
    them. *)
Lemma fin_bounded (x lo hi : Q) :
  rnd lo == lo -> rnd hi == hi -> - pow2 1024 < lo -> hi < pow2 1024 ->
  lo <= x -> x <= hi ->
  exists d : double, fin x = Fin d /\ lo <= d /\ d <= hi.
Proof.
  intros Elo Ehi Hlo Hhi Hx Hx'.
  pose proof (rnd_mono lo x Hx) as H1. pose proof (rnd_mono x hi Hx') as H2.
  destruct (fin_spec x) as [(d & -> & Hd)|[(_ & _ & Hr)|(_ & _ & Hr)]].
  - exists d. rewrite Hd. split; [reflexivity|]. split; lra.
  - exfalso. lra.
  - exfalso. lra.
Qed.

Lemma double_bounds (b : double) :
  rnd b == b /\ rnd (- b) == - b /\ - pow2 1024 < b /\ b < pow2 1024.
Proof.
  pose proof (double_range b) as H. apply Qabs_Qlt_condition in H.
  rewrite rnd_opp, double_rnd. repeat split; try reflexivity; lra.
Qed.

(** The remainder lies between zero and the divisor, on the side of the
    dividend. *)
Lemma num_rem_range (p b : double) :
  0 < b ->
  exists r : double, num_rem (Fin p) (Fin b) = Fin r /\
    (0 <= p -> 0 <= r /\ r <= b) /\
    (p < 0 -> - b <= r /\ r <= 0).
Proof.
  intros Hb. unfold num_rem, sign.
  assert ((Qnum b ?= 0)%Z = Gt) as ->.
  { apply Z.compare_gt_iff. unfold Qlt in Hb. simpl in Hb. lia. }
  destruct (double_bounds b) as (E1 & E2 & B1 & B2).
  destruct (Qtrunc_rem_range p b Hb) as [Hpos Hneg].
  destruct (Qlt_le_dec p 0) as [Hp|Hp].
  - destruct Hneg as [K1 K2]; [lra|].
    destruct (fin_bounded (p - b * inject_Z (Qtrunc (p / b))) (- b) 0)
      as (r & -> & R1 & R2); try lra; try reflexivity.
    exists r. split; [reflexivity|]. split; intros; split; lra.
  - destruct (Hpos Hp) as [K1 K2].
    destruct (fin_bounded (p - b * inject_Z (Qtrunc (p / b))) 0 b)
      as (r & -> & R1 & R2); try lra; try reflexivity.
    exists r. split; [reflexivity|]. split; intros; split; lra.
Qed.

Lemma truthy_Fin (q : double) : truthy (Fin q) = true -> ~ q == 0.
Proof.
  simpl. intros H Hq. apply Qeq_bool_iff in Hq. rewrite Hq in H. discriminate.
Qed.

End RemainderFacts.

(** X18. Whatever string [formatTime] is given, it either returns the
    string unchanged or shows an hour on the twelve-hour dial: greater than
    0 and at most 12, also for negative, fractional and past-midnight
    hours, with a finite number of minutes and the period AM or PM. *)
Theorem format_time_dial :
  forall value : string,
    match formatTime value with
    | Verbatim shown => shown = value
    | Clock hours12 minutes period =>
        (exists h, hours12 = Fin h /\ (0 < h)%Q /\ (h <= 12)%Q) /\
        isFinite minutes = true /\
        (period = "AM" \/ period = "PM")
    end.
Proof.
  intros value. unfold formatTime. cbv zeta.
  destruct (Number_opt (split ":" value !! 0%nat)) as [| |hq|]; try reflexivity.
  destruct (Number_opt (split ":" value !! 1%nat)) as [| |mq|]; try reflexivity.
  cbn [isFinite negb orb].
  destruct (num_rem_range hq 24) as (r1 & -> & Ha & Hb); [reflexivity|].
  cbn [dval] in Ha, Hb.
  assert (-24 <= r1 /\ r1 <= 24)%Q as [Hr1 Hr1'].
  { destruct (Qlt_le_dec hq 0) as [Hneg|Hpos].
    - destruct Hb as [? ?]; [lra|]. split; lra.
    - destruct (Ha Hpos). split; lra. }
  unfold num_add.
  assert (exists d : double, fin (r1 + 24%double) = Fin d /\ 0 <= d /\ d <= 48)%Q
    as (d2 & -> & Hd2 & Hd2').
  { apply fin_bounded;
      [reflexivity|vm_compute; reflexivity|reflexivity|reflexivity
      |cbn [dval]; lra|cbn [dval]; lra]. }
  destruct (num_rem_range d2 24) as (r2 & -> & Hc & _); [reflexivity|].
  destruct (Hc Hd2) as [Hr2 Hr2'].
  destruct (num_rem_range r2 12) as (r3 & -> & Hd & _); [reflexivity|].
  destruct (Hd Hr2) as [Hr3 Hr3']. cbn [dval] in Hr3'.
  split; [|split; [reflexivity|]].
  - destruct (truthy (Fin r3)) eqn:T.
    + apply truthy_Fin in T. exists r3. repeat split; lra.
    + exists 12%double. split; [reflexivity|]. split; [reflexivity|].
      vm_compute. discriminate.
  - destruct (num_geb (Fin r2) (Fin 12)); auto.
Qed.

Lemma split_without_separator (sep : ascii) (value : string) :
  ~ In sep (list_ascii_of_string value) -> split sep value = [value].
Proof.
  induction value as [|c rest IH]; simpl; [reflexivity|].
  intros H. destruct (Ascii.eqb_spec c sep) as [->|Hne].
  - exfalso. apply H. now left.
  - rewrite IH; [reflexivity|]. intros Hin. apply H. now right.
Qed.

(** X19. A string without a colon has no minutes component, so
    [formatTime] returns it unchanged, whatever number its text writes. *)
Theorem format_time_without_colon :
  forall value : string,
    ~ In ":"%char (list_ascii_of_string value) ->
    formatTime value = Verbatim value.
Proof.
  intros value H. unfold formatTime. cbv zeta.
  rewrite (split_without_separator ":" value H).
  change ([value] !! 1%nat) with (@None string).
  cbn [Number_opt isFinite negb]. now rewrite orb_true_r.
Qed.

Lemma format_time_without_colon_witness :
  formatTime "0815" = Verbatim "0815".
Proof.
  apply (format_time_without_colon "0815").
  simpl. intuition discriminate.
Defined.


(** ** The CSV reader *)

Section CsvFacts.
Variable values : list string.

Lemma setProperty_lookup (acc : gmap string string) (header value key : string) :
  setProperty acc header value !! key
  = if String.eqb header key && negb (String.eqb header "__proto__")
    then Some value else acc !! key.
Proof.
  unfold setProperty.
  destruct (String.eqb_spec header "__proto__") as [->|Hp].
  - now rewrite andb_false_r.
  - rewrite andb_true_r. destruct (String.eqb_spec header key) as [->|Hne].
    + now rewrite lookup_insert_eq.
    + now rewrite lookup_insert_ne.
Qed.

Lemma reduceHeaders_other (headers : list string) (key : string) :
  forall index acc,
    ~ In key headers \/ key = "__proto__" ->
    reduceHeaders values index acc headers !! key = acc !! key.
Proof.
  induction headers as [|h hs IH]; intros index acc Hk; simpl; [reflexivity|].
  rewrite IH, setProperty_lookup.
  - destruct (String.eqb_spec h key) as [->|Hne]; [|reflexivity].
    destruct Hk as [Hk | ->]; [exfalso; apply Hk; now left|reflexivity].
  - destruct Hk as [Hk|Hk]; [left|now right].
    intros Hin. apply Hk. now right.
Qed.

Lemma reduceHeaders_at (headers : list string) (key : string) :
  forall index acc i,
    headers !! i = Some key -> key <> "__proto__" ->
    (forall j, (i < j)%nat -> headers !! j <> Some key) ->
    reduceHeaders values index acc headers !! key
    = Some (default EmptyString (values !! (index + i)%nat)).
Proof.
  induction headers as [|h hs IH]; intros index acc i Hi Hp Hlast; [discriminate|].
  destruct i as [|i]; simpl in *.
  - injection Hi as ->. rewrite reduceHeaders_other, setProperty_lookup.
    + rewrite String.eqb_refl. apply String.eqb_neq in Hp. rewrite Hp. simpl.
      now rewrite Nat.add_0_r.
    + left. intros Hin. apply list_elem_of_In, list_elem_of_lookup in Hin as (j & Hj).
      apply (Hlast (S j)); [lia|exact Hj].
  - rewrite (IH (S index) _ i Hi Hp).
    + now rewrite Nat.add_succ_r.
    + intros j Hj. apply (Hlast (S j)). lia.
Qed.

Lemma reduceHeaders_is_Some (headers : list string) (key : string) :
  forall index acc,
    is_Some (reduceHeaders values index acc headers !! key) <->
    is_Some (acc !! key) \/ (In key headers /\ key <> "__proto__").
Proof.
  induction headers as [|h hs IH]; intros index acc; simpl; [tauto|].
  rewrite IH, setProperty_lookup.
  destruct (String.eqb_spec h key) as [->|Hne]; simpl.
  - destruct (String.eqb_spec key "__proto__") as [->|Hp]; simpl.
    + tauto.
    + split; [auto|]. intros _. left. eauto.
  - tauto.
Qed.

End CsvFacts.

(** X20. Every row [parseCsv] returns has exactly the header fields as its
    properties, [__proto__] apart: a line with fewer values than the header
    still gets every column, and values beyond the header are dropped. *)
Theorem csv_rows_have_the_header_columns :
  forall (raw : string) (row : gmap string string) (key : string),
    In row (parseCsv raw) ->
    (is_Some (row !! key) <-> In key (csvHeaders raw) /\ key <> "__proto__").
Proof.
  intros raw row key Hrow. unfold parseCsv in Hrow.
  apply in_map_iff in Hrow as (line & <- & _).
  rewrite reduceHeaders_is_Some, lookup_empty.
  split; [intros [H|H]; [now destruct H|exact H]|auto].
Qed.

(** A header of three columns and a line of two values. *)
Lemma csv_rows_have_the_header_columns_witness :
  is_Some ((<[ "stop_id" := "A" ]> (<[ "stop_name" := "Main" ]>
              (<[ "stop_lat" := "" ]> ∅)) : gmap string string) !! "stop_lat")
  <-> In "stop_lat" (csvHeaders Sample.stopsCsv) /\ "stop_lat" <> "__proto__".
Proof.
  apply (csv_rows_have_the_header_columns Sample.stopsCsv).
  left. vm_compute. reflexivity.
Defined.

(** X21. [parseCsv] returns one row for every non-blank line after the
    header, in order, and the row of a line holds under a header field the
    value at the position of the last header with that name, or the empty
    string when the line has no value there. *)
Theorem csv_cells_by_position :
  forall raw : string,
    Forall2
      (fun (line : string) (row : gmap string string) =>
         forall (i : nat) (header : string),
           csvHeaders raw !! i = Some header -> header <> "__proto__" ->
           (forall j, (i < j)%nat -> csvHeaders raw !! j <> Some header) ->
           row !! header = Some (default EmptyString (split "," line !! i)))
      (csvDataLines raw) (parseCsv raw).
Proof.
  intros raw. unfold parseCsv.
  induction (csvDataLines raw) as [|line lines IH]; simpl; constructor;
    [|exact IH].
  intros i header Hi Hp Hlast.
  now rewrite (reduceHeaders_at (split "," line) (csvHeaders raw) header 0 ∅ i).
Qed.
